(** * The transcoding orchestrator of fftools/ffmpeg.c

    A shallow embedding of the scheduling core of [fftools/ffmpeg.c]:
    the signal monitor, the output selector, the subtitle deep copy and
    its heartbeat, the input driver, the progress report, and the end of
    [transcode] with the exit path of [main].

    C integers are [Z] with their wrap-around written out; arrays are
    lists indexed with stdpp's lookup; pointers between streams are
    pairs (file index, stream index); collaborators that live in other
    translation units are scripted oracles threaded through the state,
    and their calls are recorded in an event trace. *)

From Stdlib Require Import ZArith QArith Bool Lia String.
From stdpp Require Import base list.

Local Open Scope Z_scope.

(** ** Machine integers *)

Module CInt.

Definition INT_MAX : Z := 2147483647.
Definition INT_MIN : Z := -2147483648.
Definition INT64_MAX : Z := 9223372036854775807.
Definition INT64_MIN : Z := -9223372036854775808.

(** [int] arithmetic: the result of an operation, reduced to 32 bits
    two's complement. *)
Definition wrap32 (z : Z) : Z := (z + 2 ^ 31) mod 2 ^ 32 - 2 ^ 31.

(** [int64_t] arithmetic, reduced to 64 bits two's complement. *)
Definition wrap64 (z : Z) : Z := (z + 2 ^ 63) mod 2 ^ 64 - 2 ^ 63.

(** [uint64_t] arithmetic and the conversion to [size_t]. *)
Definition wrapu64 (z : Z) : Z := z mod 2 ^ 64.

Definition in_int (z : Z) : Prop := INT_MIN <= z <= INT_MAX.
Definition in_int64 (z : Z) : Prop := INT64_MIN <= z <= INT64_MAX.

(** A C truth value as an [int]. *)
Definition of_bool (b : bool) : Z := if b then 1 else 0.

End CInt.

Import CInt.

(** ** Constants of libavutil *)

(** Modelled from the spec: the macros of libavutil/avutil.h and
    libavutil/error.h are not part of this translation unit.  The
    "unknown timestamp" marker is the bit pattern 0x8000000000000000 read
    as [int64_t]; "retry-again", "end-of-file" and "out-of-memory" are the
    negative codes [AVERROR(EAGAIN)], [AVERROR_EOF] (the tag 'E','O','F',' ')
    and [AVERROR(ENOMEM)]. *)
Definition AV_NOPTS_VALUE : Z := INT64_MIN.
Definition AVERROR_EAGAIN : Z := -11.
Definition AVERROR_ENOMEM : Z := -12.
Definition AVERROR_EOF : Z := - (69 + 79 * 2 ^ 8 + 70 * 2 ^ 16 + 32 * 2 ^ 24).
Definition AVERROR_BUG : Z := - (66 + 85 * 2 ^ 8 + 71 * 2 ^ 16 + 33 * 2 ^ 24).

(** ** Signal and interrupt monitor *)

Module Signal.

(** The terminal attributes of file descriptor 0 are an opaque value. *)
Definition termios := Z.

(** The process-wide variables the handler and the interrupt callback
    touch, together with what the process has written to standard error
    and whether it has called [exit]. *)
Record state := {
  received_sigterm : Z;
  received_nb_signals : Z;
  transcode_init_done : Z;
  restore_tty : bool;
  oldtty : termios;
  tty : termios;
  stderr_out : list string;
  exited : option Z
}.

Definition hard_exit_msg : string :=
  String.append "Received > 3 system signals, hard exiting"
                (String (Ascii.ascii_of_nat 10) EmptyString).

(** [term_exit_sigsafe]: put the saved attributes back when [term_init]
    changed them. *)
Definition term_exit_sigsafe (s : state) : state :=
  if restore_tty s
  then {| received_sigterm := received_sigterm s;
          received_nb_signals := received_nb_signals s;
          transcode_init_done := transcode_init_done s;
          restore_tty := restore_tty s;
          oldtty := oldtty s;
          tty := oldtty s;
          stderr_out := stderr_out s;
          exited := exited s |}
  else s.

(** [sigterm_handler] *)
Definition sigterm_handler (sig : Z) (s : state) : state :=
  let s1 :=
    {| received_sigterm := sig;
       received_nb_signals := wrap32 (received_nb_signals s + 1);
       transcode_init_done := transcode_init_done s;
       restore_tty := restore_tty s;
       oldtty := oldtty s;
       tty := tty s;
       stderr_out := stderr_out s;
       exited := exited s |} in
  let s2 := term_exit_sigsafe s1 in
  if 3 <? received_nb_signals s2
  then {| received_sigterm := received_sigterm s2;
          received_nb_signals := received_nb_signals s2;
          transcode_init_done := transcode_init_done s2;
          restore_tty := restore_tty s2;
          oldtty := oldtty s2;
          tty := tty s2;
          stderr_out := stderr_out s2 ++ [hard_exit_msg];
          exited := Some 123 |}
  else s2.

(** Delivery of a sequence of signals to the process: a process that has
    exited receives nothing more. *)
Fixpoint deliver (sigs : list Z) (s : state) : state :=
  match sigs with
  | [] => s
  | sig :: rest =>
      match exited s with
      | Some _ => s
      | None => deliver rest (sigterm_handler sig s)
      end
  end.

(** The variables as the program starts: the static initialisers. *)
Definition initial (t : termios) : state :=
  {| received_sigterm := 0;
     received_nb_signals := 0;
     transcode_init_done := 0;
     restore_tty := false;
     oldtty := 0;
     tty := t;
     stderr_out := [];
     exited := None |}.

(** [decode_interrupt_cb] *)
Definition decode_interrupt_cb (s : state) : Z :=
  of_bool (transcode_init_done s <? received_nb_signals s).

End Signal.

(** ** Data model of the pipeline *)

Record AVRational := { num : Z; den : Z }.

Inductive AVMediaType :=
| AVMEDIA_TYPE_UNKNOWN
| AVMEDIA_TYPE_VIDEO
| AVMEDIA_TYPE_AUDIO
| AVMEDIA_TYPE_DATA
| AVMEDIA_TYPE_SUBTITLE
| AVMEDIA_TYPE_ATTACHMENT.

Definition is_subtitle (t : AVMediaType) : bool :=
  match t with AVMEDIA_TYPE_SUBTITLE => true | _ => false end.

Definition is_audio (t : AVMediaType) : bool :=
  match t with AVMEDIA_TYPE_AUDIO => true | _ => false end.

(** A pointer to a stream is the pair (file index, stream index) of the
    slot that holds it. *)
Definition ref := (nat * nat)%type.

(** The part of an output filter the scheduler reads. *)
Record OutputFilter := { last_pts : Z }.

(** Modelled from the spec: the enumeration [OSTFinished] of ffmpeg.h is
    not part of this translation unit; [finished] is "a lifecycle bitfield
    (encoder-done, muxer-done)". *)
Definition ENCODER_FINISHED : Z := 1.
Definition MUXER_FINISHED : Z := 2.

Record OutputStream := {
  ost_file_index : nat;
  ost_index : nat;
  ost_ist : option ref;
  enc : bool;                      (* [ost->enc] is not NULL *)
  filter : option OutputFilter;
  last_mux_dts : Z;
  initialized : Z;
  inputs_done : Z;
  finished : Z;
  unavailable : Z;
  sq_idx_encode : Z;
  ost_fix_sub_duration_heartbeat : Z
}.

Record OutputFile := { of_streams : list OutputStream }.

(** ** Output selector *)

Module Selector.

(** [ost_iter]: the loop over the files, entered at file [of_idx] (the
    list is the array from that file on) and stream [ost_idx]. *)
Fixpoint ost_scan (files : list OutputFile) (ost_idx : nat)
  : option OutputStream :=
  match files with
  | [] => None
  | f :: files' =>
      match of_streams f !! ost_idx with
      | Some ost => Some ost
      | None => ost_scan files' 0
      end
  end.

Definition ost_iter (output_files : list OutputFile)
  (prev : option OutputStream) : option OutputStream :=
  match prev with
  | None => ost_scan output_files 0
  | Some p => ost_scan (drop (ost_file_index p) output_files) (S (ost_index p))
  end.

(** The output timestamp of the stream's filter, when the stream has a
    filter and that timestamp is known. *)
Definition filter_pts (ost : OutputStream) : option Z :=
  match filter ost with
  | Some f => if last_pts f =? AV_NOPTS_VALUE then None else Some (last_pts f)
  | None => None
  end.

(** The timestamp [opts] the loop body computes for a stream. *)
Definition opts (ost : OutputStream) : Z :=
  match filter_pts ost with
  | Some pts => pts
  | None =>
      if last_mux_dts ost =? AV_NOPTS_VALUE then INT64_MIN
      else last_mux_dts ost
  end.

(** The test that ends the scan at once: a stream still to be primed. *)
Definition unprimed (ost : OutputStream) : bool :=
  (initialized ost =? 0) && (inputs_done ost =? 0) && (finished ost =? 0).

(** The body of the [for] loop of [choose_output], entered with the
    stream [cur] the iterator returned.  [None] is a loop that has not
    ended within [fuel] iterations; [Some r] is the value of [ost_min]
    when the loop ends. *)
Fixpoint choose_loop (fuel : nat) (output_files : list OutputFile)
  (cur : option OutputStream) (opts_min : Z) (ost_min : option OutputStream)
  : option (option OutputStream) :=
  match cur with
  | None => Some ost_min
  | Some ost =>
      match fuel with
      | O => None
      | S fuel' =>
          if unprimed ost then Some (Some ost)
          else if (finished ost =? 0) && (opts ost <? opts_min)
               then choose_loop fuel' output_files
                      (ost_iter output_files (Some ost)) (opts ost) (Some ost)
               else choose_loop fuel' output_files
                      (ost_iter output_files (Some ost)) opts_min ost_min
      end
  end.

(** [choose_output]: the return value and what is stored through [post]
    ([None] when nothing is stored). *)
Definition choose_output_fuel (fuel : nat) (output_files : list OutputFile)
  : option (Z * option OutputStream) :=
  match choose_loop fuel output_files (ost_iter output_files None)
          INT64_MAX None with
  | None => None
  | Some None => Some (AVERROR_EOF, None)
  | Some (Some ost_min) =>
      Some (if unavailable ost_min =? 0 then 0 else AVERROR_EAGAIN,
            Some ost_min)
  end.

(** All streams in iteration order. *)
Definition all_streams (output_files : list OutputFile) : list OutputStream :=
  concat (map of_streams output_files).

(** One iteration per stream suffices when every stream records the slot
    it sits in. *)
Definition choose_output (output_files : list OutputFile)
  : option (Z * option OutputStream) :=
  choose_output_fuel (S (length (all_streams output_files))) output_files.

(** Every stream records its own position, as the code that builds the
    output files leaves it. *)
Definition indexed (output_files : list OutputFile) : Prop :=
  forall i f j ost,
    output_files !! i = Some f -> of_streams f !! j = Some ost ->
    ost_file_index ost = i /\ ost_index ost = j.

(** The scan written over the list of streams. *)
Fixpoint select (l : list OutputStream) (opts_min : Z)
  (ost_min : option OutputStream) : option OutputStream :=
  match l with
  | [] => ost_min
  | ost :: l' =>
      if unprimed ost then Some ost
      else if (finished ost =? 0) && (opts ost <? opts_min)
           then select l' (opts ost) (Some ost)
           else select l' opts_min ost_min
  end.

(** [ost] is the first stream, in iteration order, still to be primed. *)
Definition first_unprimed (l : list OutputStream) (ost : OutputStream) : Prop :=
  exists i : nat,
    l !! i = Some ost /\ unprimed ost = true /\
    forall (j : nat) x, l !! j = Some x -> (j < i)%nat -> unprimed x = false.

(** [ost] is the first of the streams with the smallest [opts] among those
    that are not finished, and its [opts] is below the starting ceiling. *)
Definition earliest (l : list OutputStream) (ost : OutputStream) : Prop :=
  exists i : nat,
    l !! i = Some ost /\ finished ost = 0 /\ opts ost < INT64_MAX /\
    forall (j : nat) x, l !! j = Some x -> finished x = 0 ->
      opts ost <= opts x /\ ((j < i)%nat -> opts ost < opts x).

(** Two pipelines to run the selector on: a stream-copy output whose last
    muxed timestamp is [dts], initialised and unfinished, and files made of
    such streams. *)
Definition copy_stream (fi si : nat) (dts : Z) : OutputStream :=
  {| ost_file_index := fi; ost_index := si; ost_ist := Some (0%nat, si);
     enc := false; filter := None; last_mux_dts := dts;
     initialized := 1; inputs_done := 0; finished := 0; unavailable := 0;
     sq_idx_encode := -1; ost_fix_sub_duration_heartbeat := 0 |}.

Definition two_files : list OutputFile :=
  [ {| of_streams := [copy_stream 0 0 900; copy_stream 0 1 400] |};
    {| of_streams := [copy_stream 1 0 400] |} ].

Definition at_ceiling : list OutputFile :=
  [ {| of_streams := [copy_stream 0 0 INT64_MAX] |} ].

End Selector.

(** ** Subtitles and their deep copy *)

Module Subtitle.

Inductive AVSubtitleType :=
| SUBTITLE_NONE
| SUBTITLE_BITMAP
| SUBTITLE_TEXT
| SUBTITLE_ASS.

Definition is_bitmap (t : AVSubtitleType) : bool :=
  match t with SUBTITLE_BITMAP => true | _ => false end.

(** Modelled from the spec: [AVPALETTE_SIZE] is a macro of libavutil not
    part of this translation unit: the "fixed-size palette" that is the
    second plane of a bitmap subtitle, 256 entries of four bytes. *)
Definition AVPALETTE_SIZE : Z := 1024.

Definition buffer := list Byte.byte.

(** [AVSubtitleRect].  [data] and [linesize] are the two arrays of four
    entries; a NULL pointer is [None]; [text] and [ass] hold the bytes of
    the C string before its terminator. *)
Record AVSubtitleRect := {
  x : Z;
  y : Z;
  w : Z;
  h : Z;
  nb_colors : Z;
  data : list (option buffer);
  linesize : list Z;
  type : AVSubtitleType;
  text : option buffer;
  ass : option buffer;
  flags : Z
}.

(** [AVSubtitle].  [rects] is the array of pointers to rectangles:
    [None] is a NULL array, [Some l] an array whose leading non-NULL
    entries are [l]. *)
Record AVSubtitle := {
  format : Z;
  start_display_time : Z;
  end_display_time : Z;
  num_rects : Z;
  rects : option (list AVSubtitleRect);
  pts : Z
}.

Definition plane (r : AVSubtitleRect) (j : nat) : option buffer :=
  match data r !! j with
  | Some p => p
  | None => None
  end.

Definition linesize_at (r : AVSubtitleRect) (j : nat) : Z :=
  match linesize r !! j with
  | Some l => l
  | None => 0
  end.

(** The allocator: a script of the outcomes of the allocations to come
    (an exhausted script is an allocator that no longer fails) and the
    number of blocks allocated and not yet freed. *)
Record heap := { script : list bool; live : Z }.

(** [av_malloc], [av_mallocz], [av_calloc], and the allocation inside
    [av_strdup] and [av_memdup]. *)
Definition av_malloc (hp : heap) : bool * heap :=
  match script hp with
  | [] => (true, {| script := []; live := live hp + 1 |})
  | ok :: rest =>
      (ok, {| script := rest; live := if ok then live hp + 1 else live hp |})
  end.

(** The first [n] bytes of a buffer, what [memcpy] reads. *)
Fixpoint takeZ (b : buffer) (n : Z) : buffer :=
  match b with
  | [] => []
  | c :: b' => if 0 <? n then c :: takeZ b' (n - 1) else []
  end.

Definition set_text (d : AVSubtitleRect) (v : option buffer) : AVSubtitleRect :=
  {| x := x d; y := y d; w := w d; h := h d; nb_colors := nb_colors d;
     data := data d; linesize := linesize d; type := type d;
     text := v; ass := ass d; flags := flags d |}.

Definition set_ass (d : AVSubtitleRect) (v : option buffer) : AVSubtitleRect :=
  {| x := x d; y := y d; w := w d; h := h d; nb_colors := nb_colors d;
     data := data d; linesize := linesize d; type := type d;
     text := text d; ass := v; flags := flags d |}.

Definition set_data (d : AVSubtitleRect) (j : nat) (b : buffer) : AVSubtitleRect :=
  {| x := x d; y := y d; w := w d; h := h d; nb_colors := nb_colors d;
     data := <[j := Some b]> (data d); linesize := linesize d; type := type d;
     text := text d; ass := ass d; flags := flags d |}.

Definition set_linesize (d : AVSubtitleRect) (j : nat) (l : Z) : AVSubtitleRect :=
  {| x := x d; y := y d; w := w d; h := h d; nb_colors := nb_colors d;
     data := data d; linesize := <[j := l]> (linesize d); type := type d;
     text := text d; ass := ass d; flags := flags d |}.

(** What [av_mallocz] returns, with the scalar fields the loop body
    assigns first. *)
Definition init_rect (src_rect : AVSubtitleRect) : AVSubtitleRect :=
  {| x := x src_rect; y := y src_rect; w := w src_rect; h := h src_rect;
     nb_colors := nb_colors src_rect;
     data := [None; None; None; None]; linesize := [0; 0; 0; 0];
     type := type src_rect; text := None; ass := None;
     flags := flags src_rect |}.

(** A step of the loop body that may jump to [cleanup]: the flag is
    false after the jump, and the rectangle is as the step leaves it. *)
Definition rect_step := AVSubtitleRect -> heap -> bool * AVSubtitleRect * heap.

Definition and_then (a b : rect_step) : rect_step :=
  fun d hp =>
    let '(ok, d1, hp1) := a d hp in
    if ok then b d1 hp1 else (false, d1, hp1).

Definition copy_text (src_rect : AVSubtitleRect) : rect_step :=
  fun d hp =>
    match text src_rect with
    | None => (true, d, hp)
    | Some t =>
        let '(ok, hp') := av_malloc hp in
        if ok then (true, set_text d (Some t), hp') else (false, d, hp')
    end.

Definition copy_ass (src_rect : AVSubtitleRect) : rect_step :=
  fun d hp =>
    match ass src_rect with
    | None => (true, d, hp)
    | Some t =>
        let '(ok, hp') := av_malloc hp in
        if ok then (true, set_ass d (Some t), hp') else (false, d, hp')
    end.

(** [buf_size] of the inner loop: the product is an [int], converted to
    [size_t]. *)
Definition buf_size (src_rect : AVSubtitleRect) (j : nat) : Z :=
  if is_bitmap (type src_rect) && (j =? 1)%nat
  then AVPALETTE_SIZE
  else wrapu64 (wrap32 (h src_rect * linesize_at src_rect j)).

(** One iteration of the loop over the four planes. *)
Definition copy_plane (src_rect : AVSubtitleRect) (j : nat) : rect_step :=
  fun d hp =>
    match plane src_rect j with
    | None => (true, d, hp)
    | Some b =>
        let '(ok, hp') := av_malloc hp in
        if ok
        then (true,
              set_linesize (set_data d j (takeZ b (buf_size src_rect j)))
                           j (linesize_at src_rect j),
              hp')
        else (false, d, hp')
    end.

(** The body of the loop over the rectangles, after the rectangle itself
    has been allocated. *)
Definition fill_rect (src_rect : AVSubtitleRect) : rect_step :=
  and_then (copy_text src_rect)
    (and_then (copy_ass src_rect)
       (and_then (copy_plane src_rect 0)
          (and_then (copy_plane src_rect 1)
             (and_then (copy_plane src_rect 2) (copy_plane src_rect 3))))).

Definition add_rect (tmp : AVSubtitle) (d : AVSubtitleRect) : AVSubtitle :=
  {| format := format tmp;
     start_display_time := start_display_time tmp;
     end_display_time := end_display_time tmp;
     num_rects := (num_rects tmp + 1) mod 2 ^ 32;
     rects := Some (match rects tmp with Some l => l | None => [] end ++ [d]);
     pts := pts tmp |}.

(** The loop over the rectangles of the source.  A rectangle whose
    allocation fails is not counted in [tmp]; one that fails later is, as
    far as it was built. *)
Fixpoint copy_rects (srcs : list AVSubtitleRect) (tmp : AVSubtitle)
  (hp : heap) : bool * AVSubtitle * heap :=
  match srcs with
  | [] => (true, tmp, hp)
  | src_rect :: rest =>
      let '(ok, hp1) := av_malloc hp in
      if ok
      then let '(ok2, d, hp2) := fill_rect src_rect (init_rect src_rect) hp1 in
           if ok2 then copy_rects rest (add_rect tmp d) hp2
           else (false, add_rect tmp d, hp2)
      else (false, tmp, hp1)
  end.

Definition block (A : Type) (p : option A) : Z :=
  match p with Some _ => 1 | None => 0 end.
Arguments block {A} p.

Fixpoint plane_blocks (l : list (option buffer)) : Z :=
  match l with
  | [] => 0
  | p :: l' => block p + plane_blocks l'
  end.

(** The blocks a rectangle owns, itself included. *)
Definition rect_blocks (r : AVSubtitleRect) : Z :=
  1 + block (text r) + block (ass r) + plane_blocks (data r).

Fixpoint rects_blocks (l : list AVSubtitleRect) : Z :=
  match l with
  | [] => 0
  | r :: l' => rect_blocks r + rects_blocks l'
  end.

(** The rectangles the loops of [copy_av_subtitle] and [avsubtitle_free]
    visit: the first [num_rects] entries of the array. *)
Definition visited (sub : AVSubtitle) : list AVSubtitleRect :=
  take (Z.to_nat (num_rects sub))
       (match rects sub with Some l => l | None => [] end).

Definition sub_blocks (sub : AVSubtitle) : Z :=
  block (rects sub) + rects_blocks (visited sub).

Definition empty_subtitle : AVSubtitle :=
  {| format := 0; start_display_time := 0; end_display_time := 0;
     num_rects := 0; rects := None; pts := 0 |}.

(** Modelled from the spec: [avsubtitle_free] belongs to libavcodec and is
    not part of this translation unit; it "releases partial state": for
    each of the [num_rects] rectangles it frees the planes, the text, the
    ASS line and the rectangle, then the array, and clears the
    structure. *)
Definition avsubtitle_free (sub : AVSubtitle) (hp : heap) : AVSubtitle * heap :=
  (empty_subtitle, {| script := script hp; live := live hp - sub_blocks sub |}).

(** [copy_av_subtitle]: the return value, what [dst] points to on return,
    and the allocator. *)
Definition copy_av_subtitle (dst src : AVSubtitle) (hp : heap)
  : Z * AVSubtitle * heap :=
  let tmp :=
    {| format := format src;
       start_display_time := start_display_time src;
       end_display_time := end_display_time src;
       num_rects := 0;
       rects := None;
       pts := pts src |} in
  if num_rects src =? 0 then (0, tmp, hp)
  else
    let '(ok, hp1) := av_malloc hp in
    if ok
    then
      let tmp1 :=
        {| format := format tmp;
           start_display_time := start_display_time tmp;
           end_display_time := end_display_time tmp;
           num_rects := num_rects tmp;
           rects := Some [];
           pts := pts tmp |} in
      let '(ok2, tmp2, hp2) := copy_rects (visited src) tmp1 hp1 in
      if ok2 then (0, tmp2, hp2)
      else (AVERROR_ENOMEM, dst, snd (avsubtitle_free tmp2 hp2))
    else (AVERROR_ENOMEM, dst, hp1).

(** The copy the comments of the interface promise, written from the
    source rectangle alone: every scalar field, the text and the ASS line
    as they are; of each plane that has data the first [buf_size] bytes
    and its line size; of a plane without data neither. *)
Definition copied_plane (src_rect : AVSubtitleRect) (j : nat) : option buffer :=
  match plane src_rect j with
  | Some b => Some (takeZ b (buf_size src_rect j))
  | None => None
  end.

Definition copied_linesize (src_rect : AVSubtitleRect) (j : nat) : Z :=
  match plane src_rect j with
  | Some _ => linesize_at src_rect j
  | None => 0
  end.

Definition copied_rect (src_rect : AVSubtitleRect) : AVSubtitleRect :=
  {| x := x src_rect; y := y src_rect; w := w src_rect; h := h src_rect;
     nb_colors := nb_colors src_rect;
     data := map (copied_plane src_rect) [0; 1; 2; 3]%nat;
     linesize := map (copied_linesize src_rect) [0; 1; 2; 3]%nat;
     type := type src_rect; text := text src_rect; ass := ass src_rect;
     flags := flags src_rect |}.

Definition copied (src : AVSubtitle) : AVSubtitle :=
  {| format := format src;
     start_display_time := start_display_time src;
     end_display_time := end_display_time src;
     num_rects := num_rects src;
     rects := if num_rects src =? 0 then None
              else Some (map copied_rect (visited src));
     pts := pts src |}.

(** A source subtitle as a decoder leaves it: [num_rects] is an
    [unsigned] and counts the rectangles of the array. *)
Definition well_formed (src : AVSubtitle) : Prop :=
  0 <= num_rects src < 2 ^ 32 /\
  length (visited src) = Z.to_nat (num_rects src).

(** The rectangle a successful step leaves. *)
Definition upd_text (src_rect d : AVSubtitleRect) : AVSubtitleRect :=
  match text src_rect with Some t => set_text d (Some t) | None => d end.

Definition upd_ass (src_rect d : AVSubtitleRect) : AVSubtitleRect :=
  match ass src_rect with Some t => set_ass d (Some t) | None => d end.

Definition upd_plane (src_rect : AVSubtitleRect) (j : nat) (d : AVSubtitleRect)
  : AVSubtitleRect :=
  match plane src_rect j with
  | Some b => set_linesize (set_data d j (takeZ b (buf_size src_rect j)))
                           j (linesize_at src_rect j)
  | None => d
  end.

(** An allocator that does not fail any more. *)
Definition reliable (hp : heap) : Prop := Forall (fun ok => ok = true) (script hp).

(** A step started on a rectangle satisfying [P] is accounted for: the
    blocks it allocated are those the rectangle gained, it succeeds on a
    reliable allocator, and on success it leaves [upd d]. *)
Definition step_ok (st : rect_step) (upd : AVSubtitleRect -> AVSubtitleRect)
  (P : AVSubtitleRect -> Prop) : Prop :=
  forall d hp, P d ->
    exists ok d' hp',
      st d hp = (ok, d', hp') /\
      live hp' - rect_blocks d' = live hp - rect_blocks d /\
      (ok = true -> d' = upd d) /\
      (reliable hp -> ok = true /\ reliable hp').

(** Sample subtitles: a bitmap rectangle with an image plane of two lines
    of two bytes and a palette, a text rectangle, and a rectangle that
    records a line size for a plane it has no data for. *)
Definition palette : buffer := repeat Byte.x2a 1024.

Definition bitmap_rect : AVSubtitleRect :=
  {| x := 10; y := 20; w := 2; h := 2; nb_colors := 4;
     data := [Some [Byte.x01; Byte.x02; Byte.x03; Byte.x04]; Some palette;
              None; None];
     linesize := [2; 0; 0; 0];
     type := SUBTITLE_BITMAP; text := None; ass := None; flags := 0 |}.

Definition text_rect : AVSubtitleRect :=
  {| x := 0; y := 0; w := 0; h := 0; nb_colors := 0;
     data := [None; None; None; None];
     linesize := [0; 0; 0; 0];
     type := SUBTITLE_ASS; text := Some [Byte.x48; Byte.x69];
     ass := Some [Byte.x30; Byte.x2c; Byte.x48; Byte.x69]; flags := 1 |}.

Definition stride_only_rect : AVSubtitleRect :=
  {| x := 0; y := 0; w := 4; h := 1; nb_colors := 0;
     data := [None; None; None; None];
     linesize := [4; 0; 0; 0];
     type := SUBTITLE_TEXT; text := Some [Byte.x48; Byte.x69];
     ass := None; flags := 0 |}.

Definition subtitle_of (l : list AVSubtitleRect) (t : Z) : AVSubtitle :=
  {| format := 0; start_display_time := 0; end_display_time := 2000;
     num_rects := Z.of_nat (length l);
     rects := match l with [] => None | _ => Some l end;
     pts := t |}.

Definition fresh_heap : heap := {| script := []; live := 0 |}.

(** The planes from [j] on are still NULL. *)
Definition planes_null (j : nat) (d : AVSubtitleRect) : Prop :=
  forall k, (j <= k < 4)%nat -> data d !! k = Some None.

(** The array is allocated and [num_rects] counts its entries [l]. *)
Definition holds (tmp : AVSubtitle) (l : list AVSubtitleRect) : Prop :=
  rects tmp = Some l /\ num_rects tmp = Z.of_nat (length l).

End Subtitle.

(** ** Input side of the pipeline, and the world the driver runs in *)

(** [AVPacket], as far as the driver reads it.  [opaque_ref] is [None]
    for a NULL reference and otherwise holds the [dts_est] of the
    [DemuxPktData] it points to. *)
Record AVPacket := {
  pkt_pts : Z;
  pkt_time_base : AVRational;
  pkt_flags : Z;
  stream_index : nat;
  opaque_ref : option Z
}.

(** Modelled from the spec: the packet flag macro of libavcodec/packet.h
    is not part of this translation unit; the heartbeat fires "on a
    keyframe", the lowest flag bit. *)
Definition AV_PKT_FLAG_KEY : Z := 1.

(** One answer of the decoder collaborator [dec_packet]: its return value
    and the frames and decode errors it counted during the call. *)
Record DecAnswer := { dec_ret : Z; dec_frames : Z; dec_errors : Z }.

(** [InputStream].  [decoder] is the script of the answers [dec_packet]
    will give for this stream; a drained decoder answers end-of-file. *)
Record InputStream := {
  ist_file_index : nat;
  ist_index : nat;
  discard : Z;
  decoding_needed : Z;
  dec_codec_type : AVMediaType;
  par_codec_type : AVMediaType;
  nb_filters : nat;
  outputs : list ref;
  frames_decoded : Z;
  decode_errors : Z;
  fix_sub_duration : Z;
  prev_sub : Subtitle.AVSubtitle;
  decoder : list DecAnswer
}.

Record InputFile := {
  if_streams : list InputStream;
  eagain : Z;
  eof_reached : Z;
  recording_time : Z;
  start_time : Z;
  start_time_effective : Z
}.

(** The global options the driver reads. *)
Record Options := {
  copy_ts : Z;
  start_at_zero : Z;
  exit_on_error : Z;
  max_error_rate : Q
}.

(** Calls into collaborators and log lines, in the order they happen. *)
Inductive Event :=
| EvDecPacket (ist : ref) (pkt : option AVPacket) (no_eof : Z) (ret : Z)
| EvSqSendNull (file : nat) (sq_idx : Z)
| EvStreamCopy (ost : ref) (pkt : option AVPacket) (dts_est : Z)
| EvLastFrameDuration (file : nat) (stream_idx : nat)
| EvFlushBuffers (ist : ref)
| EvOutputPacketEof (ost : ref)
| EvSub2VideoHeartbeat (ist : ref) (ifilter : nat) (pts : Z) (tb : AVRational)
| EvProcessSubtitle (ist : ref) (before : InputStream)
    (subtitle : Subtitle.AVSubtitle)
| EvLogErrorRateFatal (ist : ref) (err_rate max : Q)
| EvLogErrorRate (ist : ref) (err_rate : Q)
| EvLogDemuxError (file : nat) (ret : Z)
| EvEncFlush
| EvTermExit
| EvWriteTrailer (file : nat) (err : Z)
| EvPrintReport (is_last_report : Z).

Record World := {
  input_files : list InputFile;
  output_files : list OutputFile;
  mem : Subtitle.heap;
  trace : list Event
}.

Module Driver.

Definition emit (e : Event) (w : World) : World :=
  {| input_files := input_files w; output_files := output_files w;
     mem := mem w; trace := trace w ++ [e] |}.

Definition get_ist (w : World) (r : ref) : option InputStream :=
  match input_files w !! r.1 with
  | Some f => if_streams f !! r.2
  | None => None
  end.

Definition get_ost (w : World) (r : ref) : option OutputStream :=
  match output_files w !! r.1 with
  | Some f => of_streams f !! r.2
  | None => None
  end.

Definition with_streams (f : InputFile) (l : list InputStream) : InputFile :=
  {| if_streams := l; eagain := eagain f; eof_reached := eof_reached f;
     recording_time := recording_time f; start_time := start_time f;
     start_time_effective := start_time_effective f |}.

(** Store through a pointer to an input stream. *)
Definition set_ist (w : World) (r : ref) (s : InputStream) : World :=
  {| input_files :=
       alter (fun f => with_streams f (<[r.2 := s]> (if_streams f))) r.1
             (input_files w);
     output_files := output_files w; mem := mem w; trace := trace w |}.

(** Store through a pointer to an output stream. *)
Definition set_ost (w : World) (r : ref) (o : OutputStream) : World :=
  {| input_files := input_files w;
     output_files :=
       alter (fun f => {| of_streams := <[r.2 := o]> (of_streams f) |}) r.1
             (output_files w);
     mem := mem w; trace := trace w |}.

Definition with_finished (o : OutputStream) (v : Z) : OutputStream :=
  {| ost_file_index := ost_file_index o; ost_index := ost_index o;
     ost_ist := ost_ist o; enc := enc o; filter := filter o;
     last_mux_dts := last_mux_dts o; initialized := initialized o;
     inputs_done := inputs_done o; finished := v;
     unavailable := unavailable o; sq_idx_encode := sq_idx_encode o;
     ost_fix_sub_duration_heartbeat := ost_fix_sub_duration_heartbeat o |}.

Definition with_unavailable (o : OutputStream) (v : Z) : OutputStream :=
  {| ost_file_index := ost_file_index o; ost_index := ost_index o;
     ost_ist := ost_ist o; enc := enc o; filter := filter o;
     last_mux_dts := last_mux_dts o; initialized := initialized o;
     inputs_done := inputs_done o; finished := finished o;
     unavailable := v; sq_idx_encode := sq_idx_encode o;
     ost_fix_sub_duration_heartbeat := ost_fix_sub_duration_heartbeat o |}.

(** [close_output_stream], called on the stream [r] points to.  The sync
    queue is a collaborator: sending the NULL frame is an event. *)
Definition close_output_stream (w : World) (r : ref) : World :=
  match get_ost w r with
  | None => w
  | Some ost =>
      let w1 := set_ost w r
                  (with_finished ost (Z.lor (finished ost) ENCODER_FINISHED)) in
      if 0 <=? sq_idx_encode ost
      then emit (EvSqSendNull (ost_file_index ost) (sq_idx_encode ost)) w1
      else w1
  end.

(** What a drained decoder answers. *)
Definition drained : DecAnswer :=
  {| dec_ret := AVERROR_EOF; dec_frames := 0; dec_errors := 0 |}.

Definition next_answer (s : InputStream) : DecAnswer :=
  match decoder s with
  | [] => drained
  | a :: _ => a
  end.

Definition after_answer (s : InputStream) : InputStream :=
  {| ist_file_index := ist_file_index s; ist_index := ist_index s;
     discard := discard s; decoding_needed := decoding_needed s;
     dec_codec_type := dec_codec_type s; par_codec_type := par_codec_type s;
     nb_filters := nb_filters s; outputs := outputs s;
     frames_decoded :=
       wrapu64 (frames_decoded s + dec_frames (next_answer s));
     decode_errors :=
       wrapu64 (decode_errors s + dec_errors (next_answer s));
     fix_sub_duration := fix_sub_duration s; prev_sub := prev_sub s;
     decoder := tail (decoder s) |}.

(** Modelled from the spec: [dec_packet] is the decoder collaborator of
    another translation unit, "decoding and flushing": it is given the
    packet (or none, to drain), may count frames and decode errors on the
    stream, and signals end-of-file once drained.  Here it plays the next
    answer of the stream's script. *)
Definition dec_packet (w : World) (r : ref) (pkt : option AVPacket)
  (no_eof : Z) : Z * World :=
  match get_ist w r with
  | None => (AVERROR_EOF, w)
  | Some s =>
      (dec_ret (next_answer s),
       emit (EvDecPacket r pkt no_eof (dec_ret (next_answer s)))
            (set_ist w r (after_answer s)))
  end.

Definition is_null {A} (p : option A) : bool :=
  match p with Some _ => false | None => true end.

(** [dts_est] as [process_input_packet] extracts it. *)
Definition dts_est_of (pkt : option AVPacket) : Z :=
  match pkt with
  | Some p => match opaque_ref p with
              | Some d => d
              | None => AV_NOPTS_VALUE
              end
  | None => AV_NOPTS_VALUE
  end.

(** The local [start_time] of [process_input_packet]. *)
Definition limit_start_time (opt : Options) (f : InputFile) : Z :=
  if copy_ts opt =? 0 then 0
  else
    let st := wrap64 (0 + (if start_time f =? AV_NOPTS_VALUE then 0
                           else start_time f)) in
    wrap64 (st + (if start_at_zero opt =? 0 then start_time_effective f
                  else 0)).

Definition duration_exceeded (opt : Options) (f : InputFile) (dts_est : Z)
  : bool :=
  if recording_time f =? INT64_MAX then false
  else wrap64 (recording_time f + limit_start_time opt f) <=? dts_est.

(** The loop over [ist->outputs].  [of_streamcopy] is the muxer
    collaborator of another translation unit: its call is recorded as an
    event, and what it makes of the output stream is outside this
    model. *)
Fixpoint streamcopy_outputs (outs : list ref) (pkt : option AVPacket)
  (no_eof : Z) (exceeded : bool) (dts_est : Z) (w : World) : World :=
  match outs with
  | [] => w
  | o :: rest =>
      match get_ost w o with
      | None => streamcopy_outputs rest pkt no_eof exceeded dts_est w
      | Some ost =>
          if enc ost || (is_null pkt && negb (no_eof =? 0))
          then streamcopy_outputs rest pkt no_eof exceeded dts_est w
          else if exceeded
               then streamcopy_outputs rest pkt no_eof exceeded dts_est
                      (close_output_stream w o)
               else streamcopy_outputs rest pkt no_eof exceeded dts_est
                      (emit (EvStreamCopy o pkt dts_est) w)
      end
  end.

(** [process_input_packet], called with the pointer [ist].  A dangling
    pointer, which the program never holds, returns at once. *)
Definition process_input_packet (opt : Options) (w : World) (ist : ref)
  (pkt : option AVPacket) (no_eof : Z) : Z * World :=
  match get_ist w ist with
  | None => (0, w)
  | Some s =>
      match input_files w !! ist_file_index s with
      | None => (0, w)
      | Some f =>
          let '(ret, w1) :=
            if decoding_needed s =? 0 then (0, w)
            else dec_packet w ist pkt no_eof in
          let eof :=
            (ret =? AVERROR_EOF) || (is_null pkt && (decoding_needed s =? 0)) in
          let dts_est := dts_est_of pkt in
          let exceeded := duration_exceeded opt f dts_est in
          (of_bool (negb eof),
           streamcopy_outputs (outputs s) pkt no_eof exceeded dts_est w1)
      end
  end.

(** The [do ... while (ret > 0)] loop of [decode_flush] on one stream;
    [None] is a loop that has not ended within [fuel] rounds. *)
Fixpoint flush_loop (fuel : nat) (opt : Options) (w : World) (ist : ref)
  : option World :=
  match fuel with
  | O => None
  | S fuel' =>
      let '(ret, w') := process_input_packet opt w ist None 1 in
      if 0 <? ret then flush_loop fuel' opt w' ist else Some w'
  end.

(** What [decode_flush] does for a stream after the loop. *)
Definition after_flush (w : World) (ist : ref) : World :=
  match get_ist w ist with
  | None => w
  | Some s =>
      if decoding_needed s =? 0 then w
      else
        let w1 := if is_audio (par_codec_type s)
                  then emit (EvLastFrameDuration ist.1 ist.2) w
                  else w in
        emit (EvFlushBuffers ist) w1
  end.

(** The loop of [decode_flush] over the stream indices [idxs] of file
    [fi]. *)
Fixpoint decode_flush_streams (fuel : nat) (opt : Options) (fi : nat)
  (idxs : list nat) (w : World) : option World :=
  match idxs with
  | [] => Some w
  | i :: rest =>
      match get_ist w (fi, i) with
      | None => decode_flush_streams fuel opt fi rest w
      | Some s =>
          if discard s =? 0
          then match flush_loop fuel opt w (fi, i) with
               | None => None
               | Some w1 =>
                   decode_flush_streams fuel opt fi rest (after_flush w1 (fi, i))
               end
          else decode_flush_streams fuel opt fi rest w
      end
  end.

Definition nb_streams (w : World) (fi : nat) : nat :=
  match input_files w !! fi with
  | Some f => length (if_streams f)
  | None => O
  end.

(** [decode_flush] *)
Definition decode_flush (fuel : nat) (opt : Options) (w : World) (fi : nat)
  : option World :=
  decode_flush_streams fuel opt fi (seq 0 (nb_streams w fi)) w.

Definition with_eagain (f : InputFile) (v : Z) : InputFile :=
  {| if_streams := if_streams f; eagain := v; eof_reached := eof_reached f;
     recording_time := recording_time f; start_time := start_time f;
     start_time_effective := start_time_effective f |}.

Definition with_eof_reached (f : InputFile) (v : Z) : InputFile :=
  {| if_streams := if_streams f; eagain := eagain f; eof_reached := v;
     recording_time := recording_time f; start_time := start_time f;
     start_time_effective := start_time_effective f |}.

Definition set_file (w : World) (fi : nat) (g : InputFile -> InputFile)
  : World :=
  {| input_files := alter g fi (input_files w);
     output_files := output_files w; mem := mem w; trace := trace w |}.

(** [reset_eagain].  Its second loop runs [ost_iter] over every output
    stream (see [SelectorFacts.choose_loop_all] for the enumeration) and
    is written here as a map. *)
Definition reset_eagain (w : World) : World :=
  {| input_files := map (fun f => with_eagain f 0) (input_files w);
     output_files :=
       map (fun f => {| of_streams :=
                          map (fun o => with_unavailable o 0) (of_streams f) |})
           (output_files w);
     mem := mem w; trace := trace w |}.

(** [sub2video_heartbeat]: the inner loop over the filters of a stream,
    and the loop over the streams. *)
Fixpoint sub2video_filters (ist : ref) (js : list nat) (pts : Z)
  (tb : AVRational) (w : World) : World :=
  match js with
  | [] => w
  | j :: rest =>
      sub2video_filters ist rest pts tb (emit (EvSub2VideoHeartbeat ist j pts tb) w)
  end.

Fixpoint sub2video_streams (fi : nat) (idxs : list nat) (pts : Z)
  (tb : AVRational) (w : World) : World :=
  match idxs with
  | [] => w
  | i :: rest =>
      match get_ist w (fi, i) with
      | None => sub2video_streams fi rest pts tb w
      | Some s =>
          if is_subtitle (dec_codec_type s)
          then sub2video_streams fi rest pts tb
                 (sub2video_filters (fi, i) (seq 0 (nb_filters s)) pts tb w)
          else sub2video_streams fi rest pts tb w
      end
  end.

Definition sub2video_heartbeat (w : World) (fi : nat) (pts : Z)
  (tb : AVRational) : World :=
  sub2video_streams fi (seq 0 (nb_streams w fi)) pts tb w.

(** The inner loop of the end-of-file branch of [process_input].  The
    call of [of_output_packet], the muxer collaborator of another
    translation unit, is recorded as an event; what it makes of the
    output stream is outside this model. *)
Fixpoint finish_outputs (outs : list ref) (w : World) : World :=
  match outs with
  | [] => w
  | o :: rest =>
      finish_outputs rest (emit (EvOutputPacketEof o) (close_output_stream w o))
  end.

(** The loop of the end-of-file branch over the streams of the file; the
    flag is true when the function returned 0 from inside the loop. *)
Fixpoint eof_streams (opt : Options) (fi : nat) (idxs : list nat) (w : World)
  : bool * World :=
  match idxs with
  | [] => (false, w)
  | i :: rest =>
      match get_ist w (fi, i) with
      | None => eof_streams opt fi rest w
      | Some s =>
          let '(ret, w1) :=
            if discard s =? 0 then process_input_packet opt w (fi, i) None 0
            else (0, w) in
          if (discard s =? 0) && (0 <? ret) then (true, w1)
          else eof_streams opt fi rest (finish_outputs (outputs s) w1)
      end
  end.

(** How a call ends: by returning, or in [exit_program]. *)
Inductive outcome :=
| Returned (ret : Z)
| Exited (status : Z).

(** [process_input].  [got] is what the demuxer collaborator
    [ifile_get_packet] gave: its return value and the packet it stored. *)
Definition process_input (fuel : nat) (opt : Options) (w : World)
  (file_index : nat) (got : Z * option AVPacket) : option (outcome * World) :=
  let ret := got.1 in
  if ret =? AVERROR_EAGAIN
  then Some (Returned ret, set_file w file_index (fun f => with_eagain f 1))
  else if ret =? 1
  then match decode_flush fuel opt w file_index with
       | None => None
       | Some w' => Some (Returned AVERROR_EAGAIN, w')
       end
  else if ret <? 0
  then
    let w0 := if ret =? AVERROR_EOF then w
              else emit (EvLogDemuxError file_index ret) w in
    if negb (ret =? AVERROR_EOF) && negb (exit_on_error opt =? 0)
    then Some (Exited 1, w0)
    else
      let '(early, w1) :=
        eof_streams opt file_index (seq 0 (nb_streams w0 file_index)) w0 in
      if early then Some (Returned 0, w1)
      else Some (Returned AVERROR_EAGAIN,
                 set_file w1 file_index (fun f => with_eof_reached f 1))
  else
    let w1 := reset_eagain w in
    match got.2 with
    | None => Some (Returned 0, w1)
    | Some pkt =>
        let w2 := sub2video_heartbeat w1 file_index (pkt_pts pkt)
                    (pkt_time_base pkt) in
        Some (Returned 0,
              snd (process_input_packet opt w2 (file_index, stream_index pkt)
                     (Some pkt) 0))
    end.

(** A stream on which [close_output_stream] has run. *)
Definition closed (o : OutputStream) : OutputStream :=
  with_finished o (Z.lor (finished o) ENCODER_FINISHED).

Definition encoder_finished (o : OutputStream) : Prop :=
  Z.land (finished o) ENCODER_FINISHED = ENCODER_FINISHED.

Definition is_streamcopy (e : Event) : bool :=
  match e with EvStreamCopy _ _ _ => true | _ => false end.

(** The packet is handed to a collaborator: decoded, muxed, or used for a
    heartbeat. *)
Definition carries_packet (e : Event) : bool :=
  match e with
  | EvDecPacket _ (Some _) _ _ => true
  | EvStreamCopy _ _ _ => true
  | EvSub2VideoHeartbeat _ _ _ _ => true
  | EvProcessSubtitle _ _ _ => true
  | _ => false
  end.

(** A sample pipeline: one input file limited to three seconds with a
    video stream, decoded and also copied, and a subtitle stream; one
    output file with a stream-copy output in a sync queue, an encoded
    output and an encoded subtitle output. *)
Definition sample_options : Options :=
  {| copy_ts := 0; start_at_zero := 0; exit_on_error := 0;
     max_error_rate := 1 # 2 |}.

Definition sample_video : InputStream :=
  {| ist_file_index := 0; ist_index := 0; discard := 0; decoding_needed := 1;
     dec_codec_type := AVMEDIA_TYPE_VIDEO; par_codec_type := AVMEDIA_TYPE_VIDEO;
     nb_filters := 1; outputs := [(0, 0); (0, 1)]%nat;
     frames_decoded := 4; decode_errors := 6; fix_sub_duration := 0;
     prev_sub := Subtitle.empty_subtitle;
     decoder := [ {| dec_ret := 0; dec_frames := 1; dec_errors := 0 |};
                  {| dec_ret := 0; dec_frames := 0; dec_errors := 1 |};
                  {| dec_ret := AVERROR_EOF; dec_frames := 0; dec_errors := 0 |} ] |}.

Definition sample_subtitles : InputStream :=
  {| ist_file_index := 0; ist_index := 1; discard := 0; decoding_needed := 1;
     dec_codec_type := AVMEDIA_TYPE_SUBTITLE;
     par_codec_type := AVMEDIA_TYPE_SUBTITLE;
     nb_filters := 0; outputs := [];
     frames_decoded := 0; decode_errors := 0; fix_sub_duration := 1;
     prev_sub := Subtitle.subtitle_of [Subtitle.text_rect] 1000000;
     decoder := [] |}.

Definition sample_copy_out : OutputStream :=
  {| ost_file_index := 0; ost_index := 0; ost_ist := Some (0, 0)%nat;
     enc := false; filter := None; last_mux_dts := 2900000;
     initialized := 1; inputs_done := 0; finished := 0; unavailable := 0;
     sq_idx_encode := 0; ost_fix_sub_duration_heartbeat := 1 |}.

Definition sample_encoded_out : OutputStream :=
  {| ost_file_index := 0; ost_index := 1; ost_ist := Some (0, 0)%nat;
     enc := true; filter := Some {| last_pts := 2800000 |};
     last_mux_dts := 2700000;
     initialized := 1; inputs_done := 0; finished := 0; unavailable := 0;
     sq_idx_encode := -1; ost_fix_sub_duration_heartbeat := 0 |}.

Definition sample_subtitle_out : OutputStream :=
  {| ost_file_index := 0; ost_index := 2; ost_ist := Some (0, 1)%nat;
     enc := true; filter := None; last_mux_dts := 1000000;
     initialized := 1; inputs_done := 0; finished := 0; unavailable := 0;
     sq_idx_encode := -1; ost_fix_sub_duration_heartbeat := 0 |}.

Definition sample_world : World :=
  {| input_files :=
       [ {| if_streams := [sample_video; sample_subtitles];
            eagain := 0; eof_reached := 0; recording_time := 3000000;
            start_time := AV_NOPTS_VALUE; start_time_effective := 0 |} ];
     output_files :=
       [ {| of_streams := [sample_copy_out; sample_encoded_out;
                           sample_subtitle_out] |} ];
     mem := Subtitle.fresh_heap;
     trace := [] |}.

(** A key packet of the video stream whose [dts_est] is three seconds. *)
Definition sample_packet : AVPacket :=
  {| pkt_pts := 3000000; pkt_time_base := {| num := 1; den := 1000000 |};
     pkt_flags := AV_PKT_FLAG_KEY; stream_index := 0;
     opaque_ref := Some 3000000 |}.

(** [w'] continues the trace of [w] with events that all satisfy [P]. *)
Definition extends_by (P : Event -> Prop) (w w' : World) : Prop :=
  exists evs, trace w' = trace w ++ evs /\ Forall P evs.

(** [w'] is [w] with the stream at [r] replaced by [s']. *)
Definition updated (w w' : World) (r : ref) (s' : InputStream) : Prop :=
  forall r', get_ist w' r' =
             (fun x => if decide (r' = r) then s' else x) <$> get_ist w r'.

(** Every input stream records the file it belongs to. *)
Definition wired (w : World) : Prop :=
  forall fi i s, get_ist w (fi, i) = Some s -> ist_file_index s = fi.

(** The calls [decode_flush] makes to the decoder of a stream whose
    script is [script]: null packets until the first end-of-file answer. *)
Fixpoint flush_events (r : ref) (script : list DecAnswer) : list Event :=
  match script with
  | [] => [EvDecPacket r None 1 AVERROR_EOF]
  | a :: rest =>
      EvDecPacket r None 1 (dec_ret a)
      :: (if dec_ret a =? AVERROR_EOF then [] else flush_events r rest)
  end.

(** The stream after those calls. *)
Fixpoint drain (script : list DecAnswer) (s : InputStream) : InputStream :=
  match script with
  | [] => after_answer s
  | a :: rest =>
      if dec_ret a =? AVERROR_EOF then after_answer s
      else drain rest (after_answer s)
  end.

(** Everything [decode_flush] asks of the collaborators for one stream. *)
Definition stream_flush_events (r : ref) (s : InputStream) : list Event :=
  if discard s =? 0
  then if decoding_needed s =? 0 then []
       else flush_events r (decoder s)
            ++ (if is_audio (par_codec_type s)
                then [EvLastFrameDuration r.1 r.2] else [])
            ++ [EvFlushBuffers r]
  else [].

Definition file_flush_events (w : World) (fi : nat) (idxs : list nat)
  : list Event :=
  concat (map (fun i => match get_ist w (fi, i) with
                        | Some s => stream_flush_events (fi, i) s
                        | None => []
                        end) idxs).

End Driver.

(** ** The fix-sub-duration heartbeat *)

Module Heartbeat.

Import Driver.

Definition AV_TIME_BASE_Q : AVRational := {| num := 1; den := 1000000 |}.

Definition with_pts (sub : Subtitle.AVSubtitle) (v : Z) : Subtitle.AVSubtitle :=
  {| Subtitle.format := Subtitle.format sub;
     Subtitle.start_display_time := Subtitle.start_display_time sub;
     Subtitle.end_display_time := Subtitle.end_display_time sub;
     Subtitle.num_rects := Subtitle.num_rects sub;
     Subtitle.rects := Subtitle.rects sub;
     Subtitle.pts := v |}.

Definition with_mem (w : World) (hp : Subtitle.heap) : World :=
  {| input_files := input_files w; output_files := output_files w;
     mem := hp; trace := trace w |}.

(** What [fix_sub_duration_heartbeat] hands on has passed its guard. *)
Definition passed (ist : ref) (signal_pts : Z) (e : Event) : Prop :=
  exists before subtitle,
    e = EvProcessSubtitle ist before subtitle /\
    fix_sub_duration before <> 0 /\
    Subtitle.num_rects (prev_sub before) <> 0 /\
    Subtitle.pts subtitle = signal_pts /\
    Subtitle.pts (prev_sub before) < signal_pts.

Section Collaborators.

(** The two collaborators of the heartbeat live in other translation
    units: the rescaling of a timestamp between time bases, and the
    subtitle processing, which returns a status and may change the stream
    it is given (it keeps the subtitle as the new previous one); what it
    sends on to the outputs of that stream is outside this model. *)
Variable av_rescale_q : Z -> AVRational -> AVRational -> Z.
Variable process_subtitle :
  InputStream -> Subtitle.AVSubtitle -> Z * InputStream.

(** [fix_sub_duration_heartbeat] *)
Definition fix_sub_duration_heartbeat (w : World) (ist : ref) (signal_pts : Z)
  : Z * World :=
  match get_ist w ist with
  | None => (0, w)
  | Some s =>
      let prev_subtitle := prev_sub s in
      if (fix_sub_duration s =? 0)
         || (Subtitle.num_rects prev_subtitle =? 0)
         || (signal_pts <=? Subtitle.pts prev_subtitle)
      then (0, w)
      else
        let '(ret, subtitle, hp) :=
          Subtitle.copy_av_subtitle Subtitle.empty_subtitle prev_subtitle
            (mem w) in
        if ret <? 0 then (ret, with_mem w hp)
        else
          let subtitle' := with_pts subtitle signal_pts in
          let '(ret', s') := process_subtitle s subtitle' in
          (ret',
           emit (EvProcessSubtitle ist s subtitle')
                (set_ist (with_mem w hp) ist s'))
  end.

(** The loop of [trigger_fix_sub_duration_heartbeat] over the streams
    [idxs] of the output file [fi]; [ost] points to the stream that
    caused the heartbeat. *)
Fixpoint heartbeat_streams (w : World) (ost : ref) (fi : nat)
  (idxs : list nat) (signal_pts : Z) : Z * World :=
  match idxs with
  | [] => (0, w)
  | i :: rest =>
      let skip := heartbeat_streams w ost fi rest signal_pts in
      match get_ost w (fi, i) with
      | None => skip
      | Some iter_ost =>
          match ost_ist iter_ost with
          | None => skip
          | Some ist =>
              match get_ist w ist with
              | None => skip
              | Some s =>
                  if bool_decide ((fi, i) = ost)
                     || (decoding_needed s =? 0)
                     || negb (is_subtitle (dec_codec_type s))
                  then skip
                  else
                    let '(ret, w1) :=
                      fix_sub_duration_heartbeat w ist signal_pts in
                    if ret <? 0 then (ret, w1)
                    else heartbeat_streams w1 ost fi rest signal_pts
              end
          end
      end
  end.

Definition nb_ostreams (w : World) (fi : nat) : nat :=
  match output_files w !! fi with
  | Some f => length (of_streams f)
  | None => O
  end.

(** [trigger_fix_sub_duration_heartbeat] *)
Definition trigger_fix_sub_duration_heartbeat (w : World) (ost : ref)
  (pkt : AVPacket) : Z * World :=
  match get_ost w ost with
  | None => (0, w)
  | Some o =>
      let signal_pts :=
        av_rescale_q (pkt_pts pkt) (pkt_time_base pkt) AV_TIME_BASE_Q in
      if (ost_fix_sub_duration_heartbeat o =? 0)
         || (Z.land (pkt_flags pkt) AV_PKT_FLAG_KEY =? 0)
      then (0, w)
      else heartbeat_streams w ost (ost_file_index o)
             (seq 0 (nb_ostreams w (ost_file_index o))) signal_pts
  end.

(** The guard a re-emitted subtitle has passed: the packet is a key
    frame, the stream had fix-sub-duration enabled and a previous subtitle
    with at least one rectangle, and the subtitle carries the rescaled pts
    of the packet, strictly after that of the previous subtitle. *)
Definition guarded (pkt : AVPacket) (e : Event) : Prop :=
  exists ist before subtitle,
    e = EvProcessSubtitle ist before subtitle /\
    Z.land (pkt_flags pkt) AV_PKT_FLAG_KEY <> 0 /\
    fix_sub_duration before <> 0 /\
    Subtitle.num_rects (prev_sub before) <> 0 /\
    Subtitle.pts subtitle =
      av_rescale_q (pkt_pts pkt) (pkt_time_base pkt) AV_TIME_BASE_Q /\
    Subtitle.pts (prev_sub before) < Subtitle.pts subtitle.

(** The guard of [fix_sub_duration_heartbeat] fails for a stream. *)
Definition quiet (s : InputStream) (signal_pts : Z) : Prop :=
  fix_sub_duration s = 0 \/ Subtitle.num_rects (prev_sub s) = 0 \/
  signal_pts <= Subtitle.pts (prev_sub s).

End Collaborators.

(** Stand-ins for the collaborators, to run the heartbeat on the sample
    pipeline: an exact rescaling that rounds down, and a subtitle
    processing that keeps the subtitle as the previous one. *)
Definition rescale_floor (a : Z) (bq cq : AVRational) : Z :=
  a * num bq * den cq / (den bq * num cq).

Definition keep_subtitle (s : InputStream) (sub : Subtitle.AVSubtitle)
  : Z * InputStream :=
  (0,
   {| ist_file_index := ist_file_index s; ist_index := ist_index s;
      discard := discard s; decoding_needed := decoding_needed s;
      dec_codec_type := dec_codec_type s; par_codec_type := par_codec_type s;
      nb_filters := nb_filters s; outputs := outputs s;
      frames_decoded := frames_decoded s; decode_errors := decode_errors s;
      fix_sub_duration := fix_sub_duration s; prev_sub := sub;
      decoder := decoder s |}).

End Heartbeat.

(** ** Traversal of the output streams and the retry valve *)

Module Traversal.

Import Selector Driver.

(** The loop [for (ost = ost_iter(NULL); ost; ost = ost_iter(ost))]: the
    streams it visits, in order.  [None] is a loop that has not ended
    within [fuel] iterations. *)
Fixpoint ost_walk (fuel : nat) (output_files : list OutputFile)
  (cur : option OutputStream) : option (list OutputStream) :=
  match cur with
  | None => Some []
  | Some ost =>
      match fuel with
      | O => None
      | S fuel' =>
          match ost_walk fuel' output_files (ost_iter output_files (Some ost)) with
          | Some l => Some (ost :: l)
          | None => None
          end
      end
  end.

(** [ost_iter] returning the pointer to the stream it finds, for the
    loops that store through it. *)
Fixpoint ost_scan_at (files : list OutputFile) (of_idx ost_idx : nat)
  : option ref :=
  match files with
  | [] => None
  | f :: files' =>
      if decide (ost_idx < length (of_streams f))%nat
      then Some (of_idx, ost_idx)
      else ost_scan_at files' (S of_idx) 0
  end.

Definition ost_iter_at (w : World) (prev : option ref) : option ref :=
  match prev with
  | None => ost_scan_at (output_files w) 0 0
  | Some p =>
      match get_ost w p with
      | Some o =>
          ost_scan_at (drop (ost_file_index o) (output_files w))
                      (ost_file_index o) (S (ost_index o))
      | None => None
      end
  end.

(** The first loop of [reset_eagain], over the indices of the input
    files. *)
Fixpoint clear_eagain (idxs : list nat) (w : World) : World :=
  match idxs with
  | [] => w
  | i :: rest => clear_eagain rest (set_file w i (fun f => with_eagain f 0))
  end.

(** The second loop of [reset_eagain], run through the iterator. *)
Fixpoint clear_unavailable (fuel : nat) (cur : option ref) (w : World)
  : option World :=
  match cur with
  | None => Some w
  | Some r =>
      match fuel with
      | O => None
      | S fuel' =>
          match get_ost w r with
          | None => Some w
          | Some o =>
              let w' := set_ost w r (with_unavailable o 0) in
              clear_unavailable fuel' (ost_iter_at w' (Some r)) w'
          end
      end
  end.

(** [reset_eagain] with its two loops as the source writes them. *)
Definition reset_eagain_loops (fuel : nat) (w : World) : option World :=
  let w1 := clear_eagain (seq 0 (length (input_files w))) w in
  clear_unavailable fuel (ost_iter_at w1 None) w1.

(** One output file with its first [k] streams made available again. *)
Definition partly_cleared (f : OutputFile) (k : nat) : OutputFile :=
  {| of_streams :=
       map (fun o => with_unavailable o 0) (take k (of_streams f))
       ++ drop k (of_streams f) |}.

Definition cleared (f : OutputFile) : OutputFile :=
  {| of_streams := map (fun o => with_unavailable o 0) (of_streams f) |}.

(** The sample pipeline with the output the selector picks, the
    subtitle stream, marked unavailable, and its input file waiting. *)
Definition stalled_world : World :=
  {| input_files := map (fun f => with_eagain f 1) (input_files sample_world);
     output_files :=
       [ {| of_streams := [sample_copy_out; sample_encoded_out;
                           with_unavailable sample_subtitle_out 1] |} ];
     mem := mem sample_world;
     trace := [] |}.

End Traversal.

(** ** What the input driver keeps and what it hands on *)

Module Dispatch.

Import Driver.

(** The only change to an output stream is that it has been closed. *)
Definition only_closes (w w' : World) : Prop :=
  forall o, get_ost w' o = get_ost w o \/ get_ost w' o = closed <$> get_ost w o.

(** The part of an input file that is not its streams. *)
Definition file_flags (f : InputFile) : Z * Z * Z * Z * Z :=
  (eagain f, eof_reached f, recording_time f, start_time f,
   start_time_effective f).

(** The static wiring of an input stream. *)
Definition wiring (s : InputStream)
  : nat * nat * Z * Z * AVMediaType * AVMediaType * nat * list ref :=
  (ist_file_index s, ist_index s, discard s, decoding_needed s,
   dec_codec_type s, par_codec_type s, nb_filters s, outputs s).

Definition same_wiring (w w' : World) : Prop :=
  forall r, wiring <$> get_ist w' r = wiring <$> get_ist w r.

(** The outputs of a stream that take its packets as they are. *)
Definition copy_targets (w : World) (outs : list ref) : list ref :=
  List.filter (fun o => match get_ost w o with
                        | Some ost => negb (enc ost)
                        | None => false
                        end) outs.

(** The heartbeats [sub2video_heartbeat] sends for the streams [idxs] of
    file [fi]. *)
Definition heartbeat_events (w : World) (fi : nat) (idxs : list nat)
  (pts : Z) (tb : AVRational) : list Event :=
  concat (map (fun i =>
                 match get_ist w (fi, i) with
                 | Some s =>
                     if is_subtitle (dec_codec_type s)
                     then map (fun j => EvSub2VideoHeartbeat (fi, i) j pts tb)
                              (seq 0 (nb_filters s))
                     else []
                 | None => []
                 end) idxs).

Definition with_trace (w : World) (t : list Event) : World :=
  {| input_files := input_files w; output_files := output_files w;
     mem := mem w; trace := t |}.

(** The sample packet half a second before the limit. *)
Definition early_packet : AVPacket :=
  {| pkt_pts := 2500000; pkt_time_base := {| num := 1; den := 1000000 |};
     pkt_flags := 0; stream_index := 0; opaque_ref := Some 2500000 |}.

(** The output stream at [o] exists and is encoder-finished. *)
Definition is_closed (w : World) (o : ref) : Prop :=
  exists ost, get_ost w o = Some ost /\ encoder_finished ost.

(** An input file at its end, every decoder drained: the sample file with
    the scripts of its decoders used up. *)
Definition drained_world : World :=
  {| input_files :=
       [ {| if_streams :=
              [ {| ist_file_index := 0; ist_index := 0; discard := 0;
                   decoding_needed := 1;
                   dec_codec_type := AVMEDIA_TYPE_VIDEO;
                   par_codec_type := AVMEDIA_TYPE_VIDEO;
                   nb_filters := 1; outputs := [(0, 0); (0, 1)]%nat;
                   frames_decoded := 4; decode_errors := 6;
                   fix_sub_duration := 0;
                   prev_sub := Subtitle.empty_subtitle; decoder := [] |};
                sample_subtitles ];
            eagain := 0; eof_reached := 0; recording_time := INT64_MAX;
            start_time := AV_NOPTS_VALUE; start_time_effective := 0 |} ];
     output_files := output_files sample_world;
     mem := Subtitle.fresh_heap;
     trace := [] |}.

Definition is_heartbeat (e : Event) : bool :=
  match e with EvSub2VideoHeartbeat _ _ _ _ => true | _ => false end.

End Dispatch.

(** ** One step of the scheduler *)

Module Scheduler.

Import Selector Driver.

(** How [transcode_step] ends: by returning, in [exit_program], or in the
    [abort] of a failed [av_assert0]. *)
Inductive result :=
| Done (ret : Z)
| ExitProgram (status : Z)
| Abort.

(** [ost->unavailable = 1], through the pointer [o]. *)
Definition mark_unavailable (w : World) (o : ref) : World :=
  match get_ost w o with
  | Some ost => set_ost w o (with_unavailable ost 1)
  | None => w
  end.

(** The same store, seen on a stream that records its slot. *)
Definition marked (o : ref) (x : OutputStream) : OutputStream :=
  if decide ((ost_file_index x, ost_index x) = o)
  then with_unavailable x 1 else x.

Section Collaborators.

(** The filter graph of the stream, the filter outputs and the demuxer
    are other translation units: [fg_transcode_step] gives its return
    value and the input stream it stores through [best_ist] ([None] for
    NULL), [reap_filters] its return value, and [ifile_get_packet] its
    return value and the packet. *)
Variable fg_transcode_step : World -> ref -> Z * option ref * World.
Variable reap_filters : World -> Z * World.
Variable ifile_get_packet : World -> nat -> Z * option AVPacket.

(** The first part of [transcode_step]: the input stream the step goes
    on to read from, and the world it has then reached; [None] where the
    step ends before it reads. *)
Definition step_input (w : World) (o : ref) : option (ref * World) :=
  match get_ost w o with
  | None => None
  | Some ost =>
      match filter ost with
      | Some _ =>
          let '(ret, ist, w1) := fg_transcode_step w o in
          if ret <? 0 then None
          else match ist with
               | None => None
               | Some i => Some (i, w1)
               end
      | None =>
          match ost_ist ost with
          | None => None
          | Some i => Some (i, w)
          end
      end
  end.

(** [transcode_step], called with the pointer [o].  A dangling pointer,
    which the program never holds, returns at once. *)
Definition transcode_step (fuel : nat) (opt : Options) (w : World) (o : ref)
  : option (result * World) :=
  match get_ost w o with
  | None => Some (Done 0, w)
  | Some ost =>
      let pick : (result * World) + (ref * World) :=
        match filter ost with
        | Some _ =>
            let '(ret, ist, w1) := fg_transcode_step w o in
            if ret <? 0 then inl (Done ret, w1)
            else match ist with
                 | None => inl (Done 0, w1)
                 | Some i => inr (i, w1)
                 end
        | None =>
            match ost_ist ost with
            | None => inl (Abort, w)
            | Some i => inr (i, w)
            end
        end in
      match pick with
      | inl r => Some r
      | inr (i, w1) =>
          match get_ist w1 i with
          | None => Some (Done 0, w1)
          | Some s =>
              let fi := ist_file_index s in
              match process_input fuel opt w1 fi (ifile_get_packet w1 fi) with
              | None => None
              | Some (Exited status, w2) => Some (ExitProgram status, w2)
              | Some (Returned ret, w2) =>
                  if ret =? AVERROR_EAGAIN
                  then
                    match input_files w2 !! fi with
                    | Some f =>
                        if eagain f =? 0 then Some (Done 0, w2)
                        else Some (Done 0, mark_unavailable w2 o)
                    | None => Some (Done 0, w2)
                    end
                  else if ret <? 0
                       then Some (Done (if ret =? AVERROR_EOF then 0 else ret),
                                  w2)
                       else let '(r, w3) := reap_filters w2 in
                            Some (Done r, w3)
              end
          end
      end
  end.

End Collaborators.

(** Collaborators for a pipeline without filter graphs whose demuxer has
    nothing to deliver yet. *)
Definition no_graph (w : World) (o : ref) : Z * option ref * World :=
  (0, None, w).

Definition nothing_to_reap (w : World) : Z * World := (0, w).

Definition starved (w : World) (fi : nat) : Z * option AVPacket :=
  (AVERROR_EAGAIN, None).

(** A demuxer that delivers the early packet, and filter outputs that
    fail with [AVERROR(EINVAL)]. *)
Definition delivers (w : World) (fi : nat) : Z * option AVPacket :=
  (0, Some Dispatch.early_packet).

Definition reap_fails (w : World) : Z * World := (-22, w).

(** A demuxer that reports that its file has looped. *)
Definition looped (w : World) (fi : nat) : Z * option AVPacket := (1, None).

End Scheduler.

(** ** The progress report *)

Module Report.

Import CInt Selector Traversal.

(** Modelled from the spec: [AV_TIME_BASE] is a macro of
    libavutil/avutil.h, not part of this translation unit: the reported
    time is in microseconds ("out_time_us"), a million to the second. *)
Definition AV_TIME_BASE : Z := 1000000.

(** Modelled from the spec: [FFMAX] and [FFABS] are macros of libavutil,
    not part of this translation unit: the maximum in
    "pts = max(last_mux_dts)", written [((a) > (b) ? (a) : (b))], and the
    absolute value [((a) >= 0 ? (a) : (-(a)))], here on an [int64_t]. *)
Definition FFMAX (a b : Z) : Z := if b <? a then a else b.

Definition FFABS (a : Z) : Z := if 0 <=? a then a else wrap64 (- a).

(** The part of the loop body of [print_report] that computes [pts]; the
    state is [pts] and the static [copy_ts_first_pts]. *)
Definition pts_step (copy_ts : Z) (st : Z * Z) (ost : OutputStream) : Z * Z :=
  let '(pts, first_pts) := st in
  if last_mux_dts ost =? AV_NOPTS_VALUE then (pts, first_pts)
  else
    let pts1 := FFMAX pts (last_mux_dts ost) in
    if copy_ts =? 0 then (pts1, first_pts)
    else
      let first1 := if (first_pts =? AV_NOPTS_VALUE) && (1 <? pts1)
                    then pts1 else first_pts in
      if first1 =? AV_NOPTS_VALUE then (pts1, first1)
      else (wrap64 (pts1 - first1), first1).

(** [pts] and [copy_ts_first_pts] when the loop of [print_report] ends.
    The loop runs [ost_iter] over every output stream (see
    [TraversalFacts.ost_iter_visits_all]); [streams] are the streams in
    that order. *)
Definition report_pts (copy_ts first_pts : Z) (streams : list OutputStream)
  : Z * Z :=
  fold_left (pts_step copy_ts) streams (INT64_MIN + 1, first_pts).

(** The fields of the time the report prints. *)
Record clock := {
  hours : Z;
  mins : Z;
  secs : Z;
  us : Z;
  hours_sign : string
}.

(** The locals [secs], [us], [mins], [hours] (all [int]) and
    [hours_sign] of [print_report], as computed from [pts]. *)
Definition clock_of (pts : Z) : clock :=
  let secs0 := wrap32 (Z.quot (FFABS pts) AV_TIME_BASE) in
  let us0 := wrap32 (Z.rem (FFABS pts) AV_TIME_BASE) in
  let mins0 := Z.quot secs0 60 in
  {| hours := Z.quot mins0 60;
     mins := Z.rem mins0 60;
     secs := Z.rem secs0 60;
     us := us0;
     hours_sign := if pts <? 0 then "-"%string else ""%string |}.

(** The last field of the time on the status line:
    [(100 * us) / AV_TIME_BASE]. *)
Definition centis (c : clock) : Z := Z.quot (wrap32 (100 * us c)) AV_TIME_BASE.

(** A stream that has muxed a packet with a timestamp. *)
Definition known (ost : OutputStream) : Prop := last_mux_dts ost <> AV_NOPTS_VALUE.

(** The statics [last_time] and [first_report] of [print_report]. *)
Record gate := {
  last_time : Z;
  first_report : Z
}.

Definition initial_gate : gate := {| last_time := -1; first_report := 1 |}.

(** Modelled from the spec: the options and counters the reporter
    consults are declared in ffmpeg.h, not part of this translation unit:
    [print_stats], the "optional progress sink" [progress_avio] (true
    when there is one), the period [stats_period] in microseconds, and
    the number of output files, which like [nb_output_dumped] is a count
    and never negative. *)
Record settings := {
  print_stats : Z;
  progress_avio : bool;
  stats_period : Z;
  nb_output_files : Z
}.

(** [print_report] as far as it decides whether a report is made: the
    result says whether the function went on to assemble and emit the
    report, in which case it ends by clearing [first_report].
    [nb_output_dumped] is the counter as the call finds it. *)
Definition report_gate (cfg : settings) (g : gate)
  (is_last_report cur_time nb_output_dumped : Z) : bool * gate :=
  if (print_stats cfg =? 0) && (is_last_report =? 0)
     && negb (progress_avio cfg)
  then (false, g)
  else
    if is_last_report =? 0
    then
      let g0 := if last_time g =? -1
                then {| last_time := cur_time; first_report := first_report g |}
                else g in
      if ((wrap64 (cur_time - last_time g0) <? stats_period cfg)
          && (first_report g0 =? 0))
         || (negb (first_report g0 =? 0)
             && (nb_output_dumped <? nb_output_files cfg))
      then (false, g0)
      else (true, {| last_time := cur_time; first_report := 0 |})
    else (true, {| last_time := last_time g; first_report := 0 |}).

(** The times at which a sequence of calls from the scheduling loop
    (none of them the last report) makes a report; a call is its
    [cur_time] and the [nb_output_dumped] it finds. *)
Fixpoint run_reports (cfg : settings) (g : gate) (calls : list (Z * Z))
  : list Z :=
  match calls with
  | [] => []
  | (cur_time, dumped) :: rest =>
      let '(made, g') := report_gate cfg g 0 cur_time dumped in
      if made then cur_time :: run_reports cfg g' rest
      else run_reports cfg g' rest
  end.

(** Each time is at least [period] after the one before it. *)
Fixpoint spaced (period : Z) (prev : option Z) (times : list Z) : Prop :=
  match times with
  | [] => True
  | b :: rest =>
      match prev with Some a => period <= b - a | None => True end
      /\ spaced period (Some b) rest
  end.

Definition half_second : settings :=
  {| print_stats := 1; progress_avio := false; stats_period := 500000;
     nb_output_files := 1 |}.

(** What a call of [print_report] finds besides the output streams: the
    options, its statics, [copy_ts_first_pts], the time [cur_time] it is
    given and the counter [nb_output_dumped]. *)
Record reporter := {
  rep_settings : settings;
  rep_gate : gate;
  rep_first_pts : Z;
  rep_time : Z;
  rep_dumped : Z
}.

(** What the call leaves: whether a report was made, the statics,
    [copy_ts_first_pts], and the [pts] the report shows. *)
Record shown := {
  made : bool;
  gate_after : gate;
  first_pts_after : Z;
  shown_pts : Z
}.

(** [print_report]: the tests that decide whether a report is made, and
    for a report that is made the loop that runs [ost_iter] over the
    output streams.  [None] is a loop that has not ended within [fuel]
    iterations. *)
Definition print_report (fuel : nat) (copy_ts : Z) (rep : reporter)
  (is_last_report : Z) (output_files : list OutputFile) : option shown :=
  let '(go, g) :=
    report_gate (rep_settings rep) (rep_gate rep) is_last_report
                (rep_time rep) (rep_dumped rep) in
  if go
  then
    match ost_walk fuel output_files (ost_iter output_files None) with
    | None => None
    | Some streams =>
        let '(pts, first_pts) :=
          report_pts copy_ts (rep_first_pts rep) streams in
        Some {| made := true; gate_after := g; first_pts_after := first_pts;
                shown_pts := pts |}
    end
  else Some {| made := false; gate_after := g;
               first_pts_after := rep_first_pts rep;
               shown_pts := INT64_MIN + 1 |}.

(** The first call of a run that reports every half second. *)
Definition first_call : reporter :=
  {| rep_settings := half_second; rep_gate := initial_gate;
     rep_first_pts := AV_NOPTS_VALUE; rep_time := 0; rep_dumped := 0 |}.

End Report.

(** ** Who receives a heartbeat *)

Module Reemit.

Import Driver.

(** What [trigger_fix_sub_duration_heartbeat] hands on goes to the input
    of another stream of the same output file, decoded by a subtitle
    decoder. *)
Definition targeted (w : World) (ost : ref) (fi : nat) (e : Event) : Prop :=
  exists (i : nat) io ist before subtitle,
    e = EvProcessSubtitle ist before subtitle /\ (fi, i) <> ost /\
    get_ost w (fi, i) = Some io /\ ost_ist io = Some ist /\
    decoding_needed before <> 0 /\
    dec_codec_type before = AVMEDIA_TYPE_SUBTITLE.

End Reemit.

(** ** The terminal *)

Module Terminal.

Import Signal.

(** How a signal is disposed of once [term_init] has run. *)
Inductive disposition :=
| Handler
| Ignore.

(** The signal numbers, as Linux has them. *)
Definition SIGINT : Z := 2.
Definition SIGQUIT : Z := 3.
Definition SIGPIPE : Z := 13.
Definition SIGTERM : Z := 15.
Definition SIGXCPU : Z := 24.

Section Tty.

(** The attributes are opaque: [raw] is what the assignments to the flag
    words and control characters make of them. *)
Variable raw : termios -> termios.

(** [term_init] on a system with termios.  [tcgetattr_ret] is the return
    value of [tcgetattr (0, &tty)]; the result is the variables and the
    dispositions installed, in order. *)
Definition term_init (stdin_interaction : Z) (tcgetattr_ret : Z) (s : state)
  : state * list (Z * disposition) :=
  let s1 :=
    if stdin_interaction =? 0 then s
    else if tcgetattr_ret =? 0
         then {| received_sigterm := received_sigterm s;
                 received_nb_signals := received_nb_signals s;
                 transcode_init_done := transcode_init_done s;
                 restore_tty := true;
                 oldtty := tty s;
                 tty := raw (tty s);
                 stderr_out := stderr_out s;
                 exited := exited s |}
         else s in
  (s1,
   (if stdin_interaction =? 0 then [] else [(SIGQUIT, Handler)])
   ++ [(SIGINT, Handler); (SIGTERM, Handler); (SIGXCPU, Handler);
       (SIGPIPE, Ignore)]).

End Tty.

(** [term_exit]: the log call prints nothing. *)
Definition term_exit (s : state) : state := term_exit_sigsafe s.

(** [transcode] has stored 1 to [transcode_init_done]. *)
Definition init_done (s : state) : state :=
  {| received_sigterm := received_sigterm s;
     received_nb_signals := received_nb_signals s;
     transcode_init_done := 1;
     restore_tty := restore_tty s;
     oldtty := oldtty s;
     tty := tty s;
     stderr_out := stderr_out s;
     exited := exited s |}.

(** A stand-in for the raw mode. *)
Definition sample_raw (t : termios) : termios := Z.land t 240.

End Terminal.

(** ** The end of [transcode] and the exit of [main] *)

Module Main.

Import Driver.

(** [ist_iter]: the loop over the files, entered at file [if_idx] (the
    list is the array from that file on) and stream [ist_idx]; the result
    points to the stream found. *)
Fixpoint ist_scan (files : list InputFile) (if_idx ist_idx : nat)
  : option ref :=
  match files with
  | [] => None
  | f :: files' =>
      if decide (ist_idx < length (if_streams f))%nat
      then Some (if_idx, ist_idx)
      else ist_scan files' (S if_idx) 0
  end.

Definition ist_iter (w : World) (prev : option ref) : option ref :=
  match prev with
  | None => ist_scan (input_files w) 0 0
  | Some p =>
      match get_ist w p with
      | Some s =>
          ist_scan (drop (ist_file_index s) (input_files w))
                   (ist_file_index s) (S (ist_index s))
      | None => None
      end
  end.

Definition Qlt_bool (a b : Q) : bool := negb (Qle_bool b a).

(** The conversion of an unsigned 64-bit integer to [float]: the nearest
    number with a significand of 24 bits, the even one of two that are
    equally near.  A [float] is modelled by the number it denotes. *)
Definition float_of_uint64 (z : Z) : Z :=
  if z <? 2 ^ 24 then z
  else
    let e := Z.log2 z - 23 in
    let q := Z.shiftr z e in
    let r := z - Z.shiftl q e in
    let half := 2 ^ (e - 1) in
    Z.shiftl (if (half <? r) || ((r =? half) && Z.odd q) then q + 1 else q) e.

(** Modelled from the spec: the declarations of ffmpeg.h are not part of
    this translation unit.  [frames_decoded] and [decode_errors] are the
    "counters" of an InputStream, unsigned 64-bit integers, and
    [max_error_rate] is a [float].  The quotient below is therefore the
    integer division of C, of a sum that wraps at 2^64, converted to
    [float] afterwards.  [None] is the division by zero that a sum
    wrapped to 0 gives: the behaviour is undefined, and on the usual
    targets the process is killed by SIGFPE. *)
Definition err_rate (s : InputStream) : option Q :=
  if negb (frames_decoded s =? 0) || negb (decode_errors s =? 0)
  then
    let sum := wrapu64 (frames_decoded s + decode_errors s) in
    if sum =? 0 then None
    else Some (inject_Z (float_of_uint64 (decode_errors s / sum)))
  else Some 0%Q.

(** How a part of the program ends: it returns, or the process is killed
    in it by the division by zero of [err_rate]. *)
Inductive ending (A : Type) : Type :=
| Ended (a : A)
| Faulted (w : World).

Arguments Ended {A} a.
Arguments Faulted {A} w.

(** The loop over the input streams at the end of [transcode]; [cur] is
    the stream the iterator returned, [exceeded] the value of
    [*err_rate_exceeded].  [None] is a loop that has not ended within
    [fuel] iterations. *)
Fixpoint error_rate_loop (fuel : nat) (opt : Options) (cur : option ref)
  (w : World) (exceeded : Z) : option (ending (Z * World)) :=
  match cur with
  | None => Some (Ended (exceeded, w))
  | Some r =>
      match fuel with
      | O => None
      | S fuel' =>
          match get_ist w r with
          | None => Some (Ended (exceeded, w))
          | Some s =>
              let w1 :=
                match input_files w !! ist_file_index s with
                | Some f =>
                    if eof_reached f =? 0
                    then snd (process_input_packet opt w r None 0)
                    else w
                | None => w
                end in
              match get_ist w1 r with
              | None => Some (Ended (exceeded, w1))
              | Some s1 =>
                  match err_rate s1 with
                  | None => Some (Faulted w1)
                  | Some rate =>
                      let '(exceeded', w2) :=
                        if Qlt_bool (max_error_rate opt) rate
                        then (1, emit (EvLogErrorRateFatal r rate
                                         (max_error_rate opt)) w1)
                        else if negb (Qeq_bool rate 0)
                             then (exceeded, emit (EvLogErrorRate r rate) w1)
                             else (exceeded, w1) in
                      error_rate_loop fuel' opt (ist_iter w2 (Some r)) w2
                                      exceeded'
                  end
              end
          end
      end
  end.

(** What a collaborator leaves of an output stream: any field but the two
    that record the position of the stream, which are written once, when
    the stream is created. *)
Definition keep_position (old new : OutputStream) : OutputStream :=
  {| ost_file_index := ost_file_index old; ost_index := ost_index old;
     ost_ist := ost_ist new; enc := enc new; filter := filter new;
     last_mux_dts := last_mux_dts new; initialized := initialized new;
     inputs_done := inputs_done new; finished := finished new;
     unavailable := unavailable new; sq_idx_encode := sq_idx_encode new;
     ost_fix_sub_duration_heartbeat := ost_fix_sub_duration_heartbeat new |}.

Definition with_outputs (w : World) (ofs : list OutputFile) : World :=
  {| input_files := input_files w; output_files := ofs;
     mem := mem w; trace := trace w |}.

Section Collaborators.

(** Modelled from the spec: [enc_flush] is the "external collaborator"
    of another translation unit that is called "so encoders emit
    trailing frames": it drains every encoder into its muxer.  Here it
    is given by what it makes of each output stream. *)
Variable enc_flush : OutputStream -> OutputStream.

(** The muxer's status for the trailer of each output file, and the rule
    of ffmpeg.h that merges the statuses; neither is part of this
    translation unit. *)
Variable of_write_trailer : nat -> Z.
Variable err_merge : Z -> Z -> Z.

Definition flush_encoders (ofs : list OutputFile) : list OutputFile :=
  map (fun f =>
         {| of_streams :=
              map (fun o => keep_position o (enc_flush o)) (of_streams f) |})
      ofs.

Fixpoint write_trailers (idxs : list nat) (ret : Z) (w : World) : Z * World :=
  match idxs with
  | [] => (ret, w)
  | i :: rest =>
      write_trailers rest (err_merge ret (of_write_trailer i))
                     (emit (EvWriteTrailer i (of_write_trailer i)) w)
  end.

(** [transcode] from the exit of its scheduling loop to its return:
    [ret] and [w] are what the loop leaves, [rep] is what the last call
    of [print_report] finds, and [*err_rate_exceeded] is still the 0
    stored on entry.  The result is the return value,
    [*err_rate_exceeded] and the world; [None] is a loop, over the input
    streams or of the last report over the output streams, that has not
    ended within [fuel] iterations.  Before its scheduling loop
    [transcode] calls [print_stream_maps], which writes the stream
    mapping to the log and stores nothing; it walks the streams with the
    same two iterators, [ist_iter] and [ost_iter]. *)
Definition transcode_end (fuel : nat) (opt : Options) (rep : Report.reporter)
  (ret : Z) (w : World) : option (ending (Z * Z * World)) :=
  match error_rate_loop fuel opt (ist_iter w None) w 0 with
  | None => None
  | Some (Faulted w1) => Some (Faulted w1)
  | Some (Ended (exceeded, w1)) =>
      let w2 :=
        emit EvTermExit
             (emit EvEncFlush
                   (with_outputs w1 (flush_encoders (output_files w1)))) in
      let '(ret', w3) :=
        write_trailers (seq 0 (length (output_files w2))) ret w2 in
      match Report.print_report fuel (copy_ts opt) rep 1 (output_files w3) with
      | None => None
      | Some shown =>
          Some (Ended (ret', exceeded,
                       if Report.made shown then emit (EvPrintReport 1) w3
                       else w3))
      end
  end.

(** [main]: the status passed to [exit_program].  [parse_ret] is what
    [ffmpeg_parse_options] returned, [loop_ret] and [w] what the
    scheduling loop of [transcode] leaves, and [sig] the signal variables
    when the exit status is computed. *)
Definition main (fuel : nat) (opt : Options) (rep : Report.reporter)
  (parse_ret loop_ret : Z) (w : World) (sig : Signal.state)
  : option (ending Z) :=
  if parse_ret <? 0 then Some (Ended 1)
  else
    let nb_output_files := Z.of_nat (length (output_files w)) in
    let nb_input_files := Z.of_nat (length (input_files w)) in
    if (nb_output_files <=? 0) && (nb_input_files =? 0) then Some (Ended 1)
    else if nb_output_files <=? 0 then Some (Ended 1)
    else
      match transcode_end fuel opt rep loop_ret w with
      | None => None
      | Some (Faulted w') => Some (Faulted w')
      | Some (Ended (ret, err_rate_exceeded, _)) =>
          Some (Ended (if negb (Signal.received_nb_signals sig =? 0) then 255
                       else if negb (err_rate_exceeded =? 0) then 69
                       else ret))
      end.


End Collaborators.

(** The sample pipeline at the end of its input: the video stream has
    decoded 4 frames and failed on 6 packets. *)
Definition finished_world : World :=
  {| input_files :=
       [ {| if_streams := [sample_video; sample_subtitles];
            eagain := 0; eof_reached := 1; recording_time := 3000000;
            start_time := AV_NOPTS_VALUE; start_time_effective := 0 |} ];
     output_files := output_files sample_world;
     mem := Subtitle.fresh_heap;
     trace := [] |}.

(** Encoders that end their streams when they are flushed, a muxer that
    writes every trailer, and the merge rule that keeps the first
    failure. *)
Definition flush_ends (o : OutputStream) : OutputStream :=
  if enc o
  then with_finished o (Z.lor (finished o)
                              (Z.lor ENCODER_FINISHED MUXER_FINISHED))
  else o.

Definition trailer_ok (i : nat) : Z := 0.

(** The sample pipeline at the end of its input with counters of the
    video stream whose sum is 2^64. *)
Definition wrapped_world : World :=
  {| input_files :=
       [ {| if_streams :=
              [ {| ist_file_index := 0; ist_index := 0; discard := 0;
                   decoding_needed := 1;
                   dec_codec_type := AVMEDIA_TYPE_VIDEO;
                   par_codec_type := AVMEDIA_TYPE_VIDEO;
                   nb_filters := 1; outputs := [(0, 0); (0, 1)]%nat;
                   frames_decoded := 2 ^ 63; decode_errors := 2 ^ 63;
                   fix_sub_duration := 0;
                   prev_sub := Subtitle.empty_subtitle; decoder := [] |};
                sample_subtitles ];
            eagain := 0; eof_reached := 1; recording_time := 3000000;
            start_time := AV_NOPTS_VALUE; start_time_effective := 0 |} ];
     output_files := output_files sample_world;
     mem := Subtitle.fresh_heap;
     trace := [] |}.

Definition first_error (err0 err1 : Z) : Z :=
  if err0 <? 0 then err0 else Z.min err1 0.

(** The numbers of streams of the input files, which is all the
    iterator depends on, and the scan written over them. *)
Definition shape (w : World) : list nat :=
  map (fun f => length (if_streams f)) (input_files w).

Fixpoint scan_shape (sh : list nat) (if_idx ist_idx : nat) : option ref :=
  match sh with
  | [] => None
  | n :: sh' =>
      if decide (ist_idx < n)%nat then Some (if_idx, ist_idx)
      else scan_shape sh' (S if_idx) 0
  end.

(** The streams still to visit from stream [k] of the first file on. *)
Fixpoint left_to_visit (sh : list nat) (k : nat) : nat :=
  match sh with
  | [] => O
  | n :: sh' => ((n - k) + left_to_visit sh' 0)%nat
  end.

(** Every input stream records the slot it sits in. *)
Definition in_indexed (w : World) : Prop :=
  forall fi i s,
    get_ist w (fi, i) = Some s -> ist_file_index s = fi /\ ist_index s = i.

End Main.

(** ** The end of the run *)

Module Finish.

Import Driver Main.

(** The input streams [ist_iter] returns when it is fed its own result,
    from [cur] on; [None] is a walk that has not ended within [fuel]
    steps. *)
Fixpoint ist_walk (fuel : nat) (w : World) (cur : option ref)
  : option (list ref) :=
  match cur with
  | None => Some []
  | Some r =>
      match fuel with
      | O => None
      | S fuel' => cons r <$> ist_walk fuel' w (ist_iter w (Some r))
      end
  end.

(** The slots of the input streams, file by file, from stream [k] of
    file [fi] on; [sh] are the numbers of streams of the files from [fi]
    on. *)
Fixpoint refs_from (sh : list nat) (fi k : nat) : list ref :=
  match sh with
  | [] => []
  | n :: sh' => map (pair fi) (seq k (n - k)) ++ refs_from sh' (S fi) 0
  end.

Definition all_inputs (w : World) : list ref := refs_from (shape w) 0 0.

(** Every input file has reached its end. *)
Definition at_eof (w : World) : Prop :=
  forall (k : nat) f, input_files w !! k = Some f -> eof_reached f <> 0.

(** The test [err_rate > max_error_rate] on the stream at [r]. *)
Definition rate_exceeded (opt : Options) (w : World) (r : ref) : bool :=
  match get_ist w r with
  | Some s =>
      match err_rate s with
      | Some rate => Qlt_bool (max_error_rate opt) rate
      | None => false
      end
  | None => false
  end.

(** The counters of a stream are counts below 2^64, also once the next
    answer of its decoder is added: their sum does not wrap. *)
Definition fits (s : InputStream) : Prop :=
  0 <= frames_decoded s /\ 0 <= decode_errors s /\
  0 <= dec_frames (next_answer s) /\ 0 <= dec_errors (next_answer s) /\
  frames_decoded s + decode_errors s
  + dec_frames (next_answer s) + dec_errors (next_answer s) < 2 ^ 64.

Definition counters_fit (w : World) : Prop :=
  forall r s, get_ist w r = Some s -> fits s.

(** The numbers of streams of the output files. *)
Definition out_shape (ofs : list OutputFile) : list nat :=
  map (fun f => length (of_streams f)) ofs.

(** The events of the last part of [transcode]. *)
Definition is_finish (e : Event) : bool :=
  match e with
  | EvEncFlush | EvTermExit | EvWriteTrailer _ _ | EvPrintReport _ => true
  | _ => false
  end.

(** A muxer whose second trailer fails with [AVERROR(EIO)], and the
    sample pipeline with three output files. *)
Definition second_fails (i : nat) : Z := if (i =? 1)%nat then -5 else 0.

Definition three_outputs : World :=
  {| input_files := input_files finished_world;
     output_files :=
       output_files finished_world
       ++ [ {| of_streams := [Selector.copy_stream 1 0 900] |};
            {| of_streams := [Selector.copy_stream 2 0 400] |} ];
     mem := mem finished_world;
     trace := [] |}.

(** The sample pipeline at the end of its input with a video stream that
    decoded no frame and failed on 6 packets. *)
Definition failed_video : InputStream :=
  {| ist_file_index := 0; ist_index := 0; discard := 0; decoding_needed := 1;
     dec_codec_type := AVMEDIA_TYPE_VIDEO; par_codec_type := AVMEDIA_TYPE_VIDEO;
     nb_filters := 1; outputs := [(0, 0); (0, 1)]%nat;
     frames_decoded := 0; decode_errors := 6; fix_sub_duration := 0;
     prev_sub := Subtitle.empty_subtitle;
     decoder := [] |}.

Definition failed_world : World :=
  {| input_files :=
       [ {| if_streams := [failed_video; sample_subtitles];
            eagain := 0; eof_reached := 1; recording_time := 3000000;
            start_time := AV_NOPTS_VALUE; start_time_effective := 0 |} ];
     output_files := output_files sample_world;
     mem := Subtitle.fresh_heap;
     trace := [] |}.


End Finish.

(** * Properties *)

(** ** Machine integers *)

Module CIntFacts.

Lemma wrap32_id z : in_int z -> wrap32 z = z.
Proof.
  unfold in_int, INT_MIN, INT_MAX, wrap32. intros H.
  rewrite Z.mod_small; lia.
Qed.

Lemma wrap64_id z : in_int64 z -> wrap64 z = z.
Proof.
  unfold in_int64, INT64_MIN, INT64_MAX, wrap64. intros H.
  rewrite Z.mod_small; lia.
Qed.

Lemma wrapu64_id z : 0 <= z < 2 ^ 64 -> wrapu64 z = z.
Proof. intros H. unfold wrapu64. apply Z.mod_small. exact H. Qed.

Lemma wrap64_range z : in_int64 (wrap64 z).
Proof.
  unfold in_int64, INT64_MIN, INT64_MAX, wrap64.
  pose proof (Z.mod_pos_bound (z + 2 ^ 63) (2 ^ 64)). lia.
Qed.

End CIntFacts.

(** ** Output selector *)

Module SelectorFacts.

Import Selector.

Lemma all_streams_cons f fs :
  all_streams (f :: fs) = of_streams f ++ all_streams fs.
Proof. reflexivity. Qed.

Lemma all_streams_app fs gs :
  all_streams (fs ++ gs) = all_streams fs ++ all_streams gs.
Proof.
  induction fs as [|f fs IH]; [reflexivity|].
  simpl. rewrite !all_streams_cons, IH. apply app_assoc.
Qed.

(** The scan returns the head of what is left of the enumeration. *)
Lemma ost_scan_head fs k :
  ost_scan fs k =
  head (match fs with
        | [] => []
        | f :: fs' => drop k (of_streams f) ++ all_streams fs'
        end).
Proof.
  revert k. induction fs as [|f fs IH]; intros k; [reflexivity|].
  simpl. destruct (of_streams f !! k) as [o|] eqn:E.
  - rewrite (drop_S _ _ _ E). reflexivity.
  - apply lookup_ge_None in E. rewrite drop_ge by exact E. simpl.
    rewrite IH. destruct fs as [|g gs]; [reflexivity|].
    rewrite drop_0. reflexivity.
Qed.

(** Where the head of the remaining enumeration sits. *)
Lemma remaining_head pre f post k o R :
  drop k (of_streams f) ++ all_streams post = o :: R ->
  exists pre' f' post' k',
    pre ++ f :: post = pre' ++ f' :: post' /\
    of_streams f' !! k' = Some o /\
    R = drop (S k') (of_streams f') ++ all_streams post'.
Proof.
  revert pre f k. induction post as [|g post IH]; intros pre f k H.
  - destruct (of_streams f !! k) as [o'|] eqn:E.
    + rewrite (drop_S _ _ _ E) in H. simpl in H. inversion H; subst.
      exists pre, f, [], k. auto.
    + apply lookup_ge_None in E. rewrite drop_ge in H by exact E.
      discriminate H.
  - destruct (of_streams f !! k) as [o'|] eqn:E.
    + rewrite (drop_S _ _ _ E) in H. simpl in H. inversion H; subst.
      exists pre, f, (g :: post), k. auto.
    + apply lookup_ge_None in E. rewrite drop_ge in H by exact E.
      simpl in H. rewrite all_streams_cons in H.
      destruct (IH (pre ++ [f]) g 0%nat) as (pre' & f' & post' & k' & E1 & E2 & E3).
      { rewrite drop_0. exact H. }
      exists pre', f', post', k'. split; [|auto].
      rewrite <- E1, <- app_assoc. reflexivity.
Qed.

Lemma ost_iter_next ofs pre f post k o :
  indexed ofs -> ofs = pre ++ f :: post -> of_streams f !! k = Some o ->
  ost_iter ofs (Some o) = ost_scan (f :: post) (S k).
Proof.
  intros Hix -> Hk. unfold ost_iter.
  destruct (Hix (length pre) f k o) as [-> ->]; [|exact Hk|].
  - rewrite lookup_app_r by lia. rewrite Nat.sub_diag. reflexivity.
  - rewrite drop_app_length. reflexivity.
Qed.

(** With the positions recorded in the streams, the loop of
    [choose_output] is the scan of the enumeration, and it ends within
    one iteration per remaining stream. *)
Lemma choose_loop_select ofs :
  indexed ofs ->
  forall fuel pre f post k m om,
    ofs = pre ++ f :: post ->
    (length (drop k (of_streams f) ++ all_streams post) < fuel)%nat ->
    choose_loop fuel ofs (ost_scan (f :: post) k) m om =
    Some (select (drop k (of_streams f) ++ all_streams post) m om).
Proof.
  intros Hix. induction fuel as [|fuel IH]; intros pre f post k m om Hofs Hlen.
  { lia. }
  rewrite ost_scan_head.
  destruct (drop k (of_streams f) ++ all_streams post) as [|o R] eqn:ER.
  { reflexivity. }
  destruct (remaining_head pre f post k o R ER)
    as (pre' & f' & post' & k' & E1 & E2 & E3).
  assert (Hnext : ost_iter ofs (Some o) = ost_scan (f' :: post') (S k')).
  { apply (ost_iter_next ofs pre'); [exact Hix|congruence|exact E2]. }
  simpl in Hlen. cbn [head choose_loop select].
  destruct (unprimed o); [reflexivity|].
  rewrite Hnext, E3.
  destruct ((finished o =? 0) && (opts o <? m));
    apply (IH pre'); try congruence; subst R; lia.
Qed.

Lemma choose_loop_all ofs fuel m om :
  indexed ofs -> (length (all_streams ofs) < fuel)%nat ->
  choose_loop fuel ofs (ost_iter ofs None) m om =
  Some (select (all_streams ofs) m om).
Proof.
  intros Hix Hlen. unfold ost_iter. destruct ofs as [|f post].
  - destruct fuel; reflexivity.
  - pose proof (choose_loop_select (f :: post) Hix fuel [] f post 0%nat m om) as H.
    rewrite drop_0 in H. apply H; [reflexivity|exact Hlen].
Qed.

Lemma unprimed_not_finished o : unprimed o = true -> finished o = 0.
Proof.
  unfold unprimed. intros H.
  apply andb_true_iff in H as [_ H]. lia.
Qed.

(** A stream still to be primed ends the scan, whatever was ranked
    before it. *)
Lemma select_first_unprimed l o m om :
  first_unprimed l o -> select l m om = Some o.
Proof.
  intros (i & Hi & Hu & Hbefore). revert i m om Hi Hbefore.
  induction l as [|a l IH]; intros i m om Hi Hbefore.
  - rewrite lookup_nil in Hi. discriminate Hi.
  - destruct i as [|i].
    + simpl in Hi. inversion Hi; subst a. simpl. rewrite Hu. reflexivity.
    + simpl. rewrite (Hbefore 0%nat a) by (reflexivity || lia).
      simpl in Hi.
      destruct ((finished a =? 0) && (opts a <? m));
        apply (IH i); try exact Hi;
        intros j x Hj Hlt; apply (Hbefore (S j) x); [exact Hj|lia|exact Hj|lia].
Qed.

(** Without a stream to prime, the scan either keeps what it started
    with, every unfinished stream being at or above the ceiling, or
    returns the first unfinished stream of least [opts] below it. *)
Lemma select_ranked l :
  (forall x, x ∈ l -> unprimed x = false) ->
  forall m om,
    (select l m om = om /\
     forall x, x ∈ l -> finished x = 0 -> m <= opts x) \/
    (exists (i : nat) o,
       l !! i = Some o /\ select l m om = Some o /\
       finished o = 0 /\ opts o < m /\
       forall (j : nat) x, l !! j = Some x -> finished x = 0 ->
         opts o <= opts x /\ ((j < i)%nat -> opts o < opts x)).
Proof.
  induction l as [|a l IH]; intros Hnone m om.
  { left. split; [reflexivity|]. intros x Hx. inversion Hx. }
  assert (Ha : unprimed a = false) by (apply Hnone; left).
  assert (Hl : forall x, x ∈ l -> unprimed x = false)
    by (intros x Hx; apply Hnone; right; exact Hx).
  simpl. rewrite Ha.
  destruct ((finished a =? 0) && (opts a <? m)) eqn:Ecmp.
  - apply andb_true_iff in Ecmp as [Ef Eo].
    apply Z.eqb_eq in Ef. apply Z.ltb_lt in Eo.
    right. destruct (IH Hl (opts a) (Some a))
      as [[Hsel Hall]|(i & o & Hi & Hsel & Hf & Hlt & Hmin)].
    + exists 0%nat, a. repeat split; auto.
      * destruct j as [|j]; simpl in H.
        -- inversion H; subst; lia.
        -- apply Hall; [|exact H0]. apply list_elem_of_lookup. eauto.
      * lia.
    + exists (S i), o. repeat split; auto; try lia.
      * destruct j as [|j]; simpl in H.
        -- inversion H; subst; lia.
        -- apply (Hmin j x H H0).
      * intros Hji. destruct j as [|j]; simpl in H.
        -- inversion H; subst; lia.
        -- apply (Hmin j x H H0). lia.
  - assert (Hge : finished a = 0 -> m <= opts a).
    { intros Hf. apply andb_false_iff in Ecmp as [E|E]; lia. }
    destruct (IH Hl m om)
      as [[Hsel Hall]|(i & o & Hi & Hsel & Hf & Hlt & Hmin)].
    + left. split; [exact Hsel|]. intros x Hx Hfx.
      apply elem_of_cons in Hx as [->|Hx]; auto.
    + right. exists (S i), o. repeat split; auto.
      * destruct j as [|j]; simpl in H.
        -- inversion H; subst. specialize (Hge H0). lia.
        -- apply (Hmin j x H H0).
      * intros Hji. destruct j as [|j]; simpl in H.
        -- inversion H; subst. specialize (Hge H0). lia.
        -- apply (Hmin j x H H0). lia.
Qed.

Lemma earliest_unique l o o' : earliest l o -> earliest l o' -> o = o'.
Proof.
  intros (i & Hi & Hf & _ & Hmin) (i' & Hi' & Hf' & _ & Hmin').
  destruct (lt_eq_lt_dec i i') as [[Hlt|Heq]|Hgt].
  - pose proof (Hmin i' o' Hi' Hf') as [H1 _].
    pose proof (Hmin' i o Hi Hf) as [_ H2]. specialize (H2 Hlt). lia.
  - subst i'. congruence.
  - pose proof (Hmin' i o Hi Hf) as [H1 _].
    pose proof (Hmin i' o' Hi' Hf') as [_ H2]. specialize (H2 Hgt). lia.
Qed.

(** What the scan from the initial ceiling returns. *)
Lemma select_initial l :
  let r := select l INT64_MAX None in
  (forall o, first_unprimed l o -> r = Some o) /\
  ((forall x, x ∈ l -> unprimed x = false) ->
     forall o, r = Some o <-> earliest l o) /\
  (r = None <->
     forall x, x ∈ l ->
       unprimed x = false /\ ~ (finished x = 0 /\ opts x < INT64_MAX)) /\
  (forall o, r = Some o -> finished o = 0).
Proof.
  intros r. subst r.
  assert (Hcase :
    (exists o, first_unprimed l o) \/ (forall x, x ∈ l -> unprimed x = false)).
  { clear. induction l as [|a l IH].
    - right. intros x Hx. inversion Hx.
    - destruct (unprimed a) eqn:Ea.
      + left. exists a, 0%nat. repeat split; auto. intros j x _ Hj. lia.
      + destruct IH as [(o & i & Hi & Hu & Hb)|Hall].
        * left. exists o, (S i). repeat split; auto.
          intros j x Hj Hlt. destruct j as [|j]; simpl in Hj.
          -- congruence.
          -- apply (Hb j x Hj). lia.
        * right. intros x Hx. apply elem_of_cons in Hx as [->|Hx]; auto. }
  split; [intros o Ho; apply select_first_unprimed; exact Ho|].
  destruct Hcase as [(o & Ho)|Hnone].
  - pose proof (select_first_unprimed l o INT64_MAX None Ho) as Hsel.
    destruct Ho as (i & Hi & Hu & Hb).
    split; [|split].
    + intros Hnone. exfalso.
      assert (unprimed o = false)
        by (apply Hnone, list_elem_of_lookup; eauto).
      congruence.
    + rewrite Hsel. split; [discriminate|].
      intros Hall. exfalso.
      assert (o ∈ l) as Hin by (apply list_elem_of_lookup; eauto).
      destruct (Hall o Hin) as [E _]. congruence.
    + rewrite Hsel. intros o' E. inversion E; subst o'.
      apply unprimed_not_finished, Hu.
  - destruct (select_ranked l Hnone INT64_MAX None)
      as [[Hsel Hall]|(i & o & Hi & Hsel & Hf & Hlt & Hmin)].
    + rewrite Hsel. split; [|split].
      * intros _ o. split; [discriminate|].
        intros (i & Hi & Hf & Hlt & _). exfalso.
        assert (o ∈ l) as Hin by (apply list_elem_of_lookup; eauto).
        specialize (Hall o Hin Hf). lia.
      * split; [|reflexivity]. intros _ x Hx. split; [auto|].
        intros [Hf Hlt]. specialize (Hall x Hx Hf). lia.
      * discriminate.
    + assert (He : earliest l o) by (exists i; auto).
      rewrite Hsel. split; [|split].
      * intros _ o'. split.
        -- intros E. inversion E; subst o'. exact He.
        -- intros He'. f_equal. apply (earliest_unique l); assumption.
      * split; [discriminate|]. intros Hall. exfalso.
        assert (o ∈ l) as Hin by (apply list_elem_of_lookup; eauto).
        destruct (Hall o Hin) as [_ Hn]. apply Hn. auto.
      * intros o' E. inversion E; subst o'. exact Hf.
Qed.

Lemma opts_cases o :
  (forall f, filter o = Some f -> last_pts f <> AV_NOPTS_VALUE ->
             opts o = last_pts f) /\
  ((filter o = None \/
    exists f, filter o = Some f /\ last_pts f = AV_NOPTS_VALUE) ->
   opts o = if last_mux_dts o =? AV_NOPTS_VALUE then INT64_MIN
            else last_mux_dts o).
Proof.
  unfold opts, filter_pts. split.
  - intros f -> Hf. apply Z.eqb_neq in Hf. rewrite Hf. reflexivity.
  - intros [->|(f & -> & ->)]; [reflexivity|].
    rewrite Z.eqb_refl. reflexivity.
Qed.

(** C2, as the code has it.  On a pipeline whose streams record their
    positions, [choose_output] returns within one iteration per stream.
    It stores the first stream, in iteration order, that is not
    initialised, not inputs-done and not finished, when there is one;
    otherwise the first of the unfinished streams with the least [opts],
    provided that [opts] is below [INT64_MAX], the value the running
    minimum starts from.  [opts] is the filter's [last_pts] when the stream
    has a filter and that timestamp is known, else [last_mux_dts]
    ([INT64_MIN] when unknown).  The return value is end-of-file exactly
    when nothing is stored, which is exactly when no stream is to be
    primed and no unfinished stream has [opts] below [INT64_MAX]; it is
    retry-again when the stored stream is unavailable and 0 otherwise; a
    stored stream is never finished. *)
Theorem choose_output_selects (ofs : list OutputFile) :
  indexed ofs ->
  exists ret post,
    choose_output ofs = Some (ret, post) /\
    (forall o, first_unprimed (all_streams ofs) o -> post = Some o) /\
    ((forall x, x ∈ all_streams ofs -> unprimed x = false) ->
       forall o, post = Some o <-> earliest (all_streams ofs) o) /\
    (forall o,
       (forall f, filter o = Some f -> last_pts f <> AV_NOPTS_VALUE ->
                  opts o = last_pts f) /\
       ((filter o = None \/
         exists f, filter o = Some f /\ last_pts f = AV_NOPTS_VALUE) ->
        opts o = if last_mux_dts o =? AV_NOPTS_VALUE then INT64_MIN
                 else last_mux_dts o)) /\
    (ret = AVERROR_EOF <-> post = None) /\
    (post = None <->
       forall x, x ∈ all_streams ofs ->
         unprimed x = false /\ ~ (finished x = 0 /\ opts x < INT64_MAX)) /\
    (forall o, post = Some o ->
       finished o = 0 /\
       ret = if unavailable o =? 0 then 0 else AVERROR_EAGAIN).
Proof.
  intros Hix. unfold choose_output, choose_output_fuel.
  rewrite choose_loop_all by (exact Hix || lia).
  destruct (select_initial (all_streams ofs)) as (H1 & H2 & H3 & H4).
  destruct (select (all_streams ofs) INT64_MAX None) as [o|] eqn:Esel.
  - exists (if unavailable o =? 0 then 0 else AVERROR_EAGAIN), (Some o).
    split; [reflexivity|]. split; [exact H1|]. split; [exact H2|].
    split; [exact opts_cases|]. split; [|split].
    + split; [|discriminate]. intros E. exfalso.
      destruct (unavailable o =? 0); discriminate E.
    + exact H3.
    + intros o' E. inversion E; subst o'. split; [apply H4; reflexivity|].
      reflexivity.
  - exists AVERROR_EOF, None.
    split; [reflexivity|]. split; [exact H1|]. split; [exact H2|].
    split; [exact opts_cases|]. split; [|split].
    + split; reflexivity.
    + exact H3.
    + discriminate.
Qed.

Lemma two_files_indexed : indexed two_files.
Proof.
  intros i f j o Hi Hj.
  destruct i as [|[|i]]; simpl in Hi; inversion Hi; subst f;
    destruct j as [|[|j]]; simpl in Hj; inversion Hj; subst o; auto.
Qed.

(** The selector run on two files: the second stream of the first file
    is the first with the least timestamp. *)
Lemma choose_output_selects_witness :
  exists ret post,
    choose_output two_files = Some (ret, post) /\
    (post = Some (copy_stream 0 1 400) <->
     earliest (all_streams two_files) (copy_stream 0 1 400)).
Proof.
  destruct (choose_output_selects two_files two_files_indexed)
    as (ret & post & H & _ & H2 & _).
  exists ret, post. split; [exact H|]. apply H2.
  intros x Hx. unfold two_files, all_streams in Hx. simpl in Hx.
  repeat (apply elem_of_cons in Hx as [->|Hx]; [reflexivity|]).
  inversion Hx.
Defined.

Example choose_output_two_files :
  choose_output two_files = Some (0, Some (copy_stream 0 1 400)).
Proof. reflexivity. Qed.

Lemma at_ceiling_indexed : indexed at_ceiling.
Proof.
  intros i f j o Hi Hj.
  destruct i as [|i]; simpl in Hi; inversion Hi; subst f;
    destruct j as [|j]; simpl in Hj; inversion Hj; subst o; auto.
Qed.

(** C2 as stated fails: an initialised, unfinished stream whose
    [last_mux_dts] is [INT64_MAX] is the only stream, yet the selector
    returns end-of-file and stores nothing. *)
Lemma choose_output_eof_with_unfinished :
  indexed at_ceiling /\
  (exists x, x ∈ all_streams at_ceiling /\ finished x = 0) /\
  choose_output at_ceiling = Some (AVERROR_EOF, None) /\
  ~ (forall ofs ret post,
       indexed ofs -> choose_output ofs = Some (ret, post) ->
       (ret = AVERROR_EOF <->
        forall x, x ∈ all_streams ofs -> finished x <> 0)).
Proof.
  split; [exact at_ceiling_indexed|]. split; [|split].
  - exists (copy_stream 0 0 INT64_MAX). split; [left|reflexivity].
  - reflexivity.
  - intros H.
    destruct (H at_ceiling AVERROR_EOF None at_ceiling_indexed eq_refl)
      as [H1 _].
    apply (H1 eq_refl (copy_stream 0 0 INT64_MAX)); [left|reflexivity].
Qed.

End SelectorFacts.

(** ** Signal and interrupt monitor *)

Module SignalFacts.

Import Signal.

Lemma term_exit_sigsafe_tty s :
  tty (term_exit_sigsafe s) = (if restore_tty s then oldtty s else tty s).
Proof. unfold term_exit_sigsafe. destruct (restore_tty s); reflexivity. Qed.

Lemma term_exit_sigsafe_keeps s :
  received_sigterm (term_exit_sigsafe s) = received_sigterm s /\
  received_nb_signals (term_exit_sigsafe s) = received_nb_signals s /\
  stderr_out (term_exit_sigsafe s) = stderr_out s /\
  exited (term_exit_sigsafe s) = exited s.
Proof. unfold term_exit_sigsafe. destruct (restore_tty s); auto. Qed.

(** The handler, field by field. *)
Lemma sigterm_handler_fields sig s :
  sigterm_handler sig s =
  {| received_sigterm := sig;
     received_nb_signals := wrap32 (received_nb_signals s + 1);
     transcode_init_done := transcode_init_done s;
     restore_tty := restore_tty s;
     oldtty := oldtty s;
     tty := if restore_tty s then oldtty s else tty s;
     stderr_out :=
       if 3 <? wrap32 (received_nb_signals s + 1)
       then stderr_out s ++ [hard_exit_msg] else stderr_out s;
     exited :=
       if 3 <? wrap32 (received_nb_signals s + 1)
       then Some 123 else exited s |}.
Proof.
  unfold sigterm_handler, term_exit_sigsafe.
  cbn [restore_tty]. destruct (restore_tty s);
    cbn [received_sigterm received_nb_signals transcode_init_done
         restore_tty oldtty tty stderr_out exited];
    destruct (3 <? wrap32 (received_nb_signals s + 1)); reflexivity.
Qed.

Lemma deliver_exited sigs s c : exited s = Some c -> deliver sigs s = s.
Proof. intros H. destruct sigs; simpl; [reflexivity|]. rewrite H. reflexivity. Qed.

(** C3.  The interrupt predicate is true exactly when more signals have
    been received than [transcode_init_done] holds, and false exactly when
    [received_nb_signals <= transcode_init_done]; as a C truth value it is
    1 or 0. *)
Theorem decode_interrupt_cb_iff (s : state) :
  (decode_interrupt_cb s <> 0 <->
   transcode_init_done s < received_nb_signals s) /\
  (decode_interrupt_cb s = 0 <->
   received_nb_signals s <= transcode_init_done s) /\
  (decode_interrupt_cb s = 1 <->
   transcode_init_done s < received_nb_signals s).
Proof.
  unfold decode_interrupt_cb, of_bool.
  destruct (transcode_init_done s <? received_nb_signals s) eqn:E;
    [apply Z.ltb_lt in E | apply Z.ltb_ge in E];
    repeat split; intros; try lia; try discriminate.
Qed.

(** During setup the first signal already interrupts blocking calls;
    once [transcode] has stored 1 it takes a second one. *)
Example decode_interrupt_cb_setup t :
  decode_interrupt_cb (sigterm_handler 2 (initial t)) = 1.
Proof. reflexivity. Qed.

(** C6.  A delivered signal is recorded in [received_sigterm], the
    counter goes up by one and the terminal attributes are put back (when
    [term_init] had changed them).  While the counter is at most 3 after
    the increment the handler returns and writes nothing; once it exceeds
    3 the handler writes the fixed message to standard error and exits
    with status 123.  From the start of the program, up to three signals
    leave the process running and the fourth ends it with 123. *)
Theorem sigterm_handler_hard_exit (sig : Z) (s : state) :
  0 <= received_nb_signals s < INT_MAX ->
  received_sigterm (sigterm_handler sig s) = sig /\
  received_nb_signals (sigterm_handler sig s) = received_nb_signals s + 1 /\
  tty (sigterm_handler sig s) = (if restore_tty s then oldtty s else tty s) /\
  (received_nb_signals s < 3 ->
     exited (sigterm_handler sig s) = exited s /\
     stderr_out (sigterm_handler sig s) = stderr_out s) /\
  (3 <= received_nb_signals s ->
     exited (sigterm_handler sig s) = Some 123 /\
     stderr_out (sigterm_handler sig s) = stderr_out s ++ [hard_exit_msg]) /\
  (forall t sigs, (length sigs <= 3)%nat ->
     exited (deliver sigs (initial t)) = None /\
     received_nb_signals (deliver sigs (initial t)) = Z.of_nat (length sigs) /\
     stderr_out (deliver sigs (initial t)) = []) /\
  (forall t s1 s2 s3 s4 rest,
     exited (deliver (s1 :: s2 :: s3 :: s4 :: rest) (initial t)) = Some 123 /\
     received_sigterm (deliver (s1 :: s2 :: s3 :: s4 :: rest) (initial t)) = s4 /\
     stderr_out (deliver (s1 :: s2 :: s3 :: s4 :: rest) (initial t)) =
       [hard_exit_msg]).
Proof.
  intros Hn.
  assert (Hw : wrap32 (received_nb_signals s + 1) = received_nb_signals s + 1).
  { apply CIntFacts.wrap32_id. unfold in_int, INT_MIN, INT_MAX in *. lia. }
  rewrite sigterm_handler_fields, Hw.
  cbn [received_sigterm received_nb_signals tty exited stderr_out].
  split; [reflexivity|]. split; [reflexivity|]. split; [reflexivity|].
  split; [|split; [|split]].
  - intros Hlt.
    destruct (3 <? received_nb_signals s + 1) eqn:E;
      [apply Z.ltb_lt in E; lia|]. split; reflexivity.
  - intros Hge.
    destruct (3 <? received_nb_signals s + 1) eqn:E;
      [|apply Z.ltb_ge in E; lia]. split; reflexivity.
  - intros t sigs Hlen.
    destruct sigs as [|a [|b [|c [|d sigs]]]]; simpl in Hlen; try lia;
      repeat split; reflexivity.
  - intros t s1 s2 s3 s4 rest.
    change (deliver (s1 :: s2 :: s3 :: s4 :: rest) (initial t))
      with (deliver rest
              (sigterm_handler s4 (sigterm_handler s3
                 (sigterm_handler s2 (sigterm_handler s1 (initial t)))))).
    rewrite (deliver_exited rest _ 123) by reflexivity.
    repeat split; reflexivity.
Qed.

(** The handler run on the third and on the fourth signal. *)
Lemma sigterm_handler_hard_exit_witness :
  exited (sigterm_handler 15 (deliver [2; 2] (initial 7))) = None /\
  exited (sigterm_handler 15 (deliver [2; 2; 2] (initial 7))) = Some 123.
Proof.
  split.
  - pose proof (sigterm_handler_hard_exit 15 (deliver [2; 2] (initial 7)))
      as H.
    destruct H as (_ & _ & _ & H & _); [vm_compute; split; congruence|].
    destruct H as [H _]; [vm_compute; reflexivity|].
    rewrite H. reflexivity.
  - pose proof (sigterm_handler_hard_exit 15 (deliver [2; 2; 2] (initial 7)))
      as H.
    destruct H as (_ & _ & _ & _ & H & _); [vm_compute; split; congruence|].
    destruct H as [H _]; [vm_compute; congruence|].
    exact H.
Defined.

End SignalFacts.

(** ** Subtitle deep copy *)

Module SubtitleFacts.

Import Subtitle.

Lemma av_malloc_cases hp :
  exists ok hp',
    av_malloc hp = (ok, hp') /\
    live hp' = live hp + (if ok then 1 else 0) /\
    (reliable hp -> ok = true /\ reliable hp').
Proof.
  unfold av_malloc, reliable. destruct hp as [scr lv]. simpl.
  destruct scr as [|ok rest]; simpl.
  - exists true. eexists. split; [reflexivity|]. simpl. auto.
  - exists ok. eexists. split; [reflexivity|]. simpl.
    split; [destruct ok; lia|].
    intros H. inversion H; subst. auto.
Qed.

Lemma plane_blocks_insert l j b :
  l !! j = Some None ->
  plane_blocks (<[j := Some b]> l) = plane_blocks l + 1.
Proof.
  revert j. induction l as [|p l IH]; intros j H.
  - rewrite lookup_nil in H. discriminate H.
  - destruct j as [|j]; simpl in *.
    + inversion H; subst. simpl. lia.
    + rewrite (IH j H). lia.
Qed.

Lemma copy_text_ok src :
  step_ok (copy_text src) (upd_text src) (fun d => text d = None).
Proof.
  intros d hp Hd. unfold copy_text, upd_text.
  destruct (text src) as [t|].
  - destruct (av_malloc_cases hp) as (ok & hp' & E & Hl & Hr). rewrite E.
    destruct ok.
    + do 3 eexists. split; [reflexivity|].
      unfold rect_blocks in *. simpl. rewrite Hd. simpl. split; [lia|]. auto.
    + do 3 eexists. split; [reflexivity|]. split; [lia|]. split; [discriminate|auto].
  - exists true, d, hp. auto.
Qed.

Lemma copy_ass_ok src :
  step_ok (copy_ass src) (upd_ass src) (fun d => ass d = None).
Proof.
  intros d hp Hd. unfold copy_ass, upd_ass.
  destruct (ass src) as [t|].
  - destruct (av_malloc_cases hp) as (ok & hp' & E & Hl & Hr). rewrite E.
    destruct ok.
    + do 3 eexists. split; [reflexivity|].
      unfold rect_blocks in *. simpl. rewrite Hd. simpl. split; [lia|]. auto.
    + do 3 eexists. split; [reflexivity|]. split; [lia|]. split; [discriminate|auto].
  - exists true, d, hp. auto.
Qed.

Lemma copy_plane_ok src j :
  step_ok (copy_plane src j) (upd_plane src j)
          (fun d => data d !! j = Some None).
Proof.
  intros d hp Hd. unfold copy_plane, upd_plane.
  destruct (plane src j) as [b|].
  - destruct (av_malloc_cases hp) as (ok & hp' & E & Hl & Hr). rewrite E.
    destruct ok.
    + do 3 eexists. split; [reflexivity|].
      unfold rect_blocks in *. simpl.
      rewrite (plane_blocks_insert _ _ _ Hd). split; [lia|]. auto.
    + do 3 eexists. split; [reflexivity|]. split; [lia|]. split; [discriminate|auto].
  - exists true, d, hp. auto.
Qed.

Lemma and_then_ok a b ua ub (Pa Pb : AVSubtitleRect -> Prop) :
  step_ok a ua Pa -> step_ok b ub Pb ->
  (forall d, Pa d -> Pb (ua d)) ->
  step_ok (and_then a b) (fun d => ub (ua d)) Pa.
Proof.
  intros Ha Hb Hab d hp Hd. unfold and_then.
  destruct (Ha d hp Hd) as (ok & d1 & hp1 & E & Hl & Hu & Hr). rewrite E.
  destruct ok.
  - rewrite (Hu eq_refl) in *.
    destruct (Hb (ua d) hp1 (Hab d Hd)) as (ok2 & d2 & hp2 & E2 & Hl2 & Hu2 & Hr2).
    rewrite E2. exists ok2, d2, hp2. split; [reflexivity|].
    split; [lia|]. split; [exact Hu2|].
    intros R. apply Hr2, Hr, R.
  - exists false, d1, hp1. split; [reflexivity|]. split; [exact Hl|].
    split; [discriminate|]. intros R. destruct (Hr R) as [? _]. discriminate.
Qed.

Lemma step_ok_weaken st upd (P P' : AVSubtitleRect -> Prop) :
  (forall d, P' d -> P d) -> step_ok st upd P -> step_ok st upd P'.
Proof. intros HP H d hp Hd. apply H, HP, Hd. Qed.

Lemma upd_plane_null src j d :
  planes_null j d -> planes_null (S j) (upd_plane src j d).
Proof.
  intros H k Hk. unfold upd_plane. destruct (plane src j).
  - simpl. rewrite list_lookup_insert_ne by lia. apply H. lia.
  - apply H. lia.
Qed.

Lemma fill_rect_ok src :
  step_ok (fill_rect src)
    (fun d => upd_plane src 3 (upd_plane src 2 (upd_plane src 1
                (upd_plane src 0 (upd_ass src (upd_text src d))))))
    (fun d => text d = None /\ ass d = None /\ planes_null 0 d).
Proof.
  unfold fill_rect.
  apply (and_then_ok _ _ (upd_text src)
           (fun d => upd_plane src 3 (upd_plane src 2 (upd_plane src 1
                       (upd_plane src 0 (upd_ass src d)))))
           _ (fun d => ass d = None /\ planes_null 0 d)).
  - eapply step_ok_weaken; [|apply copy_text_ok]. intros d H; apply H.
  - apply (and_then_ok _ _ (upd_ass src)
             (fun d => upd_plane src 3 (upd_plane src 2 (upd_plane src 1
                         (upd_plane src 0 d))))
             _ (planes_null 0)).
    + eapply step_ok_weaken; [|apply copy_ass_ok]. intros d H; apply H.
    + apply (and_then_ok _ _ (upd_plane src 0)
               (fun d => upd_plane src 3 (upd_plane src 2 (upd_plane src 1 d)))
               _ (planes_null 1)).
      * eapply step_ok_weaken; [|apply copy_plane_ok]. intros d H; apply H; lia.
      * apply (and_then_ok _ _ (upd_plane src 1)
                 (fun d => upd_plane src 3 (upd_plane src 2 d))
                 _ (planes_null 2)).
        -- eapply step_ok_weaken; [|apply copy_plane_ok].
           intros d H; apply H; lia.
        -- apply (and_then_ok _ _ (upd_plane src 2) (upd_plane src 3)
                    _ (planes_null 3)).
           ++ eapply step_ok_weaken; [|apply copy_plane_ok].
              intros d H; apply H; lia.
           ++ eapply step_ok_weaken; [|apply copy_plane_ok].
              intros d H; apply H; lia.
           ++ intros d H. apply upd_plane_null, H.
        -- intros d H. apply upd_plane_null, H.
      * intros d H. apply upd_plane_null, H.
    + intros d [_ H]. unfold upd_ass. destruct (ass src); exact H.
  - intros d (_ & Ha & H). unfold upd_text. destruct (text src); auto.
Qed.

(** The steps, all successful, build the copy described from the source. *)
Lemma upd_chain_copied src :
  upd_plane src 3 (upd_plane src 2 (upd_plane src 1 (upd_plane src 0
    (upd_ass src (upd_text src (init_rect src)))))) = copied_rect src.
Proof.
  unfold upd_plane, upd_ass, upd_text, copied_rect, copied_plane,
    copied_linesize, init_rect.
  cbn [map].
  destruct (text src), (ass src), (plane src 0), (plane src 1),
    (plane src 2), (plane src 3); reflexivity.
Qed.

Lemma fill_rect_init src hp :
  exists ok d hp',
    fill_rect src (init_rect src) hp = (ok, d, hp') /\
    live hp' - rect_blocks d = live hp - 1 /\
    (ok = true -> d = copied_rect src) /\
    (reliable hp -> ok = true /\ reliable hp').
Proof.
  destruct (fill_rect_ok src (init_rect src) hp)
    as (ok & d & hp' & E & Hl & Hu & Hr).
  { split; [reflexivity|]. split; [reflexivity|].
    intros k Hk. destruct k as [|[|[|[|k]]]]; try reflexivity; lia. }
  exists ok, d, hp'. split; [exact E|]. split; [exact Hl|].
  split; [|exact Hr]. intros Hok. rewrite <- upd_chain_copied. apply Hu, Hok.
Qed.

Lemma rects_blocks_app l l' :
  rects_blocks (l ++ l') = rects_blocks l + rects_blocks l'.
Proof. induction l as [|r l IH]; simpl; [reflexivity|]. rewrite IH. lia. Qed.

Lemma holds_blocks tmp l : holds tmp l -> sub_blocks tmp = 1 + rects_blocks l.
Proof.
  intros [Hr Hn]. unfold sub_blocks, visited. rewrite Hr, Hn, Nat2Z.id.
  rewrite firstn_all. reflexivity.
Qed.

Lemma add_rect_holds tmp l d :
  holds tmp l -> Z.of_nat (length l) + 1 < 2 ^ 32 ->
  holds (add_rect tmp d) (l ++ [d]).
Proof.
  intros [Hr Hn] Hlt. unfold holds, add_rect. simpl. rewrite Hr, Hn.
  split; [reflexivity|]. rewrite length_app. simpl.
  rewrite Z.mod_small by lia. lia.
Qed.

Lemma copy_rects_ok srcs :
  forall tmp l hp,
    holds tmp l -> Z.of_nat (length l + length srcs) < 2 ^ 32 ->
    exists ok tmp' l' hp',
      copy_rects srcs tmp hp = (ok, tmp', hp') /\
      holds tmp' l' /\
      live hp' - rects_blocks l' = live hp - rects_blocks l /\
      format tmp' = format tmp /\
      start_display_time tmp' = start_display_time tmp /\
      end_display_time tmp' = end_display_time tmp /\
      pts tmp' = pts tmp /\
      (ok = true -> l' = l ++ map copied_rect srcs) /\
      (reliable hp -> ok = true /\ reliable hp').
Proof.
  induction srcs as [|src srcs IH]; intros tmp l hp Hh Hlen.
  - exists true, tmp, l, hp. simpl. rewrite app_nil_r. repeat split; auto; apply Hh.
  - simpl in *.
    destruct (av_malloc_cases hp) as (ok & hp1 & E & Hl & Hr). rewrite E.
    destruct ok.
    + destruct (fill_rect_init src hp1) as (ok2 & d & hp2 & E2 & Hl2 & Hu2 & Hr2).
      rewrite E2.
      assert (Hh' : holds (add_rect tmp d) (l ++ [d])).
      { apply add_rect_holds; [exact Hh|lia]. }
      destruct ok2.
      * destruct (IH (add_rect tmp d) (l ++ [d]) hp2 Hh')
          as (ok3 & tmp3 & l3 & hp3 & E3 & Hh3 & Hl3 & F1 & F2 & F3 & F4 & Hu3 & Hr3).
        { rewrite length_app. simpl. lia. }
        rewrite E3. exists ok3, tmp3, l3, hp3.
        split; [reflexivity|]. split; [exact Hh3|].
        rewrite rects_blocks_app in Hl3. simpl in Hl3.
        split; [lia|]. repeat split; auto.
        -- intros Hok. rewrite (Hu3 Hok), (Hu2 eq_refl), <- app_assoc.
           reflexivity.
        -- apply Hr3, Hr2, Hr, H.
        -- apply Hr3, Hr2, Hr, H.
      * exists false, (add_rect tmp d), (l ++ [d]), hp2.
        split; [reflexivity|]. split; [exact Hh'|].
        rewrite rects_blocks_app. simpl.
        split; [lia|]. repeat split; auto; try discriminate.
        -- exfalso. destruct (Hr2 (proj2 (Hr H))) as [? _]. discriminate.
        -- exfalso. destruct (Hr2 (proj2 (Hr H))) as [? _]. discriminate.
    + exists false, tmp, l, hp1. split; [reflexivity|]. split; [exact Hh|].
      split; [lia|]. repeat split; auto; try discriminate.
      * exfalso. destruct (Hr H) as [? _]. discriminate.
      * exfalso. destruct (Hr H) as [? _]. discriminate.
Qed.

Lemma subtitle_ext (a b : AVSubtitle) :
  format a = format b -> start_display_time a = start_display_time b ->
  end_display_time a = end_display_time b -> num_rects a = num_rects b ->
  rects a = rects b -> pts a = pts b -> a = b.
Proof. destruct a, b. simpl. intros. subst. reflexivity. Qed.

Lemma visited_copied src :
  well_formed src -> visited (copied src) = map copied_rect (visited src).
Proof.
  intros [Hn Hlen]. unfold visited at 1, copied. simpl.
  destruct (num_rects src =? 0) eqn:E.
  - apply Z.eqb_eq in E. rewrite E in *. simpl in *.
    destruct (visited src); [reflexivity|discriminate Hlen].
  - apply firstn_all2. rewrite length_map. lia.
Qed.

Lemma copied_rect_planes r j :
  (j < 4)%nat ->
  plane (copied_rect r) j = copied_plane r j /\
  linesize_at (copied_rect r) j = copied_linesize r j.
Proof.
  intros Hj. unfold plane at 1, linesize_at at 1, copied_rect. simpl.
  destruct j as [|[|[|[|j]]]]; try lia; split; reflexivity.
Qed.

(** C7, as the code has it.  For a well-formed source and any state of
    the allocator, [copy_av_subtitle] either returns 0 and stores a copy,
    having allocated exactly the blocks the copy owns, or returns
    out-of-memory with the destination as it was and every block it had
    allocated freed again; it succeeds whenever no allocation fails, and
    with [num_rects = 0] it succeeds without touching the allocator.  The
    copy has the format, pts, display times and [num_rects] of the source,
    and rectangle by rectangle its type, flags, geometry, number of
    colours, text and ASS line; of every plane that has data it has the
    first [buf_size] bytes (the palette size for the second plane of a
    bitmap, [h * linesize] otherwise) and the line size; the line size of
    a plane without data is 0 in the copy, whatever the source records.
    The source is only read: it is an argument of the function and not
    part of what it returns. *)
Theorem copy_av_subtitle_deep_copy (dst src : AVSubtitle) (hp : heap) :
  well_formed src ->
  exists ret dst' hp',
    copy_av_subtitle dst src hp = (ret, dst', hp') /\
    ((ret = 0 /\ dst' = copied src /\
      live hp' = live hp + sub_blocks dst') \/
     (ret = AVERROR_ENOMEM /\ dst' = dst /\ live hp' = live hp /\
      ~ reliable hp)) /\
    (reliable hp -> ret = 0) /\
    (num_rects src = 0 -> ret = 0 /\ hp' = hp) /\
    format (copied src) = format src /\
    pts (copied src) = pts src /\
    start_display_time (copied src) = start_display_time src /\
    end_display_time (copied src) = end_display_time src /\
    num_rects (copied src) = num_rects src /\
    length (visited (copied src)) = length (visited src) /\
    (forall (i : nat) r, visited src !! i = Some r ->
       exists r',
         visited (copied src) !! i = Some r' /\
         type r' = type r /\ flags r' = flags r /\
         x r' = x r /\ y r' = y r /\ w r' = w r /\ h r' = h r /\
         nb_colors r' = nb_colors r /\
         text r' = text r /\ ass r' = ass r /\
         forall j, (j < 4)%nat ->
           plane r' j =
             match plane r j with
             | Some b => Some (takeZ b (buf_size r j))
             | None => None
             end /\
           linesize_at r' j =
             match plane r j with
             | Some _ => linesize_at r j
             | None => 0
             end).
Proof.
  intros Hwf. pose proof Hwf as [Hn Hlen].
  assert (Hfields :
    format (copied src) = format src /\
    pts (copied src) = pts src /\
    start_display_time (copied src) = start_display_time src /\
    end_display_time (copied src) = end_display_time src /\
    num_rects (copied src) = num_rects src /\
    length (visited (copied src)) = length (visited src) /\
    (forall (i : nat) r, visited src !! i = Some r ->
       exists r',
         visited (copied src) !! i = Some r' /\
         type r' = type r /\ flags r' = flags r /\
         x r' = x r /\ y r' = y r /\ w r' = w r /\ h r' = h r /\
         nb_colors r' = nb_colors r /\
         text r' = text r /\ ass r' = ass r /\
         forall j, (j < 4)%nat ->
           plane r' j =
             match plane r j with
             | Some b => Some (takeZ b (buf_size r j))
             | None => None
             end /\
           linesize_at r' j =
             match plane r j with
             | Some _ => linesize_at r j
             | None => 0
             end)).
  { rewrite (visited_copied src Hwf), length_map.
    repeat (split; [reflexivity|]).
    intros i r Hi. exists (copied_rect r).
    split; [rewrite list_lookup_fmap, Hi; reflexivity|].
    repeat (split; [reflexivity|]).
    intros j Hj. apply (copied_rect_planes r j Hj). }
  unfold copy_av_subtitle.
  destruct (num_rects src =? 0) eqn:E0.
  { apply Z.eqb_eq in E0.
    assert (Ec : {| format := format src;
                    start_display_time := start_display_time src;
                    end_display_time := end_display_time src;
                    num_rects := 0; rects := None; pts := pts src |}
                 = copied src).
    { unfold copied. rewrite E0. reflexivity. }
    exists 0, (copied src), hp. split; [rewrite <- Ec; reflexivity|].
    split; [|split; [auto|split; [auto|exact Hfields]]].
    left. split; [reflexivity|]. split; [reflexivity|].
    unfold sub_blocks. rewrite (visited_copied src Hwf).
    unfold copied. rewrite E0. simpl.
    destruct (visited src); [simpl; lia|].
    rewrite E0 in Hlen. discriminate Hlen. }
  apply Z.eqb_neq in E0.
  destruct (av_malloc_cases hp) as (ok & hp1 & E & Hl & Hr). rewrite E.
  destruct ok.
  - match goal with |- context [copy_rects _ ?t hp1] => set (tmp1 := t) end.
    destruct (copy_rects_ok (visited src) tmp1 [] hp1)
      as (ok2 & tmp2 & l2 & hp2 & E2 & Hh2 & Hl2 & F1 & F2 & F3 & F4 & Hu2 & Hr2).
    { split; reflexivity. }
    { simpl. lia. }
    rewrite E2. pose proof (holds_blocks tmp2 l2 Hh2) as Hb.
    simpl in Hl2. destruct ok2.
    + exists 0, tmp2, hp2. split; [reflexivity|].
      split; [|split; [auto|split; [intros; lia|exact Hfields]]].
      left. split; [reflexivity|].
      assert (Et : tmp2 = copied src).
      { destruct Hh2 as [Hrects Hnum]. rewrite (Hu2 eq_refl) in *. simpl in *.
        apply subtitle_ext; simpl; try assumption.
        - rewrite Hnum, length_map. lia.
        - rewrite Hrects. destruct (num_rects src =? 0) eqn:E3;
            [apply Z.eqb_eq in E3; lia|reflexivity]. }
      split; [exact Et|]. lia.
    + exists AVERROR_ENOMEM, dst. eexists. split; [reflexivity|].
      assert (Hnr : ~ reliable hp).
      { intros R. destruct (Hr2 (proj2 (Hr R))) as [? _]. discriminate. }
      split; [|split; [intros R; contradiction|split; [intros; lia|exact Hfields]]].
      right. split; [reflexivity|]. split; [reflexivity|].
      split; [simpl; lia|exact Hnr].
  - exists AVERROR_ENOMEM, dst, hp1. split; [reflexivity|].
    assert (Hnr : ~ reliable hp).
    { intros R. destruct (Hr R) as [? _]. discriminate. }
    split; [|split; [intros R; contradiction|split; [intros; lia|exact Hfields]]].
    right. split; [reflexivity|]. split; [reflexivity|].
    split; [lia|exact Hnr].
Qed.

(** A bitmap rectangle and a text rectangle, copied with an allocator
    that does not fail: the call succeeds. *)
Lemma copy_av_subtitle_deep_copy_witness :
  well_formed (subtitle_of [bitmap_rect; text_rect] 90000) /\
  exists dst' hp',
    copy_av_subtitle empty_subtitle (subtitle_of [bitmap_rect; text_rect] 90000)
      fresh_heap
    = (0, dst', hp').
Proof.
  assert (Hwf : well_formed (subtitle_of [bitmap_rect; text_rect] 90000)).
  { split; [vm_compute; split; [discriminate|reflexivity]|reflexivity]. }
  split; [exact Hwf|].
  destruct (copy_av_subtitle_deep_copy empty_subtitle
              (subtitle_of [bitmap_rect; text_rect] 90000) fresh_heap Hwf)
    as (ret & dst' & hp' & H & _ & H2 & _).
  exists dst', hp'. rewrite H.
  assert (R : reliable fresh_heap) by constructor.
  rewrite (H2 R). reflexivity.
Defined.

Example copy_two_rects :
  copy_av_subtitle empty_subtitle (subtitle_of [bitmap_rect; text_rect] 90000)
    fresh_heap
  = (0, copied (subtitle_of [bitmap_rect; text_rect] 90000),
     {| script := []; live := 7 |}).
Proof. vm_compute. reflexivity. Qed.

Example copy_two_rects_failing :
  copy_av_subtitle empty_subtitle (subtitle_of [bitmap_rect; text_rect] 90000)
    {| script := [true; true; true; true; true; true; false]; live := 0 |}
  = (AVERROR_ENOMEM, empty_subtitle, {| script := []; live := 0 |}).
Proof. vm_compute. reflexivity. Qed.

(** C7 as stated fails for the line sizes: the source records a line size
    of 4 for a plane without data, the successful copy records 0. *)
Lemma copy_av_subtitle_drops_linesize :
  well_formed (subtitle_of [stride_only_rect] 5) /\
  exists dst' hp' r',
    copy_av_subtitle empty_subtitle (subtitle_of [stride_only_rect] 5)
      fresh_heap = (0, dst', hp') /\
    rects dst' = Some [r'] /\
    linesize_at stride_only_rect 0 = 4 /\
    linesize_at r' 0 = 0 /\
    linesize r' <> linesize stride_only_rect.
Proof.
  split; [split; [vm_compute; split; [discriminate|reflexivity]|reflexivity]|].
  do 3 eexists. split; [vm_compute; reflexivity|].
  split; [reflexivity|]. split; [reflexivity|]. split; [reflexivity|].
  discriminate.
Qed.

End SubtitleFacts.

(** ** Input driver *)

Module DriverFacts.

Import Driver.

Lemma get_ost_emit e w r : get_ost (emit e w) r = get_ost w r.
Proof. reflexivity. Qed.

Lemma get_ist_emit e w r : get_ist (emit e w) r = get_ist w r.
Proof. reflexivity. Qed.

Lemma get_ost_set_ist w r s r' : get_ost (set_ist w r s) r' = get_ost w r'.
Proof. reflexivity. Qed.

Lemma get_ost_set_ost w r o r' :
  get_ost (set_ost w r o) r' =
  (fun ost => if decide (r' = r) then o else ost) <$> get_ost w r'.
Proof.
  unfold get_ost, set_ost. simpl. destruct r as [i j], r' as [i' j']. simpl.
  destruct (decide (i' = i)) as [->|Hi].
  - rewrite list_lookup_alter_eq. destruct (output_files w !! i) as [f|]; simpl;
      [|reflexivity].
    destruct (decide (j' = j)) as [->|Hj].
    + destruct (of_streams f !! j) as [x|] eqn:E.
      * rewrite list_lookup_insert_eq by (apply lookup_lt_Some in E; exact E).
        simpl. case_decide; congruence.
      * rewrite list_insert_ge by (apply lookup_ge_None in E; exact E).
        rewrite E. reflexivity.
    + rewrite list_lookup_insert_ne by congruence.
      destruct (of_streams f !! j'); simpl; [|reflexivity].
      case_decide; congruence.
  - rewrite list_lookup_alter_ne by congruence.
    destruct (output_files w !! i') as [f|]; [|reflexivity].
    destruct (of_streams f !! j'); simpl; [|reflexivity].
    case_decide; congruence.
Qed.

Lemma closed_idem o : closed (closed o) = closed o.
Proof.
  unfold closed, with_finished. simpl. f_equal.
  rewrite <- Z.lor_assoc, Z.lor_diag. reflexivity.
Qed.

Lemma closed_finished o : encoder_finished (closed o).
Proof.
  unfold encoder_finished, closed. simpl.
  change ENCODER_FINISHED with (Z.ones 1).
  rewrite Z.land_lor_distr_l, Z.land_diag, Z.land_ones by lia.
  pose proof (Z.mod_pos_bound (finished o) (2 ^ 1)) as H.
  assert (E : finished o mod 2 ^ 1 = 0 \/ finished o mod 2 ^ 1 = 1) by lia.
  destruct E as [-> | ->]; reflexivity.
Qed.

Lemma get_ost_close w r o :
  get_ost (close_output_stream w r) o =
  (fun ost => if decide (o = r) then closed ost else ost) <$> get_ost w o.
Proof.
  unfold close_output_stream. destruct (get_ost w r) as [ost|] eqn:E.
  - assert (H : get_ost (set_ost w r (closed ost)) o =
                (fun x => if decide (o = r) then closed x else x) <$> get_ost w o).
    { rewrite get_ost_set_ost. destruct (get_ost w o) as [x|] eqn:Eo;
        simpl; [|reflexivity].
      f_equal. repeat case_decide; congruence. }
    change (with_finished ost (Z.lor (finished ost) ENCODER_FINISHED))
      with (closed ost).
    destruct (0 <=? sq_idx_encode ost); [rewrite get_ost_emit|]; exact H.
  - destruct (get_ost w o) as [x|] eqn:Eo; simpl; [|reflexivity].
    f_equal. repeat case_decide; congruence.
Qed.

Lemma extends_by_same P w w' : trace w' = trace w -> extends_by P w w'.
Proof.
  intros H. exists []. rewrite app_nil_r. split; [exact H|constructor].
Qed.

Lemma extends_by_refl P w : extends_by P w w.
Proof. apply extends_by_same. reflexivity. Qed.

Lemma extends_by_trans P w1 w2 w3 :
  extends_by P w1 w2 -> extends_by P w2 w3 -> extends_by P w1 w3.
Proof.
  intros (e1 & H1 & F1) (e2 & H2 & F2). exists (e1 ++ e2).
  rewrite H2, H1, app_assoc. split; [reflexivity|]. apply Forall_app. auto.
Qed.

Lemma extends_by_emit (P : Event -> Prop) e w : P e -> extends_by P w (emit e w).
Proof. intros H. exists [e]. split; [reflexivity|]. repeat constructor. exact H. Qed.

Lemma extends_by_close (P : Event -> Prop) w r :
  (forall f q, P (EvSqSendNull f q)) -> extends_by P w (close_output_stream w r).
Proof.
  intros HP. unfold close_output_stream.
  destruct (get_ost w r) as [ost|]; [|apply extends_by_refl].
  destruct (0 <=? sq_idx_encode ost).
  - apply (extends_by_trans _ _ (set_ost w r
             (with_finished ost (Z.lor (finished ost) ENCODER_FINISHED)))).
    + apply extends_by_same. reflexivity.
    + apply extends_by_emit, HP.
  - apply extends_by_same. reflexivity.
Qed.

(** The loop over the outputs once the duration is exceeded: every
    output without an encoder is closed, the others are left alone, and
    nothing is sent to the muxer. *)
Lemma streamcopy_outputs_exceeded outs p no_eof d :
  forall w,
    (forall o,
       get_ost (streamcopy_outputs outs (Some p) no_eof true d w) o =
       (fun ost => if bool_decide (o ∈ outs) && negb (enc ost)
                   then closed ost else ost) <$> get_ost w o) /\
    extends_by (fun e => exists f q, e = EvSqSendNull f q) w
      (streamcopy_outputs outs (Some p) no_eof true d w) /\
    input_files (streamcopy_outputs outs (Some p) no_eof true d w) =
      input_files w.
Proof.
  induction outs as [|a outs IH]; intros w.
  { simpl. split; [|split; [apply extends_by_refl|reflexivity]].
    intros o. destruct (get_ost w o); reflexivity. }
  cbn [streamcopy_outputs is_null andb orb].
  destruct (get_ost w a) as [osta|] eqn:Ea.
  - rewrite orb_false_r. destruct (enc osta) eqn:Eenc.
    + destruct (IH w) as (H1 & H2 & H3). split; [|split; assumption].
      intros o. rewrite H1. destruct (get_ost w o) as [ost|] eqn:Eo;
        [|reflexivity]. simpl. f_equal.
      destruct (decide (o = a)) as [->|Hne].
      * assert (ost = osta) by congruence. subst ost. rewrite Eenc.
        rewrite !andb_false_r. reflexivity.
      * rewrite (bool_decide_ext (o ∈ a :: outs) (o ∈ outs)); [reflexivity|].
        rewrite elem_of_cons. tauto.
    + destruct (IH (close_output_stream w a)) as (H1 & H2 & H3).
      split; [|split].
      * intros o. rewrite H1, get_ost_close.
        destruct (get_ost w o) as [ost|] eqn:Eo; [|reflexivity]. simpl. f_equal.
        destruct (decide (o = a)) as [->|Hne].
        -- assert (ost = osta) by congruence. subst ost.
           rewrite (bool_decide_eq_true_2 (a ∈ a :: outs)) by left.
           rewrite Eenc. simpl.
           destruct (bool_decide (a ∈ outs) && negb (enc osta));
             [apply closed_idem|reflexivity].
        -- rewrite (bool_decide_ext (o ∈ a :: outs) (o ∈ outs)); [reflexivity|].
           rewrite elem_of_cons. tauto.
      * eapply extends_by_trans; [|exact H2].
        apply extends_by_close. eauto.
      * rewrite H3. unfold close_output_stream.
        destruct (get_ost w a) as [x|]; [|reflexivity].
        destruct (0 <=? sq_idx_encode x); reflexivity.
  - destruct (IH w) as (H1 & H2 & H3). split; [|split; assumption].
    intros o. rewrite H1. destruct (get_ost w o) as [ost|] eqn:Eo;
      [|reflexivity]. simpl. f_equal.
    assert (Hne : o <> a) by congruence.
    rewrite (bool_decide_ext (o ∈ a :: outs) (o ∈ outs)); [reflexivity|].
    rewrite elem_of_cons. tauto.
Qed.

Lemma dec_packet_valid w r pkt no_eof s :
  get_ist w r = Some s ->
  dec_packet w r pkt no_eof =
  (dec_ret (next_answer s),
   emit (EvDecPacket r pkt no_eof (dec_ret (next_answer s)))
        (set_ist w r (after_answer s))).
Proof. intros H. unfold dec_packet. rewrite H. reflexivity. Qed.

Lemma process_input_packet_valid opt w ist pkt no_eof s f :
  get_ist w ist = Some s -> input_files w !! ist_file_index s = Some f ->
  process_input_packet opt w ist pkt no_eof =
  (of_bool (negb (((if decoding_needed s =? 0 then 0
                    else dec_ret (next_answer s)) =? AVERROR_EOF)
                  || (is_null pkt && (decoding_needed s =? 0)))),
   streamcopy_outputs (outputs s) pkt no_eof
     (duration_exceeded opt f (dts_est_of pkt)) (dts_est_of pkt)
     (if decoding_needed s =? 0 then w
      else emit (EvDecPacket ist pkt no_eof (dec_ret (next_answer s)))
                (set_ist w ist (after_answer s)))).
Proof.
  intros Hs Hf. unfold process_input_packet. rewrite Hs, Hf.
  rewrite (dec_packet_valid w ist pkt no_eof s Hs).
  destruct (decoding_needed s =? 0); reflexivity.
Qed.

(** C9.  [process_input_packet] returns 0 exactly when the decoder was
    called and answered end-of-file, or no packet was given for a stream
    that needs no decoding; in every other case it returns 1. *)
Theorem process_input_packet_not_eof opt w ist pkt no_eof s f :
  get_ist w ist = Some s -> input_files w !! ist_file_index s = Some f ->
  (fst (process_input_packet opt w ist pkt no_eof) = 0 <->
   (decoding_needed s <> 0 /\
    fst (dec_packet w ist pkt no_eof) = AVERROR_EOF) \/
   (pkt = None /\ decoding_needed s = 0)) /\
  (fst (process_input_packet opt w ist pkt no_eof) = 1 <->
   ~ ((decoding_needed s <> 0 /\
       fst (dec_packet w ist pkt no_eof) = AVERROR_EOF) \/
      (pkt = None /\ decoding_needed s = 0))) /\
  (0 < fst (process_input_packet opt w ist pkt no_eof) <->
   fst (process_input_packet opt w ist pkt no_eof) = 1).
Proof.
  intros Hs Hf.
  rewrite (process_input_packet_valid opt w ist pkt no_eof s f Hs Hf).
  rewrite (dec_packet_valid w ist pkt no_eof s Hs).
  cbn [fst].
  match goal with |- context [of_bool (negb ?c)] => set (b := c) end.
  assert (Hb : b = true <->
               (decoding_needed s <> 0 /\
                dec_ret (next_answer s) = AVERROR_EOF) \/
               (pkt = None /\ decoding_needed s = 0)).
  { subst b. rewrite orb_true_iff, andb_true_iff, !Z.eqb_eq.
    destruct (decoding_needed s =? 0) eqn:Edn;
      [apply Z.eqb_eq in Edn | apply Z.eqb_neq in Edn].
    - split.
      + intros [H|[H _]]; [discriminate H|].
        right. destruct pkt; [discriminate H|auto].
      + intros [[H _]|[H _]]; [contradiction|]. right. subst pkt. auto.
    - split.
      + intros [H|[_ H]]; [left; auto|contradiction].
      + intros [[_ H]|[_ H]]; [left; exact H|contradiction]. }
  destruct b; simpl.
  - split; [|split]; split; intros H;
      first [ reflexivity | discriminate H | lia
            | apply Hb; reflexivity
            | exfalso; apply H, Hb; reflexivity ].
  - split; [|split]; split; intros H;
      first [ reflexivity | discriminate H | lia
            | apply Hb in H; discriminate H
            | intros H'; apply Hb in H'; discriminate H' ].
Qed.

(** A packet for the decoded sample stream: the decoder answers 0, the
    call returns not-eof. *)
Lemma process_input_packet_not_eof_witness :
  fst (process_input_packet sample_options sample_world (0, 0)%nat
         (Some sample_packet) 0) = 1.
Proof.
  destruct (process_input_packet_not_eof sample_options sample_world (0, 0)%nat
              (Some sample_packet) 0 sample_video
              {| if_streams := [sample_video; sample_subtitles];
                 eagain := 0; eof_reached := 0; recording_time := 3000000;
                 start_time := AV_NOPTS_VALUE; start_time_effective := 0 |}
              eq_refl eq_refl) as (_ & H & _).
  apply H. vm_compute. intros [[_ E]|[E _]]; discriminate E.
Defined.

(** C5.  With a recording-time limit on the input file and a packet whose
    [dts_est] is at or after [recording_time + start_time], every output
    of the stream that has no encoder is closed (its [finished] gains
    [ENCODER_FINISHED]), the outputs with an encoder are left as they
    were, and nothing is handed to the muxer's stream copy; [start_time]
    is 0 unless copy-ts is active, and is then the file's start time (when
    known) plus, unless [start_at_zero] is set, its effective start
    time.  The bound is inclusive. *)
Theorem process_input_packet_duration_exceeded opt w ist p no_eof s f :
  get_ist w ist = Some s -> input_files w !! ist_file_index s = Some f ->
  recording_time f <> INT64_MAX ->
  wrap64 (recording_time f + limit_start_time opt f) <= dts_est_of (Some p) ->
  (forall o ost,
     o ∈ outputs s -> get_ost w o = Some ost -> enc ost = false ->
     get_ost (snd (process_input_packet opt w ist (Some p) no_eof)) o
       = Some (closed ost) /\
     encoder_finished (closed ost)) /\
  (forall o ost,
     get_ost w o = Some ost -> enc ost = true ->
     get_ost (snd (process_input_packet opt w ist (Some p) no_eof)) o
       = Some ost) /\
  (exists evs,
     trace (snd (process_input_packet opt w ist (Some p) no_eof))
       = trace w ++ evs /\
     Forall (fun e => is_streamcopy e = false) evs) /\
  (copy_ts opt = 0 -> limit_start_time opt f = 0) /\
  (copy_ts opt <> 0 ->
   limit_start_time opt f =
   wrap64 (wrap64 (if start_time f =? AV_NOPTS_VALUE then 0 else start_time f)
           + (if start_at_zero opt =? 0 then start_time_effective f else 0))).
Proof.
  intros Hs Hf Hrec Hdts.
  rewrite (process_input_packet_valid opt w ist (Some p) no_eof s f Hs Hf).
  cbn [snd].
  assert (Hex : duration_exceeded opt f (dts_est_of (Some p)) = true).
  { unfold duration_exceeded. apply Z.eqb_neq in Hrec. rewrite Hrec.
    apply Z.leb_le, Hdts. }
  rewrite Hex.
  match goal with |- context [streamcopy_outputs _ _ _ _ _ ?w0] =>
    set (w1 := w0) end.
  assert (Hw1 : forall o, get_ost w1 o = get_ost w o).
  { intros o. subst w1. destruct (decoding_needed s =? 0); reflexivity. }
  assert (Ht1 : extends_by (fun e => is_streamcopy e = false) w w1).
  { subst w1. destruct (decoding_needed s =? 0).
    - apply extends_by_refl.
    - eapply extends_by_trans; [|apply extends_by_emit; reflexivity].
      apply extends_by_same. reflexivity. }
  destruct (streamcopy_outputs_exceeded (outputs s) p no_eof
              (dts_est_of (Some p)) w1) as (H1 & H2 & _).
  split; [|split; [|split; [|split]]].
  - intros o ost Ho Host Henc. split; [|apply closed_finished].
    rewrite H1, Hw1, Host. simpl.
    rewrite (bool_decide_eq_true_2 _ Ho), Henc. reflexivity.
  - intros o ost Host Henc. rewrite H1, Hw1, Host. simpl.
    rewrite Henc, andb_false_r. reflexivity.
  - apply (extends_by_trans _ _ w1); [exact Ht1|].
    destruct H2 as (evs & E & F). exists evs. split; [exact E|].
    eapply Forall_impl; [exact F|]. intros e (a & q & ->). reflexivity.
  - intros H. unfold limit_start_time. rewrite H. reflexivity.
  - intros H. unfold limit_start_time. apply Z.eqb_neq in H. rewrite H.
    rewrite Z.add_0_l. reflexivity.
Qed.

(** The sample packet has [dts_est] equal to the limit: the stream-copy
    output is closed, its sync queue gets the NULL frame, and the muxer
    is not called. *)
Lemma process_input_packet_duration_exceeded_witness :
  get_ost (snd (process_input_packet sample_options sample_world (0, 0)%nat
                  (Some sample_packet) 0)) (0, 0)%nat
  = Some (closed sample_copy_out).
Proof.
  refine (proj1 (proj1 (process_input_packet_duration_exceeded sample_options sample_world (0, 0)%nat
            sample_packet 0 sample_video
            {| if_streams := [sample_video; sample_subtitles];
               eagain := 0; eof_reached := 0; recording_time := 3000000;
               start_time := AV_NOPTS_VALUE; start_time_effective := 0 |}
            eq_refl eq_refl _ _) (0, 0)%nat sample_copy_out _ eq_refl eq_refl)).
  - vm_compute. discriminate.
  - vm_compute. discriminate.
  - left.
Defined.

Example process_input_packet_at_limit :
  trace (snd (process_input_packet sample_options sample_world (0, 0)%nat
                (Some sample_packet) 0))
  = [EvDecPacket (0, 0)%nat (Some sample_packet) 0 0; EvSqSendNull 0 0].
Proof. vm_compute. reflexivity. Qed.

Lemma get_ist_set_ist w r s r' :
  get_ist (set_ist w r s) r' =
  (fun x => if decide (r' = r) then s else x) <$> get_ist w r'.
Proof.
  unfold get_ist, set_ist. simpl. destruct r as [i j], r' as [i' j']. simpl.
  destruct (decide (i' = i)) as [->|Hi].
  - rewrite list_lookup_alter_eq. destruct (input_files w !! i) as [f|]; simpl;
      [|reflexivity].
    destruct (decide (j' = j)) as [->|Hj].
    + destruct (if_streams f !! j) as [x|] eqn:E.
      * rewrite list_lookup_insert_eq by (apply lookup_lt_Some in E; exact E).
        simpl. f_equal. repeat case_decide; congruence.
      * rewrite list_insert_ge by (apply lookup_ge_None in E; exact E).
        rewrite E. reflexivity.
    + rewrite list_lookup_insert_ne by congruence.
      destruct (if_streams f !! j'); simpl; [|reflexivity].
      f_equal. repeat case_decide; congruence.
  - rewrite list_lookup_alter_ne by congruence.
    destruct (input_files w !! i') as [f|]; [|reflexivity].
    destruct (if_streams f !! j'); simpl; [|reflexivity].
    f_equal. repeat case_decide; congruence.
Qed.

Lemma get_ist_file w fi i s :
  get_ist w (fi, i) = Some s -> is_Some (input_files w !! fi).
Proof.
  unfold get_ist. simpl. destruct (input_files w !! fi); [eauto|discriminate].
Qed.

(** With no packet and [no_eof] set the loop over the outputs does
    nothing. *)
Lemma streamcopy_outputs_skip outs ex d w :
  streamcopy_outputs outs None 1 ex d w = w.
Proof.
  induction outs as [|o outs IH]; [reflexivity|].
  cbn [streamcopy_outputs is_null]. change (negb (1 =? 0)) with true.
  destruct (get_ost w o) as [ost|]; [|exact IH].
  rewrite orb_true_r. exact IH.
Qed.

Lemma process_input_packet_flush opt w r s :
  get_ist w r = Some s -> ist_file_index s = r.1 ->
  process_input_packet opt w r None 1 =
  (of_bool (negb (((if decoding_needed s =? 0 then 0
                    else dec_ret (next_answer s)) =? AVERROR_EOF)
                  || (decoding_needed s =? 0))),
   if decoding_needed s =? 0 then w
   else emit (EvDecPacket r None 1 (dec_ret (next_answer s)))
             (set_ist w r (after_answer s))).
Proof.
  intros Hs Hfi. destruct r as [fi i].
  destruct (get_ist_file w fi i s Hs) as [f Hf].
  rewrite (process_input_packet_valid opt w (fi, i) None 1 s f Hs)
    by (rewrite Hfi; exact Hf).
  rewrite streamcopy_outputs_skip. reflexivity.
Qed.

Lemma drain_fields script : forall s,
  ist_file_index (drain script s) = ist_file_index s /\
  discard (drain script s) = discard s /\
  decoding_needed (drain script s) = decoding_needed s /\
  par_codec_type (drain script s) = par_codec_type s.
Proof.
  induction script as [|a rest IH]; intros s; simpl; [auto|].
  destruct (dec_ret a =? AVERROR_EOF); [auto|].
  destruct (IH (after_answer s)) as (H1 & H2 & H3 & H4). auto.
Qed.

(** The flush loop of a stream that is decoded ends once the script has
    been played up to its first end-of-file answer. *)
Lemma flush_loop_decoded opt r script :
  forall w s fuel,
    get_ist w r = Some s -> decoder s = script ->
    decoding_needed s <> 0 -> ist_file_index s = r.1 ->
    (length script < fuel)%nat ->
    exists w',
      flush_loop fuel opt w r = Some w' /\
      trace w' = trace w ++ flush_events r script /\
      updated w w' r (drain script s).
Proof.
  induction script as [|a rest IH]; intros w s fuel Hs Hscr Hdn Hfi Hfuel.
  - destruct fuel as [|fuel]; [lia|]. cbn [flush_loop].
    rewrite (process_input_packet_flush opt w r s Hs Hfi).
    apply Z.eqb_neq in Hdn. rewrite Hdn.
    unfold next_answer. rewrite Hscr. cbn [dec_ret drained].
    rewrite Z.eqb_refl. cbn [orb negb of_bool]. change (0 <? 0) with false.
    eexists. split; [reflexivity|]. split; [reflexivity|].
    intros r'. simpl. rewrite get_ist_emit, get_ist_set_ist. reflexivity.
  - destruct fuel as [|fuel]; [lia|]. cbn [flush_loop].
    rewrite (process_input_packet_flush opt w r s Hs Hfi).
    pose proof Hdn as Hdn'. apply Z.eqb_neq in Hdn'. rewrite Hdn'.
    unfold next_answer. rewrite Hscr. rewrite orb_false_r.
    cbn [flush_events drain].
    destruct (dec_ret a =? AVERROR_EOF) eqn:Ea.
    + cbn [negb of_bool]. change (0 <? 0) with false.
      eexists. split; [reflexivity|]. split; [reflexivity|].
      intros r'. rewrite get_ist_emit, get_ist_set_ist. reflexivity.
    + cbn [negb of_bool]. change (0 <? 1) with true.
      set (w1 := emit (EvDecPacket r None 1 (dec_ret a))
                      (set_ist w r (after_answer s))).
      assert (Hs1 : get_ist w1 r = Some (after_answer s)).
      { subst w1. rewrite get_ist_emit, get_ist_set_ist, Hs. simpl.
        f_equal. repeat case_decide; congruence. }
      destruct (IH w1 (after_answer s) fuel Hs1) as (w' & E & Ht & Hu).
      { simpl. rewrite Hscr. reflexivity. }
      { exact Hdn. }
      { exact Hfi. }
      { simpl in Hfuel. lia. }
      exists w'. split; [exact E|]. split.
      * rewrite Ht. subst w1. simpl. rewrite <- app_assoc. reflexivity.
      * intros r'. rewrite Hu. subst w1.
        rewrite get_ist_emit, get_ist_set_ist.
        destruct (get_ist w r'); simpl; [|reflexivity].
        f_equal. repeat case_decide; congruence.
Qed.

Lemma file_flush_events_ext w w' fi idxs :
  (forall i, i ∈ idxs -> get_ist w' (fi, i) = get_ist w (fi, i)) ->
  file_flush_events w' fi idxs = file_flush_events w fi idxs.
Proof.
  unfold file_flush_events. induction idxs as [|i idxs IH]; intros H;
    [reflexivity|].
  simpl. rewrite (H i) by left. f_equal. apply IH.
  intros j Hj. apply H. right. exact Hj.
Qed.

Lemma updated_wired w w' r s s' :
  wired w -> get_ist w r = Some s -> ist_file_index s' = ist_file_index s ->
  (forall r', get_ist w' r' =
              (fun x => if decide (r' = r) then s' else x) <$> get_ist w r') ->
  wired w'.
Proof.
  intros Hw Hs Hfi Hu fi i x Hx. rewrite Hu in Hx.
  destruct (get_ist w (fi, i)) as [x0|] eqn:E; [|discriminate Hx].
  simpl in Hx. inversion Hx; subst x; clear Hx.
  case_decide as Heq.
  - subst r. rewrite Hfi. apply (Hw fi i s Hs).
  - apply (Hw fi i x0 E).
Qed.

(** The loop of [decode_flush] over the streams of a file returns, and
    its calls to the collaborators are those of each stream in turn. *)
Lemma decode_flush_streams_ok opt fi fuel :
  forall idxs w,
    NoDup idxs -> wired w ->
    (forall i s, i ∈ idxs -> get_ist w (fi, i) = Some s ->
                 (length (decoder s) < fuel)%nat) ->
    exists w',
      decode_flush_streams fuel opt fi idxs w = Some w' /\
      trace w' = trace w ++ file_flush_events w fi idxs.
Proof.
  induction idxs as [|i idxs IH]; intros w Hnd Hw Hfuel.
  { exists w. split; [reflexivity|]. unfold file_flush_events. simpl.
    rewrite app_nil_r. reflexivity. }
  apply NoDup_cons in Hnd as [Hni Hnd].
  assert (Hfuel' : forall j s, j ∈ idxs -> get_ist w (fi, j) = Some s ->
                               (length (decoder s) < fuel)%nat).
  { intros j s Hj. apply Hfuel. right. exact Hj. }
  cbn [decode_flush_streams]. unfold file_flush_events. cbn [map concat].
  fold (file_flush_events w fi idxs).
  destruct (get_ist w (fi, i)) as [s|] eqn:Hs.
  2:{ destruct (IH w Hnd Hw Hfuel') as (w' & E & Ht). exists w'. auto. }
  unfold stream_flush_events.
  destruct (discard s =? 0) eqn:Ed.
  2:{ destruct (IH w Hnd Hw Hfuel') as (w' & E & Ht). exists w'. auto. }
  pose proof (Hw fi i s Hs) as Hfi.
  destruct (decoding_needed s =? 0) eqn:Edn.
  - assert (Hfl : flush_loop fuel opt w (fi, i) = Some w).
    { pose proof (Hfuel i s (list_elem_of_here _ _) Hs) as Hlt.
      destruct fuel as [|fuel]; [lia|]. cbn [flush_loop].
      rewrite (process_input_packet_flush opt w (fi, i) s Hs Hfi).
      rewrite Edn. rewrite orb_true_r. reflexivity. }
    rewrite Hfl. unfold after_flush. rewrite Hs, Edn.
    destruct (IH w Hnd Hw Hfuel') as (w' & E & Ht). exists w'. auto.
  - apply Z.eqb_neq in Edn.
    destruct (flush_loop_decoded opt (fi, i) (decoder s) w s fuel Hs eq_refl
                Edn Hfi (Hfuel i s (list_elem_of_here _ _) Hs))
      as (w1 & Hfl & Ht1 & Hu1).
    rewrite Hfl.
    destruct (drain_fields (decoder s) s) as (F1 & F2 & F3 & F4).
    assert (Hs1 : get_ist w1 (fi, i) = Some (drain (decoder s) s)).
    { rewrite Hu1, Hs. simpl. f_equal. repeat case_decide; congruence. }
    set (w2 := after_flush w1 (fi, i)).
    assert (Hg2 : forall r', get_ist w2 r' = get_ist w1 r').
    { intros r'. subst w2. unfold after_flush. rewrite Hs1.
      destruct (decoding_needed (drain (decoder s) s) =? 0); [reflexivity|].
      destruct (is_audio (par_codec_type (drain (decoder s) s))); reflexivity. }
    assert (Ht2 : trace w2 = trace w1 ++
                    (if is_audio (par_codec_type s)
                     then [EvLastFrameDuration fi i] else [])
                    ++ [EvFlushBuffers (fi, i)]).
    { subst w2. unfold after_flush. rewrite Hs1, F3, F4.
      apply Z.eqb_neq in Edn. rewrite Edn.
      destruct (is_audio (par_codec_type s)); simpl;
        [rewrite <- app_assoc|]; reflexivity. }
    assert (Hw2 : wired w2).
    { apply (updated_wired w w2 (fi, i) s (drain (decoder s) s) Hw Hs F1).
      intros r'. rewrite Hg2. apply Hu1. }
    assert (Hsame : forall j, j ∈ idxs -> get_ist w2 (fi, j) = get_ist w (fi, j)).
    { intros j Hj. rewrite Hg2, Hu1.
      destruct (get_ist w (fi, j)); simpl; [|reflexivity]. f_equal.
      case_decide as Heq; [|reflexivity].
      inversion Heq; subst j. contradiction. }
    destruct (IH w2 Hnd Hw2) as (w' & E & Ht).
    { intros j x Hj Hx. rewrite (Hsame j Hj) in Hx. apply (Hfuel' j x Hj Hx). }
    exists w'. split; [exact E|].
    rewrite Ht, (file_flush_events_ext w w2 fi idxs Hsame), Ht2, Ht1.
    simpl. rewrite <- !app_assoc. reflexivity.
Qed.

(** The calls to the decoder of one stream: answers other than
    end-of-file, then end-of-file. *)
Lemma flush_events_shape r script :
  exists rets,
    flush_events r script =
      map (fun v => EvDecPacket r None 1 v) (rets ++ [AVERROR_EOF]) /\
    Forall (fun v => v <> AVERROR_EOF) rets.
Proof.
  induction script as [|a rest (rets & E & F)].
  - exists []. split; [reflexivity|constructor].
  - simpl. destruct (dec_ret a =? AVERROR_EOF) eqn:Ea.
    + apply Z.eqb_eq in Ea. exists []. rewrite Ea. split; [reflexivity|constructor].
    + apply Z.eqb_neq in Ea. exists (dec_ret a :: rets). rewrite E.
      split; [reflexivity|]. constructor; assumption.
Qed.

Lemma flush_events_no_packet r script :
  Forall (fun e => carries_packet e = false) (flush_events r script).
Proof.
  induction script as [|a rest IH]; simpl.
  - repeat constructor.
  - constructor; [reflexivity|].
    destruct (dec_ret a =? AVERROR_EOF); [constructor|exact IH].
Qed.

Lemma file_flush_events_no_packet w fi idxs :
  Forall (fun e => carries_packet e = false) (file_flush_events w fi idxs).
Proof.
  unfold file_flush_events. induction idxs as [|i idxs IH]; simpl;
    [constructor|].
  apply Forall_app. split; [|exact IH].
  destruct (get_ist w (fi, i)) as [s|]; [|constructor].
  unfold stream_flush_events.
  destruct (discard s =? 0); [|constructor].
  destruct (decoding_needed s =? 0); [constructor|].
  apply Forall_app. split; [apply flush_events_no_packet|].
  destruct (is_audio (par_codec_type s)); repeat constructor.
Qed.

Lemma file_flush_events_app w fi l1 l2 :
  file_flush_events w fi (l1 ++ l2) =
  file_flush_events w fi l1 ++ file_flush_events w fi l2.
Proof. unfold file_flush_events. rewrite map_app, concat_app. reflexivity. Qed.

(** C8.  When [ifile_get_packet] returns 1, [process_input] returns
    retry-again after [decode_flush] has, for every stream of the file
    that is not discarded and is decoded, pushed null packets (with
    [no_eof] set) through [process_input_packet] until the decoder
    answered end-of-file and then flushed the codec buffers; nothing else
    is asked of the collaborators in that call, in particular no packet
    is decoded, muxed or used for a heartbeat.  A stream that is not
    decoded has no decoder to drain: its single null packet reports
    end-of-file at once.  The decoder is a script of answers that ends
    in end-of-file; [fuel] only has to exceed the length of the scripts. *)
Theorem process_input_looped opt w fi pkt fuel :
  wired w ->
  (forall i s, get_ist w (fi, i) = Some s -> (length (decoder s) < fuel)%nat) ->
  exists w',
    process_input fuel opt w fi (1, pkt) = Some (Returned AVERROR_EAGAIN, w') /\
    trace w' = trace w ++ file_flush_events w fi (seq 0 (nb_streams w fi)) /\
    Forall (fun e => carries_packet e = false)
           (file_flush_events w fi (seq 0 (nb_streams w fi))) /\
    (forall i s,
       get_ist w (fi, i) = Some s -> discard s = 0 -> decoding_needed s <> 0 ->
       exists pre post rets,
         file_flush_events w fi (seq 0 (nb_streams w fi)) =
           pre
           ++ map (fun v => EvDecPacket (fi, i) None 1 v) (rets ++ [AVERROR_EOF])
           ++ (if is_audio (par_codec_type s)
               then [EvLastFrameDuration fi i] else [])
           ++ [EvFlushBuffers (fi, i)]
           ++ post /\
         Forall (fun v => v <> AVERROR_EOF) rets) /\
    (forall i s,
       get_ist w (fi, i) = Some s -> discard s = 0 -> decoding_needed s = 0 ->
       process_input_packet opt w (fi, i) None 1 = (0, w)).
Proof.
  intros Hw Hfuel.
  destruct (decode_flush_streams_ok opt fi fuel (seq 0 (nb_streams w fi)) w)
    as (w' & E & Ht).
  { apply NoDup_seq. }
  { exact Hw. }
  { intros i s _ Hs. apply (Hfuel i s Hs). }
  exists w'. unfold process_input. cbn [fst snd].
  change (1 =? AVERROR_EAGAIN) with false. change (1 =? 1) with true.
  cbn iota. unfold decode_flush. rewrite E.
  split; [reflexivity|]. split; [exact Ht|].
  split; [apply file_flush_events_no_packet|]. split.
  - intros i s Hs Hd Hdn.
    assert (Hin : i ∈ seq 0 (nb_streams w fi)).
    { apply elem_of_seq. split; [lia|]. simpl.
      unfold get_ist, nb_streams in *. simpl in Hs.
      destruct (input_files w !! fi) as [f|]; [|discriminate Hs].
      apply lookup_lt_Some in Hs. exact Hs. }
    destruct (list_elem_of_split _ _ Hin) as (l1 & l2 & Hsplit).
    rewrite Hsplit.
    change (l1 ++ i :: l2) with (l1 ++ [i] ++ l2).
    rewrite !file_flush_events_app.
    destruct (flush_events_shape (fi, i) (decoder s)) as (rets & Er & Fr).
    exists (file_flush_events w fi l1), (file_flush_events w fi l2), rets.
    split; [|exact Fr]. f_equal.
    unfold file_flush_events at 1. cbn [map concat]. rewrite Hs, app_nil_r.
    unfold stream_flush_events.
    apply Z.eqb_eq in Hd. apply Z.eqb_neq in Hdn. rewrite Hd, Hdn, Er.
    cbn [fst snd]. rewrite <- !app_assoc. reflexivity.
  - intros i s Hs Hd Hdn.
    rewrite (process_input_packet_flush opt w (fi, i) s Hs (Hw fi i s Hs)).
    apply Z.eqb_eq in Hdn. rewrite Hdn, orb_true_r. reflexivity.
Qed.

Lemma sample_world_wired : wired sample_world.
Proof.
  intros fi i s H. unfold get_ist, sample_world in H. simpl in H.
  destruct fi as [|fi]; simpl in H; [|discriminate H].
  destruct i as [|[|i]]; simpl in H; inversion H; reflexivity.
Qed.

(** The loop signal on the sample file: the video decoder is drained
    over three null packets and flushed, then the subtitle decoder. *)
Lemma process_input_looped_witness :
  exists w',
    process_input 4 sample_options sample_world 0 (1, None)
      = Some (Returned AVERROR_EAGAIN, w') /\
    trace w' = trace sample_world
                 ++ file_flush_events sample_world 0
                      (seq 0 (nb_streams sample_world 0)).
Proof.
  destruct (process_input_looped sample_options sample_world 0%nat None 4
              sample_world_wired) as (w' & H1 & H2 & _).
  - intros i s H. unfold get_ist, sample_world in H. simpl in H.
    destruct i as [|[|i]]; simpl in H; inversion H; simpl; lia.
  - exists w'. split; [exact H1|exact H2].
Defined.

Example process_input_looped_sample :
  option_map (fun r => (fst r, trace (snd r)))
    (process_input 4 sample_options sample_world 0 (1, None))
  = Some (Returned AVERROR_EAGAIN,
          [ EvDecPacket (0, 0)%nat None 1 0;
            EvDecPacket (0, 0)%nat None 1 0;
            EvDecPacket (0, 0)%nat None 1 AVERROR_EOF;
            EvFlushBuffers (0, 0)%nat;
            EvDecPacket (0, 1)%nat None 1 AVERROR_EOF;
            EvFlushBuffers (0, 1)%nat ]).
Proof. vm_compute. reflexivity. Qed.

End DriverFacts.

(** ** The fix-sub-duration heartbeat *)

Module HeartbeatFacts.

Import Driver Heartbeat DriverFacts.

Section Collaborators.

Variable av_rescale_q : Z -> AVRational -> AVRational -> Z.
Variable process_subtitle :
  InputStream -> Subtitle.AVSubtitle -> Z * InputStream.

Abbreviation fix_sub := (fix_sub_duration_heartbeat process_subtitle).
Abbreviation trigger :=
  (trigger_fix_sub_duration_heartbeat av_rescale_q process_subtitle).

Lemma fix_sub_passed w ist signal_pts :
  extends_by (passed ist signal_pts) w (snd (fix_sub w ist signal_pts)).
Proof.
  unfold fix_sub_duration_heartbeat.
  destruct (get_ist w ist) as [s|]; [|apply extends_by_refl].
  destruct ((fix_sub_duration s =? 0)
            || (Subtitle.num_rects (prev_sub s) =? 0)
            || (signal_pts <=? Subtitle.pts (prev_sub s))) eqn:Eg;
    [apply extends_by_refl|].
  apply orb_false_iff in Eg as [Eg E3]. apply orb_false_iff in Eg as [E1 E2].
  apply Z.eqb_neq in E1. apply Z.eqb_neq in E2. apply Z.leb_gt in E3.
  destruct (Subtitle.copy_av_subtitle Subtitle.empty_subtitle (prev_sub s)
              (mem w)) as [[ret subtitle] hp].
  destruct (ret <? 0); [apply extends_by_same; reflexivity|].
  destruct (process_subtitle s (with_pts subtitle signal_pts)) as [ret' s'].
  cbn [snd].
  eapply extends_by_trans; [|apply extends_by_emit].
  - apply extends_by_same. reflexivity.
  - exists s, (with_pts subtitle signal_pts). auto.
Qed.

Lemma fix_sub_quiet w ist signal_pts s :
  get_ist w ist = Some s -> quiet s signal_pts ->
  fix_sub w ist signal_pts = (0, w).
Proof.
  intros Hs Hq. unfold fix_sub_duration_heartbeat. rewrite Hs.
  destruct Hq as [H|[H|H]].
  - apply Z.eqb_eq in H. rewrite H. reflexivity.
  - apply Z.eqb_eq in H. rewrite H, orb_true_r. reflexivity.
  - apply Z.leb_le in H. rewrite H, orb_true_r. reflexivity.
Qed.

Lemma heartbeat_streams_passed P ost fi signal_pts :
  (forall ist e, passed ist signal_pts e -> P e) ->
  forall idxs w,
    extends_by P w
      (snd (heartbeat_streams process_subtitle w ost fi idxs signal_pts)).
Proof.
  intros HP. induction idxs as [|i idxs IH]; intros w;
    [apply extends_by_refl|].
  cbn [heartbeat_streams].
  destruct (get_ost w (fi, i)) as [io|]; [|apply IH].
  destruct (ost_ist io) as [r|]; [|apply IH].
  destruct (get_ist w r) as [s|]; [|apply IH].
  destruct (bool_decide ((fi, i) = ost) || (decoding_needed s =? 0)
            || negb (is_subtitle (dec_codec_type s))); [apply IH|].
  pose proof (fix_sub_passed w r signal_pts) as Hf.
  destruct (fix_sub w r signal_pts) as [ret w1]. cbn [snd] in Hf.
  assert (Hf' : extends_by P w w1).
  { destruct Hf as (evs & E & F). exists evs. split; [exact E|].
    eapply Forall_impl; [exact F|]. intros e He. apply (HP r e He). }
  destruct (ret <? 0); [exact Hf'|].
  eapply extends_by_trans; [exact Hf'|apply IH].
Qed.

Lemma heartbeat_streams_quiet ost fi signal_pts :
  forall idxs w,
    (forall i io r s,
       get_ost w (fi, i) = Some io -> ost_ist io = Some r ->
       get_ist w r = Some s -> quiet s signal_pts) ->
    heartbeat_streams process_subtitle w ost fi idxs signal_pts = (0, w).
Proof.
  induction idxs as [|i idxs IH]; intros w Hq; [reflexivity|].
  cbn [heartbeat_streams].
  destruct (get_ost w (fi, i)) as [io|] eqn:Eo; [|apply IH, Hq].
  destruct (ost_ist io) as [r|] eqn:Er; [|apply IH, Hq].
  destruct (get_ist w r) as [s|] eqn:Es; [|apply IH, Hq].
  destruct (bool_decide ((fi, i) = ost) || (decoding_needed s =? 0)
            || negb (is_subtitle (dec_codec_type s))); [apply IH, Hq|].
  rewrite (fix_sub_quiet w r signal_pts s Es (Hq i io r s Eo Er Es)).
  change (0 <? 0) with false. cbn iota. apply IH, Hq.
Qed.

(** C10.  Everything the two heartbeat functions hand to the subtitle
    processing has passed the guard: the triggering packet is a key
    frame, the stream had fix-sub-duration enabled, its previous subtitle
    had at least one rectangle, and the re-emitted subtitle carries the
    packet's pts rescaled to [AV_TIME_BASE_Q], strictly after the pts of
    the subtitle it copies.  Where the guard fails both functions return 0
    and change nothing: without the key flag, for a stream whose guard
    fails, and when the guard fails for the input of every stream of the
    output file. *)
Theorem heartbeat_guard (w : World) (ost : ref) (pkt : AVPacket) :
  extends_by (guarded av_rescale_q pkt) w (snd (trigger w ost pkt)) /\
  (forall ist signal_pts,
     extends_by (passed ist signal_pts) w (snd (fix_sub w ist signal_pts))) /\
  (Z.land (pkt_flags pkt) AV_PKT_FLAG_KEY = 0 -> trigger w ost pkt = (0, w)) /\
  (forall ist signal_pts s,
     get_ist w ist = Some s -> quiet s signal_pts ->
     fix_sub w ist signal_pts = (0, w)) /\
  ((forall o i io r s,
      get_ost w ost = Some o ->
      get_ost w (ost_file_index o, i) = Some io -> ost_ist io = Some r ->
      get_ist w r = Some s ->
      quiet s (av_rescale_q (pkt_pts pkt) (pkt_time_base pkt) AV_TIME_BASE_Q)) ->
   trigger w ost pkt = (0, w)).
Proof.
  split; [|split; [|split; [|split]]].
  - unfold trigger_fix_sub_duration_heartbeat.
    destruct (get_ost w ost) as [o|]; [|apply extends_by_refl].
    destruct (ost_fix_sub_duration_heartbeat o =? 0);
      [apply extends_by_refl|].
    destruct (Z.land (pkt_flags pkt) AV_PKT_FLAG_KEY =? 0) eqn:Ek;
      [apply extends_by_refl|].
    apply Z.eqb_neq in Ek. cbn [orb].
    apply heartbeat_streams_passed.
    intros ist e (before & subtitle & -> & H1 & H2 & H3 & H4).
    exists ist, before, subtitle. rewrite H3.
    repeat split; first [assumption | reflexivity].
  - intros ist signal_pts. apply fix_sub_passed.
  - intros Hk. unfold trigger_fix_sub_duration_heartbeat.
    destruct (get_ost w ost) as [o|]; [|reflexivity].
    apply Z.eqb_eq in Hk. rewrite Hk, orb_true_r. reflexivity.
  - intros ist signal_pts s. apply fix_sub_quiet.
  - intros Hq. unfold trigger_fix_sub_duration_heartbeat.
    destruct (get_ost w ost) as [o|] eqn:Eo; [|reflexivity].
    destruct ((ost_fix_sub_duration_heartbeat o =? 0)
              || (Z.land (pkt_flags pkt) AV_PKT_FLAG_KEY =? 0));
      [reflexivity|].
    apply heartbeat_streams_quiet. intros i io r s. apply (Hq o i io r s eq_refl).
Qed.

End Collaborators.

(** The key packet of the sample video stream at three seconds re-emits
    the subtitle of the second stream, shown since one second, at three
    seconds; a second heartbeat at the same pts emits nothing. *)
Example heartbeat_sample :
  let r := trigger_fix_sub_duration_heartbeat rescale_floor keep_subtitle
             sample_world (0, 0)%nat sample_packet in
  fst r = 0 /\
  trace (snd r) =
    [EvProcessSubtitle (0, 1)%nat sample_subtitles
       (with_pts (Subtitle.copied (prev_sub sample_subtitles)) 3000000)] /\
  trigger_fix_sub_duration_heartbeat rescale_floor keep_subtitle
    (snd r) (0, 0)%nat sample_packet = (0, snd r).
Proof. vm_compute. repeat split; reflexivity. Qed.

End HeartbeatFacts.

(** ** The end of [transcode] and the exit of [main] *)

Module MainFacts.

Import Driver Main DriverFacts.

Lemma ist_scan_shape files fi k :
  ist_scan files fi k =
  scan_shape (map (fun f => length (if_streams f)) files) fi k.
Proof.
  revert fi k. induction files as [|f files IH]; intros fi k; [reflexivity|].
  simpl. destruct (decide (k < length (if_streams f))%nat); [reflexivity|].
  apply IH.
Qed.

Lemma scan_shape_next sh : forall fi k fi' k',
  scan_shape sh fi k = Some (fi', k') ->
  exists j,
    fi' = (fi + j)%nat /\
    (left_to_visit (drop j sh) (S k') < left_to_visit sh k)%nat.
Proof.
  induction sh as [|n sh IH]; intros fi k fi' k' H; [discriminate H|].
  simpl in H. destruct (decide (k < n)%nat) as [Hlt|Hge].
  - inversion H; subst. exists 0%nat. split; [lia|]. simpl. lia.
  - destruct (IH (S fi) 0%nat fi' k' H) as (j & -> & Hm).
    exists (S j). split; [lia|]. simpl. lia.
Qed.

Lemma shape_set_ist w r s : shape (set_ist w r s) = shape w.
Proof.
  unfold shape, set_ist. simpl. destruct r as [i j]. simpl.
  generalize (input_files w). intros l. revert i.
  induction l as [|f l IH]; intros i; [reflexivity|].
  destruct i as [|i]; simpl.
  - rewrite length_insert. reflexivity.
  - f_equal. apply IH.
Qed.

Lemma input_files_streamcopy outs pkt no_eof ex d :
  forall w,
    input_files (streamcopy_outputs outs pkt no_eof ex d w) = input_files w.
Proof.
  induction outs as [|o outs IH]; intros w; [reflexivity|].
  cbn [streamcopy_outputs]. destruct (get_ost w o) as [ost|]; [|apply IH].
  destruct (enc ost || (is_null pkt && negb (no_eof =? 0))); [apply IH|].
  destruct ex; rewrite IH; [|reflexivity].
  unfold close_output_stream. destruct (get_ost w o) as [x|]; [|reflexivity].
  destruct (0 <=? sq_idx_encode x); reflexivity.
Qed.

Lemma get_ist_inputs w w' r :
  input_files w' = input_files w -> get_ist w' r = get_ist w r.
Proof. intros H. unfold get_ist. rewrite H. reflexivity. Qed.

Lemma in_indexed_inputs w w' :
  input_files w' = input_files w -> in_indexed w -> in_indexed w'.
Proof.
  intros H Hw fi i s Hs. rewrite (get_ist_inputs w w' _ H) in Hs.
  apply (Hw fi i s Hs).
Qed.

Lemma in_indexed_answer w r s :
  in_indexed w -> get_ist w r = Some s ->
  in_indexed (set_ist w r (after_answer s)).
Proof.
  intros Hw Hs fi i x Hx. rewrite get_ist_set_ist in Hx.
  destruct (get_ist w (fi, i)) as [x0|] eqn:E; [|discriminate Hx].
  simpl in Hx. inversion Hx; subst x; clear Hx.
  case_decide as Heq.
  - subst r. apply (Hw fi i s Hs).
  - apply (Hw fi i x0 E).
Qed.

(** [process_input_packet] keeps the numbers of streams and the recorded
    positions. *)
Lemma process_input_packet_steady opt w r pkt no_eof :
  in_indexed w ->
  shape (snd (process_input_packet opt w r pkt no_eof)) = shape w /\
  in_indexed (snd (process_input_packet opt w r pkt no_eof)).
Proof.
  intros Hw. unfold process_input_packet.
  destruct (get_ist w r) as [s|] eqn:Hs; [|auto].
  destruct (input_files w !! ist_file_index s) as [f|]; [|auto].
  rewrite (dec_packet_valid w r pkt no_eof s Hs).
  destruct (decoding_needed s =? 0); cbn [snd].
  - split.
    + unfold shape. rewrite input_files_streamcopy. reflexivity.
    + eapply in_indexed_inputs; [apply input_files_streamcopy|exact Hw].
  - split.
    + unfold shape. rewrite input_files_streamcopy.
      apply (shape_set_ist w r (after_answer s)).
    + eapply in_indexed_inputs; [apply input_files_streamcopy|].
      apply (in_indexed_inputs (set_ist w r (after_answer s)));
        [reflexivity|].
      apply in_indexed_answer; assumption.
Qed.

Lemma finished_world_indexed : in_indexed finished_world.
Proof.
  intros fi i s H. unfold get_ist, finished_world in H. simpl in H.
  destruct fi as [|fi]; simpl in H; [|discriminate H].
  destruct i as [|[|i]]; simpl in H; inversion H; auto.
Qed.

(** The quotient of the two counters is an integer division: while the
    sum of the counters does not wrap it is 1 when every packet failed
    and 0 otherwise, and the conversion to [float] keeps both. *)
Lemma err_rate_integer s :
  0 <= frames_decoded s -> 0 <= decode_errors s ->
  frames_decoded s + decode_errors s < 2 ^ 64 ->
  err_rate s =
  Some (inject_Z (if (frames_decoded s =? 0) && (0 <? decode_errors s)
                  then 1 else 0)).
Proof.
  intros Hf He Hsum. unfold err_rate.
  rewrite CIntFacts.wrapu64_id by lia.
  destruct (frames_decoded s =? 0) eqn:Ef;
    [apply Z.eqb_eq in Ef | apply Z.eqb_neq in Ef].
  - rewrite Ef, Z.add_0_l. destruct (decode_errors s =? 0) eqn:Ee; simpl.
    + apply Z.eqb_eq in Ee. rewrite Ee. reflexivity.
    + apply Z.eqb_neq in Ee.
      assert (Hp : (0 <? decode_errors s) = true) by (apply Z.ltb_lt; lia).
      rewrite Hp, Z.div_same by lia. reflexivity.
  - simpl.
    assert (Hz : (frames_decoded s + decode_errors s =? 0) = false)
      by (apply Z.eqb_neq; lia).
    rewrite Hz, Z.div_small by lia. reflexivity.
Qed.

(** The conversion to [float] keeps 24 significant bits: 2^24 + 1 becomes
    2^24, 2^24 + 3 becomes 2^24 + 4, and 2^64 - 1 becomes 2^64. *)
Lemma float_of_uint64_rounds :
  float_of_uint64 16777217 = 16777216 /\
  float_of_uint64 16777219 = 16777220 /\
  float_of_uint64 (2 ^ 64 - 1) = 2 ^ 64.
Proof. repeat split; vm_compute; reflexivity. Qed.

(** Counters whose sum wraps to 0 make the last loop of [transcode]
    divide by zero. *)
Lemma transcode_end_division_by_zero :
  transcode_end flush_ends trailer_ok first_error 3 sample_options
    Report.first_call 0 wrapped_world = Some (Faulted wrapped_world).
Proof. vm_compute. reflexivity. Qed.

(** C1, at the input of the error-rate scenario.  A stream with 4 decoded frames
    and 6 decode errors has failed on 60% of its packets, above the
    maximum of one half; the rate [transcode] computes is 0, it logs
    nothing, leaves [err_rate_exceeded] at 0, and [main] exits with the
    value [transcode] returned, 0, not 69. *)
Theorem transcode_error_rate_truncated :
  frames_decoded sample_video = 4 /\
  decode_errors sample_video = 6 /\
  (max_error_rate sample_options < 6 # 10)%Q /\
  err_rate sample_video = Some 0%Q /\
  (exists w',
     transcode_end flush_ends trailer_ok first_error 3 sample_options
       Report.first_call 0 finished_world
       = Some (Ended (0, 0, w')) /\
     trace w' = [EvEncFlush; EvTermExit; EvWriteTrailer 0 0; EvPrintReport 1]) /\
  main flush_ends trailer_ok first_error 3 sample_options Report.first_call
    0 0 finished_world (Signal.initial 0) = Some (Ended 0).
Proof.
  split; [reflexivity|]. split; [reflexivity|]. split; [reflexivity|].
  split; [reflexivity|]. split; [|vm_compute; reflexivity].
  eexists. split; vm_compute; reflexivity.
Qed.

End MainFacts.

(** ** Traversal of the output streams and the retry valve *)

Module TraversalFacts.

Import Selector Driver Traversal SelectorFacts DriverFacts.

Lemma ost_walk_from ofs :
  indexed ofs ->
  forall fuel pre f post k,
    ofs = pre ++ f :: post ->
    (length (drop k (of_streams f) ++ all_streams post) < fuel)%nat ->
    ost_walk fuel ofs (ost_scan (f :: post) k) =
    Some (drop k (of_streams f) ++ all_streams post).
Proof.
  intros Hix. induction fuel as [|fuel IH]; intros pre f post k Hofs Hlen.
  { lia. }
  rewrite ost_scan_head.
  destruct (drop k (of_streams f) ++ all_streams post) as [|o R] eqn:ER.
  { reflexivity. }
  destruct (remaining_head pre f post k o R ER)
    as (pre' & f' & post' & k' & E1 & E2 & E3).
  assert (Hnext : ost_iter ofs (Some o) = ost_scan (f' :: post') (S k')).
  { apply (ost_iter_next ofs pre'); [exact Hix|congruence|exact E2]. }
  simpl in Hlen. cbn [head ost_walk]. rewrite Hnext.
  rewrite (IH pre' f' post' (S k')); [rewrite E3; reflexivity|congruence|].
  rewrite <- E3. lia.
Qed.

(** X1.  The iterator, started at NULL and fed its own result, visits every
    output stream once, file by file and stream by stream, skipping
    files without streams, and then returns NULL. *)
Theorem ost_iter_visits_all ofs fuel :
  indexed ofs -> (length (all_streams ofs) < fuel)%nat ->
  ost_walk fuel ofs (ost_iter ofs None) = Some (all_streams ofs).
Proof.
  intros Hix Hlen. unfold ost_iter. destruct ofs as [|f post].
  - destruct fuel; reflexivity.
  - pose proof (ost_walk_from (f :: post) Hix fuel [] f post 0%nat) as H.
    rewrite drop_0 in H. apply H; [reflexivity|exact Hlen].
Qed.

Lemma ost_iter_visits_all_witness :
  ost_walk 4 two_files (ost_iter two_files None)
  = Some [copy_stream 0 0 900; copy_stream 0 1 400; copy_stream 1 0 400].
Proof.
  apply (ost_iter_visits_all two_files 4 two_files_indexed).
  vm_compute. lia.
Defined.

Lemma all_streams_reset w :
  all_streams (output_files (reset_eagain w)) =
  map (fun o => with_unavailable o 0) (all_streams (output_files w)).
Proof.
  unfold reset_eagain, all_streams. simpl.
  induction (output_files w) as [|f l IH]; [reflexivity|].
  simpl. rewrite IH, map_app. reflexivity.
Qed.

Lemma indexed_reset w :
  indexed (output_files w) -> indexed (output_files (reset_eagain w)).
Proof.
  intros Hix i f j o Hi Hj. unfold reset_eagain in Hi. simpl in Hi.
  change (map ?g ?l) with (g <$> l) in Hi.
  rewrite list_lookup_fmap in Hi.
  destruct (output_files w !! i) as [f0|] eqn:E0; [|discriminate Hi].
  simpl in Hi. inversion Hi; subst f; clear Hi. simpl in Hj.
  change (map ?g ?l) with (g <$> l) in Hj.
  rewrite list_lookup_fmap in Hj.
  destruct (of_streams f0 !! j) as [o0|] eqn:E1; [|discriminate Hj].
  simpl in Hj. inversion Hj; subst o; clear Hj. simpl.
  apply (Hix i f0 j o0 E0 E1).
Qed.

(** The scan does not look at [unavailable]. *)
Lemma select_available l : forall m om,
  select (map (fun o => with_unavailable o 0) l) m
         ((fun o => with_unavailable o 0) <$> om)
  = (fun o => with_unavailable o 0) <$> select l m om.
Proof.
  induction l as [|a l IH]; intros m om; [reflexivity|].
  simpl.
  change (unprimed (with_unavailable a 0)) with (unprimed a).
  change (opts (with_unavailable a 0)) with (opts a).
  destruct (unprimed a); [reflexivity|].
  destruct ((finished a =? 0) && (opts a <? m)).
  - apply (IH (opts a) (Some a)).
  - apply IH.
Qed.

(** X3.  The retry valve: [reset_eagain] does not change which stream the
    selector picks, and after it the selector no longer answers
    retry-again: it returns 0 for the stream it had refused as
    unavailable, and end-of-file as before when there is none. *)
Theorem reset_eagain_opens_valve (w : World) :
  indexed (output_files w) ->
  exists ret post,
    choose_output (output_files w) = Some (ret, post) /\
    choose_output (output_files (reset_eagain w)) =
      Some (if ret =? AVERROR_EAGAIN then 0 else ret,
            (fun o => with_unavailable o 0) <$> post) /\
    (ret = AVERROR_EAGAIN \/ ret = 0 \/ ret = AVERROR_EOF) /\
    (if ret =? AVERROR_EAGAIN then 0 else ret) <> AVERROR_EAGAIN.
Proof.
  intros Hix. unfold choose_output, choose_output_fuel.
  rewrite (choose_loop_all (output_files w)) by (exact Hix || lia).
  rewrite (choose_loop_all (output_files (reset_eagain w)))
    by (apply indexed_reset, Hix || lia).
  rewrite all_streams_reset.
  pose proof (select_available (all_streams (output_files w)) INT64_MAX None)
    as Hsel. simpl in Hsel. rewrite Hsel.
  destruct (select (all_streams (output_files w)) INT64_MAX None) as [o|].
  - simpl. destruct (unavailable o =? 0); do 2 eexists;
      (split; [reflexivity|]); (split; [reflexivity|]);
      split; auto; try discriminate.
  - simpl. do 2 eexists. split; [reflexivity|]. split; [reflexivity|].
    split; auto; try discriminate.
Qed.

Lemma stalled_world_indexed : indexed (output_files stalled_world).
Proof.
  intros i f j o Hi Hj.
  destruct i as [|i]; simpl in Hi; inversion Hi; subst f;
    destruct j as [|[|[|j]]]; simpl in Hj; inversion Hj; subst o; auto.
Qed.

(** The stalled sample: the selector refuses the subtitle output, and
    accepts it after the reset. *)
Lemma reset_eagain_opens_valve_witness :
  choose_output (output_files stalled_world)
    = Some (AVERROR_EAGAIN, Some (with_unavailable sample_subtitle_out 1)) /\
  choose_output (output_files (reset_eagain stalled_world))
    = Some (0, Some sample_subtitle_out).
Proof.
  destruct (reset_eagain_opens_valve stalled_world stalled_world_indexed)
    as (ret & post & H1 & H2 & _).
  assert (E : choose_output (output_files stalled_world)
              = Some (AVERROR_EAGAIN,
                      Some (with_unavailable sample_subtitle_out 1)))
    by reflexivity.
  split; [exact E|].
  rewrite E in H1. inversion H1; subst ret post. exact H2.
Defined.

Lemma partly_cleared_length f k :
  length (of_streams (partly_cleared f k)) = length (of_streams f).
Proof.
  unfold partly_cleared. simpl.
  rewrite length_app, length_map, length_take, length_drop. lia.
Qed.

Lemma partly_cleared_ge f k :
  (length (of_streams f) <= k)%nat -> partly_cleared f k = cleared f.
Proof.
  intros H. unfold partly_cleared, cleared.
  rewrite take_ge, drop_ge, app_nil_r by exact H. reflexivity.
Qed.

Lemma partly_cleared_0 f : partly_cleared f 0 = f.
Proof. destruct f as [l]. unfold partly_cleared. simpl. rewrite drop_0. reflexivity. Qed.

Lemma partly_cleared_lookup f k o :
  of_streams f !! k = Some o -> of_streams (partly_cleared f k) !! k = Some o.
Proof.
  intros H. unfold partly_cleared. simpl.
  pose proof (lookup_lt_Some _ _ _ H) as Hlt.
  rewrite lookup_app_r; rewrite length_map, length_take; [|lia].
  replace (k - k `min` length (of_streams f))%nat with 0%nat by lia.
  rewrite lookup_drop, Nat.add_0_r. exact H.
Qed.

Lemma partly_cleared_step f k o :
  of_streams f !! k = Some o ->
  {| of_streams :=
       <[k := with_unavailable o 0]> (of_streams (partly_cleared f k)) |}
  = partly_cleared f (S k).
Proof.
  intros H. unfold partly_cleared. simpl. f_equal.
  pose proof (lookup_lt_Some _ _ _ H) as Hlt.
  rewrite (take_S_r _ _ _ H), map_app. simpl.
  rewrite (drop_S _ _ _ H).
  set (A := map (fun o0 => with_unavailable o0 0) (take k (of_streams f))).
  assert (HA : length A = k).
  { subst A. rewrite length_map, length_take. lia. }
  rewrite <- (Nat.add_0_r k) at 1. rewrite <- HA at 1.
  rewrite insert_app_r. simpl. rewrite <- app_assoc. reflexivity.
Qed.

Lemma get_ost_at w L X post k :
  output_files w = L ++ X :: post ->
  get_ost w (length L, k) = of_streams X !! k.
Proof.
  intros H. unfold get_ost. simpl. rewrite H.
  rewrite lookup_app_r by lia. rewrite Nat.sub_diag. reflexivity.
Qed.

Lemma set_ost_at w L X post k v :
  output_files w = L ++ X :: post ->
  output_files (set_ost w (length L, k) v)
  = L ++ {| of_streams := <[k := v]> (of_streams X) |} :: post.
Proof.
  intros H. unfold set_ost. simpl. rewrite H.
  rewrite <- (Nat.add_0_r (length L)). rewrite alter_app_r. reflexivity.
Qed.

Lemma partly_cleared_done f k o :
  of_streams f !! k = Some o ->
  of_streams (partly_cleared f (S k)) !! k = Some (with_unavailable o 0).
Proof.
  intros H. unfold partly_cleared. simpl.
  pose proof (lookup_lt_Some _ _ _ H) as Hlt.
  rewrite (take_S_r _ _ _ H), map_app, <- app_assoc. simpl.
  rewrite lookup_app_r; rewrite length_map, length_take; [|lia].
  replace (k - k `min` length (of_streams f))%nat with 0%nat by lia.
  reflexivity.
Qed.

(** One round of the second loop of [reset_eagain]. *)
Lemma clear_unavailable_step P f post k o w fuel :
  indexed (P ++ f :: post) ->
  of_streams f !! k = Some o ->
  output_files w = map cleared P ++ partly_cleared f k :: post ->
  let w1 := set_ost w (length P, k) (with_unavailable o 0) in
  clear_unavailable (S fuel) (Some (length P, k)) w =
    clear_unavailable fuel
      (ost_scan_at (partly_cleared f (S k) :: post) (length P) (S k)) w1 /\
  output_files w1 = map cleared P ++ partly_cleared f (S k) :: post.
Proof.
  intros Hix Ho Hw w1.
  assert (HL : length (map cleared P) = length P) by apply length_map.
  pose proof (get_ost_at w (map cleared P) _ _ k Hw) as Hget.
  rewrite HL, (partly_cleared_lookup f k o Ho) in Hget.
  assert (Hw1 : output_files w1
                = map cleared P ++ partly_cleared f (S k) :: post).
  { subst w1. rewrite <- HL.
    rewrite (set_ost_at w (map cleared P) _ _ k _ Hw).
    rewrite (partly_cleared_step f k o Ho). reflexivity. }
  split; [|exact Hw1].
  cbn [clear_unavailable]. rewrite Hget. fold w1.
  assert (Hget1 : get_ost w1 (length P, k) = Some (with_unavailable o 0)).
  { pose proof (get_ost_at w1 (map cleared P) _ _ k Hw1) as H.
    rewrite HL in H. rewrite H. apply partly_cleared_done, Ho. }
  unfold ost_iter_at. rewrite Hget1.
  destruct (Hix (length P) f k o) as [Hfi Hsi]; [|exact Ho|].
  { rewrite lookup_app_r by lia. rewrite Nat.sub_diag. reflexivity. }
  change (ost_file_index (with_unavailable o 0)) with (ost_file_index o).
  change (ost_index (with_unavailable o 0)) with (ost_index o).
  rewrite Hfi, Hsi, Hw1, <- HL, drop_app_length. reflexivity.
Qed.

(** The second loop of [reset_eagain], from stream [k] of the file after
    [P]: it ends with every stream of every file available again. *)
Lemma clear_unavailable_from post :
  forall P f n k w fuel,
    indexed (P ++ f :: post) ->
    n = (length (of_streams f) - k)%nat ->
    output_files w = map cleared P ++ partly_cleared f k :: post ->
    (n + length (all_streams post) < fuel)%nat ->
    exists w',
      clear_unavailable fuel
        (ost_scan_at (partly_cleared f k :: post) (length P) k) w = Some w' /\
      output_files w' = map cleared (P ++ f :: post) /\
      input_files w' = input_files w /\ mem w' = mem w /\ trace w' = trace w.
Proof.
  induction post as [|f' post' IHpost]; intros P f n; induction n as [|n IHn];
    intros k w fuel Hix Hn Hw Hfuel.
  - cbn [ost_scan_at]. rewrite partly_cleared_length.
    destruct (decide (k < length (of_streams f))%nat) as [Hlt|Hge]; [lia|].
    exists w. split; [destruct fuel; reflexivity|].
    rewrite Hw, partly_cleared_ge by lia.
    rewrite map_app. auto.
  - cbn [ost_scan_at]. rewrite partly_cleared_length.
    destruct (decide (k < length (of_streams f))%nat) as [Hlt|Hge]; [|lia].
    destruct (lookup_lt_is_Some_2 (of_streams f) k Hlt) as [o Ho].
    destruct fuel as [|fuel]; [lia|].
    destruct (clear_unavailable_step P f [] k o w fuel Hix Ho Hw) as [E Hw1].
    rewrite E.
    destruct (IHn (S k) (set_ost w (length P, k) (with_unavailable o 0)) fuel
                Hix) as (w' & E' & H1 & H2 & H3 & H4); [lia|exact Hw1|lia|].
    exists w'. auto.
  - cbn [ost_scan_at]. rewrite partly_cleared_length.
    destruct (decide (k < length (of_streams f))%nat) as [Hlt|Hge]; [lia|].
    destruct (IHpost (P ++ [f]) f' (length (of_streams f')) 0%nat w fuel)
      as (w' & E' & H1 & H2); auto.
    + rewrite <- app_assoc. exact Hix.
    + lia.
    + rewrite Hw, partly_cleared_ge, partly_cleared_0 by lia.
      rewrite map_app, <- app_assoc. reflexivity.
    + rewrite all_streams_cons, length_app in Hfuel. lia.
    + exists w'. rewrite length_app, Nat.add_1_r in E'.
      rewrite (partly_cleared_0 f') in E'.
      split; [exact E'|]. rewrite H1, <- app_assoc. auto.
  - cbn [ost_scan_at]. rewrite partly_cleared_length.
    destruct (decide (k < length (of_streams f))%nat) as [Hlt|Hge]; [|lia].
    destruct (lookup_lt_is_Some_2 (of_streams f) k Hlt) as [o Ho].
    destruct fuel as [|fuel]; [lia|].
    destruct (clear_unavailable_step P f (f' :: post') k o w fuel Hix Ho Hw)
      as [E Hw1].
    rewrite E.
    destruct (IHn (S k) (set_ost w (length P, k) (with_unavailable o 0)) fuel
                Hix) as (w' & E' & H1 & H2 & H3 & H4); [lia|exact Hw1|lia|].
    exists w'. auto.
Qed.

Lemma clear_eagain_from l :
  forall pre w,
    input_files w = pre ++ l ->
    input_files (clear_eagain (seq (length pre) (length l)) w)
      = pre ++ map (fun f => with_eagain f 0) l /\
    output_files (clear_eagain (seq (length pre) (length l)) w)
      = output_files w /\
    mem (clear_eagain (seq (length pre) (length l)) w) = mem w /\
    trace (clear_eagain (seq (length pre) (length l)) w) = trace w.
Proof.
  induction l as [|a l IH]; intros pre w Hw.
  - simpl. rewrite app_nil_r in *. auto.
  - cbn [length seq clear_eagain].
    set (w1 := set_file w (length pre) (fun f => with_eagain f 0)).
    assert (Hw1 : input_files w1 = (pre ++ [with_eagain a 0]) ++ l).
    { subst w1. unfold set_file. simpl. rewrite Hw.
      rewrite <- (Nat.add_0_r (length pre)), alter_app_r, <- app_assoc.
      reflexivity. }
    destruct (IH (pre ++ [with_eagain a 0]) w1 Hw1) as (H1 & H2 & H3 & H4).
    rewrite length_app, Nat.add_1_r in H1, H2, H3, H4.
    rewrite H1, H2, H3, H4, <- app_assoc. auto.
Qed.

Lemma world_ext (a b : World) :
  input_files a = input_files b -> output_files a = output_files b ->
  mem a = mem b -> trace a = trace b -> a = b.
Proof. destruct a, b. simpl. intros. subst. reflexivity. Qed.

(** X2.  [reset_eagain], run as the source writes it with an index loop over
    the input files and the iterator over the output streams, ends and
    leaves exactly this: [eagain] is 0 in every input file and
    [unavailable] is 0 in every output stream, and nothing else has
    changed. *)
Theorem reset_eagain_loops_clear (w : World) (fuel : nat) :
  indexed (output_files w) ->
  (length (all_streams (output_files w)) < fuel)%nat ->
  reset_eagain_loops fuel w = Some (reset_eagain w).
Proof.
  intros Hix Hfuel. unfold reset_eagain_loops.
  destruct (clear_eagain_from (input_files w) [] w eq_refl)
    as (H1 & H2 & H3 & H4).
  simpl in H1, H2, H3, H4.
  set (w1 := clear_eagain (seq 0 (length (input_files w))) w) in *.
  unfold ost_iter_at. rewrite H2.
  destruct (output_files w) as [|f post] eqn:Eo.
  - destruct fuel; simpl; f_equal; apply world_ext; simpl; rewrite ?Eo; auto.
  - destruct (clear_unavailable_from post [] f (length (of_streams f)) 0%nat
                w1 fuel) as (w' & E & G1 & G2 & G3 & G4).
    + exact Hix.
    + lia.
    + rewrite H2, partly_cleared_0. reflexivity.
    + rewrite all_streams_cons, length_app in Hfuel. lia.
    + rewrite partly_cleared_0 in E. cbn [length] in E. rewrite E. f_equal.
      apply world_ext; simpl; rewrite ?Eo; try congruence.
      rewrite G1. reflexivity.
Qed.

Lemma reset_eagain_loops_clear_witness :
  reset_eagain_loops 4 stalled_world = Some (reset_eagain stalled_world).
Proof.
  apply (reset_eagain_loops_clear stalled_world 4 stalled_world_indexed).
  vm_compute. lia.
Defined.

End TraversalFacts.

(** ** What the input driver keeps and what it hands on *)

Module DispatchFacts.

Import Driver Dispatch DriverFacts.

Lemma only_closes_refl w : only_closes w w.
Proof. intros o. left. reflexivity. Qed.

Lemma only_closes_same w w' :
  output_files w' = output_files w -> only_closes w w'.
Proof. intros H o. left. unfold get_ost. rewrite H. reflexivity. Qed.

Lemma only_closes_trans w1 w2 w3 :
  only_closes w1 w2 -> only_closes w2 w3 -> only_closes w1 w3.
Proof.
  intros H12 H23 o. destruct (H23 o) as [E|E]; rewrite E;
    destruct (H12 o) as [E'|E']; rewrite E'; auto.
  right. destruct (get_ost w1 o); simpl; [|reflexivity].
  rewrite closed_idem. reflexivity.
Qed.

Lemma only_closes_close w r : only_closes w (close_output_stream w r).
Proof.
  intros o. rewrite get_ost_close.
  destruct (get_ost w o) as [x|]; simpl; [|auto].
  case_decide; auto.
Qed.

Lemma input_files_close w r :
  input_files (close_output_stream w r) = input_files w.
Proof.
  unfold close_output_stream. destruct (get_ost w r) as [x|]; [|reflexivity].
  destruct (0 <=? sq_idx_encode x); reflexivity.
Qed.

Lemma mem_close w r : mem (close_output_stream w r) = mem w.
Proof.
  unfold close_output_stream. destruct (get_ost w r) as [x|]; [|reflexivity].
  destruct (0 <=? sq_idx_encode x); reflexivity.
Qed.

(** X4.  [close_output_stream] sets [ENCODER_FINISHED] on the stream and
    clears no bit of [finished]; it changes no other field, no other
    stream and no input, and it sends the NULL frame to the sync queue
    exactly when the stream has a slot there.  There is no test on
    [finished]: closing a stream a second time leaves the stream as the
    first time left it, and sends the NULL frame to the sync queue a
    second time. *)
Theorem close_output_stream_sets_bit w r ost :
  get_ost w r = Some ost ->
  get_ost (close_output_stream w r) r = Some (closed ost) /\
  encoder_finished (closed ost) /\
  (forall b, Z.testbit (finished ost) b = true ->
             Z.testbit (finished (closed ost)) b = true) /\
  with_finished (closed ost) (finished ost) = ost /\
  (forall r', r' <> r ->
     get_ost (close_output_stream w r) r' = get_ost w r') /\
  input_files (close_output_stream w r) = input_files w /\
  trace (close_output_stream w r) =
    trace w ++ (if 0 <=? sq_idx_encode ost
                then [EvSqSendNull (ost_file_index ost) (sq_idx_encode ost)]
                else []) /\
  get_ost (close_output_stream (close_output_stream w r) r) r
    = Some (closed ost) /\
  trace (close_output_stream (close_output_stream w r) r) =
    (trace w ++ (if 0 <=? sq_idx_encode ost
                 then [EvSqSendNull (ost_file_index ost) (sq_idx_encode ost)]
                 else []))
    ++ (if 0 <=? sq_idx_encode ost
        then [EvSqSendNull (ost_file_index ost) (sq_idx_encode ost)]
        else []).
Proof.
  intros Hr.
  assert (H1 : get_ost (close_output_stream w r) r = Some (closed ost)).
  { rewrite get_ost_close, Hr. simpl. case_decide; congruence. }
  assert (Ht : trace (close_output_stream w r) =
               trace w ++ (if 0 <=? sq_idx_encode ost
                           then [EvSqSendNull (ost_file_index ost)
                                              (sq_idx_encode ost)]
                           else [])).
  { unfold close_output_stream. rewrite Hr.
    destruct (0 <=? sq_idx_encode ost); simpl; [reflexivity|].
    rewrite app_nil_r. reflexivity. }
  split; [exact H1|]. split; [apply closed_finished|].
  split; [|split; [|split; [|split; [|split; [|split]]]]].
  - intros b Hb. unfold closed. simpl. rewrite Z.lor_spec, Hb. reflexivity.
  - destruct ost. reflexivity.
  - intros r' Hne. rewrite get_ost_close.
    destruct (get_ost w r'); simpl; [|reflexivity]. case_decide; congruence.
  - apply input_files_close.
  - exact Ht.
  - rewrite get_ost_close, H1. simpl. rewrite closed_idem.
    case_decide; congruence.
  - revert H1 Ht. generalize (close_output_stream w r). intros w1 H1 Ht.
    unfold close_output_stream. rewrite H1.
    change (sq_idx_encode (closed ost)) with (sq_idx_encode ost).
    change (ost_file_index (closed ost)) with (ost_file_index ost).
    destruct (0 <=? sq_idx_encode ost); cbn [emit set_ost trace]; rewrite Ht.
    + reflexivity.
    + rewrite !app_nil_r. reflexivity.
Qed.

(** The stream-copy output of the sample pipeline has a slot in the sync
    queue: closed twice, it has sent two NULL frames. *)
Lemma close_output_stream_sets_bit_witness :
  get_ost (close_output_stream (close_output_stream sample_world (0, 0)%nat)
                               (0, 0)%nat) (0, 0)%nat
  = Some (closed sample_copy_out) /\
  trace (close_output_stream (close_output_stream sample_world (0, 0)%nat)
                             (0, 0)%nat)
  = [EvSqSendNull 0 0; EvSqSendNull 0 0].
Proof.
  destruct (close_output_stream_sets_bit sample_world (0, 0)%nat
              sample_copy_out eq_refl)
    as (_ & _ & _ & _ & _ & _ & _ & H1 & H2).
  split; [exact H1|exact H2].
Defined.

Lemma only_closes_streamcopy outs pkt no_eof ex d :
  forall w, only_closes w (streamcopy_outputs outs pkt no_eof ex d w).
Proof.
  induction outs as [|o outs IH]; intros w; [apply only_closes_refl|].
  cbn [streamcopy_outputs]. destruct (get_ost w o) as [ost|]; [|apply IH].
  destruct (enc ost || (is_null pkt && negb (no_eof =? 0))); [apply IH|].
  destruct ex.
  - eapply only_closes_trans; [apply only_closes_close|apply IH].
  - eapply only_closes_trans; [|apply IH]. apply only_closes_same. reflexivity.
Qed.

Lemma mem_streamcopy outs pkt no_eof ex d :
  forall w, mem (streamcopy_outputs outs pkt no_eof ex d w) = mem w.
Proof.
  induction outs as [|o outs IH]; intros w; [reflexivity|].
  cbn [streamcopy_outputs]. destruct (get_ost w o) as [ost|]; [|apply IH].
  destruct (enc ost || (is_null pkt && negb (no_eof =? 0))); [apply IH|].
  destruct ex; rewrite IH; [apply mem_close|reflexivity].
Qed.

Lemma file_flags_set_ist w r s :
  map file_flags (input_files (set_ist w r s)) = map file_flags (input_files w).
Proof.
  unfold set_ist. simpl. destruct r as [i j]. simpl.
  generalize (input_files w). intros l. revert i.
  induction l as [|f l IH]; intros i; [reflexivity|].
  destruct i as [|i]; simpl; [reflexivity|]. f_equal. apply IH.
Qed.

Lemma process_input_packet_keeps opt w ist pkt no_eof :
  only_closes w (snd (process_input_packet opt w ist pkt no_eof)) /\
  (forall r', r' <> ist ->
     get_ist (snd (process_input_packet opt w ist pkt no_eof)) r'
       = get_ist w r') /\
  (forall s, get_ist w ist = Some s ->
     get_ist (snd (process_input_packet opt w ist pkt no_eof)) ist = Some s \/
     get_ist (snd (process_input_packet opt w ist pkt no_eof)) ist
       = Some (after_answer s)) /\
  same_wiring w (snd (process_input_packet opt w ist pkt no_eof)) /\
  map file_flags (input_files (snd (process_input_packet opt w ist pkt no_eof)))
    = map file_flags (input_files w) /\
  mem (snd (process_input_packet opt w ist pkt no_eof)) = mem w.
Proof.
  unfold process_input_packet.
  destruct (get_ist w ist) as [s|] eqn:Hs.
  2:{ cbn [snd]. split; [apply only_closes_refl|]. split; [auto|].
      split; [discriminate|]. split; [intros r; reflexivity|]. auto. }
  destruct (input_files w !! ist_file_index s) as [f|].
  2:{ cbn [snd]. split; [apply only_closes_refl|]. split; [auto|].
      split; [intros s0 E; left; congruence|].
      split; [intros r; reflexivity|]. auto. }
  rewrite (dec_packet_valid w ist pkt no_eof s Hs).
  destruct (decoding_needed s =? 0); cbn [snd].
  - split; [apply only_closes_streamcopy|].
    assert (Hg : forall r, get_ist (streamcopy_outputs (outputs s) pkt no_eof
                     (duration_exceeded opt f (dts_est_of pkt))
                     (dts_est_of pkt) w) r = get_ist w r).
    { intros r. apply MainFacts.get_ist_inputs, MainFacts.input_files_streamcopy. }
    split; [intros r' _; apply Hg|].
    split; [intros s' E; left; rewrite Hg; congruence|].
    split; [intros r; rewrite Hg; reflexivity|].
    rewrite MainFacts.input_files_streamcopy, mem_streamcopy. auto.
  - set (w1 := emit (EvDecPacket ist pkt no_eof (dec_ret (next_answer s)))
                    (set_ist w ist (after_answer s))).
    assert (Hg : forall r, get_ist (streamcopy_outputs (outputs s) pkt no_eof
                     (duration_exceeded opt f (dts_est_of pkt))
                     (dts_est_of pkt) w1) r
                   = (fun x => if decide (r = ist) then after_answer s else x)
                       <$> get_ist w r).
    { intros r.
      rewrite (MainFacts.get_ist_inputs w1 _ r
                 (MainFacts.input_files_streamcopy _ _ _ _ _ w1)).
      subst w1. rewrite get_ist_emit. apply get_ist_set_ist. }
    split; [|split; [|split; [|split; [|split]]]].
    + eapply only_closes_trans; [|apply only_closes_streamcopy].
      apply only_closes_same. reflexivity.
    + intros r' Hne. rewrite Hg. destruct (get_ist w r'); simpl; [|reflexivity].
      case_decide; congruence.
    + intros s' E. right. rewrite Hg, Hs. simpl. case_decide; congruence.
    + intros r. rewrite Hg. destruct (get_ist w r) as [x|] eqn:Ex; simpl;
        [|reflexivity].
      case_decide as Hr; [|reflexivity]. subst r.
      assert (x = s) by congruence. subst x. reflexivity.
    + rewrite MainFacts.input_files_streamcopy. subst w1.
      apply (file_flags_set_ist w ist (after_answer s)).
    + rewrite mem_streamcopy. reflexivity.
Qed.

Lemma copy_targets_emit e w outs :
  copy_targets (emit e w) outs = copy_targets w outs.
Proof. reflexivity. Qed.

(** Below the limit the loop over the outputs hands the packet to the
    stream copy of each output without encoder, in order. *)
Lemma streamcopy_outputs_forward outs pkt no_eof d :
  is_null pkt && negb (no_eof =? 0) = false ->
  forall w,
    streamcopy_outputs outs pkt no_eof false d w =
    with_trace w (trace w ++ map (fun o => EvStreamCopy o pkt d)
                                 (copy_targets w outs)).
Proof.
  intros Hn. induction outs as [|o outs IH]; intros w.
  - simpl. rewrite app_nil_r. destruct w; reflexivity.
  - cbn [streamcopy_outputs]. unfold copy_targets. cbn [List.filter].
    fold (copy_targets w outs).
    destruct (get_ost w o) as [ost|]; [|apply IH].
    rewrite Hn, orb_false_r.
    destruct (enc ost); cbn [negb]; [apply IH|].
    rewrite IH, copy_targets_emit. unfold with_trace, emit. simpl.
    rewrite <- app_assoc. reflexivity.
Qed.

(** X6.  While the recording time is not exceeded, [process_input_packet]
    closes nothing: after the call to the decoder (for a stream that is
    decoded) it hands the packet and its [dts_est] to the stream copy of
    each output of the stream that has no encoder, once, in the order of
    [ist->outputs]; outputs with an encoder receive nothing.  A NULL
    packet given without [no_eof] is handed on in the same way. *)
Theorem process_input_packet_forwards opt w ist pkt no_eof s f :
  get_ist w ist = Some s -> input_files w !! ist_file_index s = Some f ->
  is_null pkt && negb (no_eof =? 0) = false ->
  recording_time f = INT64_MAX \/
    dts_est_of pkt < wrap64 (recording_time f + limit_start_time opt f) ->
  output_files (snd (process_input_packet opt w ist pkt no_eof))
    = output_files w /\
  trace (snd (process_input_packet opt w ist pkt no_eof)) =
    trace w
    ++ (if decoding_needed s =? 0 then []
        else [EvDecPacket ist pkt no_eof (dec_ret (next_answer s))])
    ++ map (fun o => EvStreamCopy o pkt (dts_est_of pkt))
           (copy_targets w (outputs s)).
Proof.
  intros Hs Hf Hn Hlim.
  rewrite (process_input_packet_valid opt w ist pkt no_eof s f Hs Hf).
  cbn [snd].
  assert (Hex : duration_exceeded opt f (dts_est_of pkt) = false).
  { unfold duration_exceeded. destruct Hlim as [H|H].
    - apply Z.eqb_eq in H. rewrite H. reflexivity.
    - destruct (recording_time f =? INT64_MAX); [reflexivity|].
      apply Z.leb_gt. exact H. }
  rewrite Hex, (streamcopy_outputs_forward _ _ _ _ Hn).
  destruct (decoding_needed s =? 0); simpl; [auto|].
  rewrite <- app_assoc. auto.
Qed.

(** The sample packet taken half a second earlier is below the limit of
    three seconds: it is decoded and copied to the stream-copy output. *)
Lemma process_input_packet_forwards_witness :
  trace (snd (process_input_packet sample_options sample_world (0, 0)%nat
                (Some early_packet) 0))
  = [EvDecPacket (0, 0)%nat (Some early_packet) 0 0;
     EvStreamCopy (0, 0)%nat (Some early_packet) 2500000].
Proof.
  refine (proj2 (process_input_packet_forwards sample_options sample_world
            (0, 0)%nat (Some early_packet) 0 sample_video
            {| if_streams := [sample_video; sample_subtitles];
               eagain := 0; eof_reached := 0; recording_time := 3000000;
               start_time := AV_NOPTS_VALUE; start_time_effective := 0 |}
            eq_refl eq_refl eq_refl _)).
  right. vm_compute. reflexivity.
Defined.

Lemma only_closes_valid w w' o :
  only_closes w w' -> is_Some (get_ost w o) -> is_Some (get_ost w' o).
Proof.
  intros H [x Hx]. destruct (H o) as [E|E]; rewrite E, Hx; simpl; eauto.
Qed.

Lemma only_closes_is_closed w w' o :
  only_closes w w' -> is_closed w o -> is_closed w' o.
Proof.
  intros H (x & Hx & Hc). destruct (H o) as [E|E].
  - exists x. rewrite E. auto.
  - exists (closed x). rewrite E, Hx. split; [reflexivity|apply closed_finished].
Qed.

Lemma same_wiring_refl w : same_wiring w w.
Proof. intros r. reflexivity. Qed.

Lemma same_wiring_inputs w w' :
  input_files w' = input_files w -> same_wiring w w'.
Proof. intros H r. rewrite (MainFacts.get_ist_inputs w w' r H). reflexivity. Qed.

Lemma same_wiring_trans w1 w2 w3 :
  same_wiring w1 w2 -> same_wiring w2 w3 -> same_wiring w1 w3.
Proof. intros H12 H23 r. rewrite H23. apply H12. Qed.

Lemma same_wiring_outputs w w' r s :
  same_wiring w w' -> get_ist w r = Some s ->
  exists s', get_ist w' r = Some s' /\ outputs s' = outputs s /\
             discard s' = discard s.
Proof.
  intros H Hs. specialize (H r). rewrite Hs in H.
  destruct (get_ist w' r) as [s'|]; [|discriminate H].
  simpl in H. inversion H. eauto.
Qed.

(** The inner loop of the end-of-file branch closes every output it is
    given. *)
Lemma finish_outputs_closes outs :
  forall w,
    only_closes w (finish_outputs outs w) /\
    input_files (finish_outputs outs w) = input_files w /\
    mem (finish_outputs outs w) = mem w /\
    (forall o, o ∈ outs -> is_Some (get_ost w o) ->
               is_closed (finish_outputs outs w) o).
Proof.
  induction outs as [|a outs IH]; intros w.
  { simpl. split; [apply only_closes_refl|]. split; [reflexivity|].
    split; [reflexivity|]. intros o Ho. inversion Ho. }
  cbn [finish_outputs].
  set (w1 := emit (EvOutputPacketEof a) (close_output_stream w a)).
  assert (H01 : only_closes w w1).
  { eapply only_closes_trans; [apply only_closes_close|].
    apply only_closes_same. reflexivity. }
  destruct (IH w1) as (H1 & H2 & H3 & H4).
  split; [eapply only_closes_trans; eassumption|].
  split; [rewrite H2; apply input_files_close|].
  split; [rewrite H3; apply mem_close|].
  intros o Ho Hv. apply elem_of_cons in Ho as [->|Ho].
  - apply (only_closes_is_closed w1); [exact H1|].
    destruct Hv as [x Hx]. exists (closed x). split; [|apply closed_finished].
    subst w1. rewrite get_ost_emit, get_ost_close, Hx. simpl.
    case_decide; congruence.
  - apply H4; [exact Ho|]. apply (only_closes_valid w); assumption.
Qed.

(** The loop of the end-of-file branch over the streams: unless it
    returned from inside, every output of every stream it went over is
    closed. *)
Lemma eof_streams_closes opt fi idxs :
  forall w,
    only_closes w (snd (eof_streams opt fi idxs w)) /\
    same_wiring w (snd (eof_streams opt fi idxs w)) /\
    map file_flags (input_files (snd (eof_streams opt fi idxs w)))
      = map file_flags (input_files w) /\
    mem (snd (eof_streams opt fi idxs w)) = mem w /\
    (fst (eof_streams opt fi idxs w) = false ->
     forall i s o,
       i ∈ idxs -> get_ist w (fi, i) = Some s -> o ∈ outputs s ->
       is_Some (get_ost w o) ->
       is_closed (snd (eof_streams opt fi idxs w)) o).
Proof.
  induction idxs as [|i idxs IH]; intros w.
  { simpl. split; [apply only_closes_refl|]. split; [apply same_wiring_refl|].
    split; [reflexivity|]. split; [reflexivity|].
    intros _ i s o Hi. inversion Hi. }
  cbn [eof_streams].
  destruct (get_ist w (fi, i)) as [s|] eqn:Hs.
  2:{ destruct (IH w) as (H1 & H2 & H3 & H4 & H5).
      split; [exact H1|]. split; [exact H2|]. split; [exact H3|].
      split; [exact H4|].
      intros He j s' o Hj Hs' Ho Hv. apply elem_of_cons in Hj as [->|Hj].
      - congruence.
      - apply (H5 He j s' o Hj Hs' Ho Hv). }
  set (c := if discard s =? 0
            then process_input_packet opt w (fi, i) None 0 else (0, w)).
  assert (Hc : only_closes w (snd c) /\ same_wiring w (snd c) /\
               map file_flags (input_files (snd c))
                 = map file_flags (input_files w) /\
               mem (snd c) = mem w).
  { subst c. destruct (discard s =? 0).
    - destruct (process_input_packet_keeps opt w (fi, i) None 0)
        as (K1 & _ & _ & K4 & K5 & K6). auto.
    - cbn [snd]. split; [apply only_closes_refl|].
      split; [apply same_wiring_refl|]. auto. }
  destruct c as [ret w1]. cbn [snd] in Hc. destruct Hc as (C1 & C2 & C3 & C4).
  destruct ((discard s =? 0) && (0 <? ret)).
  { cbn [fst snd]. split; [exact C1|]. split; [exact C2|].
    split; [exact C3|]. split; [exact C4|]. discriminate. }
  set (w2 := finish_outputs (outputs s) w1).
  destruct (finish_outputs_closes (outputs s) w1) as (F1 & F2 & F3 & F4).
  fold w2 in F1, F2, F3, F4.
  assert (H02 : only_closes w w2)
    by (eapply only_closes_trans; eassumption).
  assert (W02 : same_wiring w w2).
  { eapply same_wiring_trans; [exact C2|].
    apply same_wiring_inputs. exact F2. }
  destruct (IH w2) as (H1 & H2 & H3 & H4 & H5).
  split; [eapply only_closes_trans; eassumption|].
  split; [eapply same_wiring_trans; eassumption|].
  split; [rewrite H3, F2; exact C3|].
  split; [rewrite H4, F3; exact C4|].
  intros He j s' o Hj Hs' Ho Hv. apply elem_of_cons in Hj as [->|Hj].
  - assert (s' = s) by congruence. subst s'.
    apply (only_closes_is_closed w2); [exact H1|].
    apply F4; [exact Ho|]. apply (only_closes_valid w); assumption.
  - destruct (same_wiring_outputs w w2 (fi, j) s' W02 Hs')
      as (s2 & Hs2 & Ho2 & _).
    apply (H5 He j s2 o Hj Hs2); [rewrite Ho2; exact Ho|].
    apply (only_closes_valid w); assumption.
Qed.

Lemma get_ist_in_seq w fi i s :
  get_ist w (fi, i) = Some s -> i ∈ seq 0 (nb_streams w fi).
Proof.
  unfold get_ist, nb_streams. cbn [fst snd].
  destruct (input_files w !! fi) as [f|]; [|discriminate].
  intros H. apply lookup_lt_Some in H. apply elem_of_seq. lia.
Qed.

Lemma only_closes_set_file w fi g : only_closes w (set_file w fi g).
Proof. intros o. left. reflexivity. Qed.

Lemma get_ist_set_file_flags w fi g r :
  (forall f, if_streams (g f) = if_streams f) ->
  get_ist (set_file w fi g) r = get_ist w r.
Proof.
  intros Hg. unfold get_ist, set_file. cbn [input_files].
  destruct (decide (r.1 = fi)) as [->|Hn].
  - rewrite list_lookup_alter_eq.
    destruct (input_files w !! fi) as [f|]; [|reflexivity].
    simpl. rewrite Hg. reflexivity.
  - rewrite list_lookup_alter_ne by congruence. reflexivity.
Qed.

(** X9.  When the demuxer reports an error or the end of the file (and the
    program does not exit on errors), [process_input] returns 0 or
    [AVERROR(EAGAIN)]; when it returns [AVERROR(EAGAIN)] the file is marked
    [eof_reached] and every output of every stream of the file has its
    encoder-finished bit set, the discarded streams included. *)
Theorem process_input_eof_closes fuel opt w fi got :
  got.1 < 0 -> got.1 <> AVERROR_EAGAIN ->
  got.1 = AVERROR_EOF \/ exit_on_error opt = 0 ->
  exists ret w',
    process_input fuel opt w fi got = Some (Returned ret, w') /\
    (ret = 0 \/ ret = AVERROR_EAGAIN) /\
    (ret = AVERROR_EAGAIN ->
       (forall f, input_files w !! fi = Some f ->
          exists f', input_files w' !! fi = Some f' /\ eof_reached f' = 1) /\
       (forall i s o,
          get_ist w (fi, i) = Some s -> o ∈ outputs s ->
          is_Some (get_ost w o) -> is_closed w' o)).
Proof.
  intros Hneg Hne Hex. unfold process_input.
  destruct (got.1 =? AVERROR_EAGAIN) eqn:E1; [apply Z.eqb_eq in E1; contradiction|].
  destruct (got.1 =? 1) eqn:E2; [apply Z.eqb_eq in E2; lia|].
  destruct (got.1 <? 0) eqn:E3; [|apply Z.ltb_ge in E3; lia].
  assert (Hb : negb (got.1 =? AVERROR_EOF) && negb (exit_on_error opt =? 0) = false).
  { destruct Hex as [->| ->]; [reflexivity|]. apply andb_false_r. }
  rewrite Hb.
  set (w0 := if got.1 =? AVERROR_EOF then w
             else emit (EvLogDemuxError fi got.1) w).
  assert (G0 : forall r, get_ist w0 r = get_ist w r)
    by (intros r; subst w0; destruct (got.1 =? AVERROR_EOF); reflexivity).
  assert (O0 : forall r, get_ost w0 r = get_ost w r)
    by (intros r; subst w0; destruct (got.1 =? AVERROR_EOF); reflexivity).
  assert (I0 : input_files w0 = input_files w)
    by (subst w0; destruct (got.1 =? AVERROR_EOF); reflexivity).
  destruct (eof_streams_closes opt fi (seq 0 (nb_streams w0 fi)) w0)
    as (H1 & H2 & H3 & H4 & H5).
  destruct (eof_streams opt fi (seq 0 (nb_streams w0 fi)) w0) as [early w1].
  cbn [fst snd] in *.
  destruct early.
  - exists 0, w1. split; [reflexivity|]. split; [auto|].
    intros H. discriminate H.
  - exists AVERROR_EAGAIN, (set_file w1 fi (fun f => with_eof_reached f 1)).
    split; [reflexivity|]. split; [auto|].
    intros _. split.
    + intros f Hf. cbn [set_file input_files].
      rewrite list_lookup_alter_eq.
      assert (Hl : file_flags <$> (input_files w1 !! fi) = Some (file_flags f)).
      { rewrite <- list_lookup_fmap.
        change (file_flags <$> input_files w1) with (map file_flags (input_files w1)).
        rewrite H3, I0.
        change (map file_flags (input_files w)) with (file_flags <$> input_files w).
        rewrite list_lookup_fmap, Hf. reflexivity. }
      destruct (input_files w1 !! fi) as [f1|]; [|discriminate Hl].
      exists (with_eof_reached f1 1). split; reflexivity.
    + intros i s o Hs Ho Hv.
      assert (Hc : is_closed w1 o).
      { apply (H5 eq_refl i s o).
        - apply (get_ist_in_seq w0 fi i s). rewrite G0. exact Hs.
        - rewrite G0. exact Hs.
        - exact Ho.
        - rewrite O0. exact Hv. }
      exact Hc.
Qed.

(** At the end of the drained sample file both outputs of the video
    stream are closed. *)
Lemma process_input_eof_closes_witness :
  exists w',
    process_input 1 sample_options drained_world 0 (AVERROR_EOF, None)
      = Some (Returned AVERROR_EAGAIN, w') /\
    is_closed w' (0, 0)%nat /\ is_closed w' (0, 1)%nat.
Proof.
  destruct (process_input_eof_closes 1 sample_options drained_world 0%nat
              (AVERROR_EOF, None))
    as (ret & w' & H & Hr & Hc).
  - reflexivity.
  - discriminate.
  - left. reflexivity.
  - assert (Hret : ret = AVERROR_EAGAIN).
    { destruct Hr as [->| ->]; [|reflexivity].
      vm_compute in H. discriminate H. }
    subst ret. exists w'. split; [exact H|].
    destruct (Hc eq_refl) as [_ Hcl].
    split.
    + eapply (Hcl 0%nat); [reflexivity|apply list_elem_of_here|].
      eexists. reflexivity.
    + eapply (Hcl 0%nat);
        [reflexivity|apply list_elem_of_further, list_elem_of_here|].
      eexists. reflexivity.
Defined.

Lemma with_trace_same w : with_trace w (trace w) = w.
Proof. destruct w. reflexivity. Qed.

Lemma sub2video_filters_trace ist pts tb js :
  forall w,
    sub2video_filters ist js pts tb w =
    with_trace w (trace w ++ map (fun j => EvSub2VideoHeartbeat ist j pts tb) js).
Proof.
  induction js as [|j js IH]; intros w.
  - simpl. rewrite app_nil_r, with_trace_same. reflexivity.
  - cbn [sub2video_filters map]. rewrite IH. unfold with_trace, emit. simpl.
    rewrite <- app_assoc. reflexivity.
Qed.

Lemma heartbeat_events_ext w w' fi idxs pts tb :
  (forall r, get_ist w' r = get_ist w r) ->
  heartbeat_events w' fi idxs pts tb = heartbeat_events w fi idxs pts tb.
Proof.
  intros H. unfold heartbeat_events. f_equal. apply map_ext.
  intros i. rewrite H. reflexivity.
Qed.

Lemma sub2video_streams_trace fi pts tb idxs :
  forall w,
    sub2video_streams fi idxs pts tb w =
    with_trace w (trace w ++ heartbeat_events w fi idxs pts tb).
Proof.
  induction idxs as [|i idxs IH]; intros w.
  - simpl. rewrite app_nil_r, with_trace_same. reflexivity.
  - cbn [sub2video_streams]. unfold heartbeat_events. cbn [map concat].
    fold (heartbeat_events w fi idxs pts tb).
    destruct (get_ist w (fi, i)) as [s|]; [|apply IH].
    destruct (is_subtitle (dec_codec_type s)); [|apply IH].
    rewrite IH, sub2video_filters_trace.
    rewrite (heartbeat_events_ext w) by reflexivity.
    unfold with_trace. simpl. rewrite <- app_assoc. reflexivity.
Qed.

(** X7.  [sub2video_heartbeat] sends a heartbeat, with the [pts] and time base
    it was given, to every filter of every stream of the file whose
    decoder is a subtitle decoder, and to nothing else; it changes no
    stream and no file.  A file without subtitle decoders is left as it
    is. *)
Theorem sub2video_heartbeat_sends w fi pts tb :
  exists evs,
    sub2video_heartbeat w fi pts tb = with_trace w (trace w ++ evs) /\
    (forall e,
       e ∈ evs <->
       exists i j s,
         get_ist w (fi, i) = Some s /\
         dec_codec_type s = AVMEDIA_TYPE_SUBTITLE /\ (j < nb_filters s)%nat /\
         e = EvSub2VideoHeartbeat (fi, i) j pts tb) /\
    ((forall i s, get_ist w (fi, i) = Some s ->
                  dec_codec_type s <> AVMEDIA_TYPE_SUBTITLE) ->
     sub2video_heartbeat w fi pts tb = w).
Proof.
  exists (heartbeat_events w fi (seq 0 (nb_streams w fi)) pts tb).
  assert (Hmem : forall e,
    e ∈ heartbeat_events w fi (seq 0 (nb_streams w fi)) pts tb <->
    exists i j s,
      get_ist w (fi, i) = Some s /\
      dec_codec_type s = AVMEDIA_TYPE_SUBTITLE /\ (j < nb_filters s)%nat /\
      e = EvSub2VideoHeartbeat (fi, i) j pts tb).
  { intros e. unfold heartbeat_events. rewrite list_elem_of_In, in_concat.
    split.
    - intros (l & Hl & He). apply in_map_iff in Hl as (i & <- & Hi).
      destruct (get_ist w (fi, i)) as [s|] eqn:Hs; [|inversion He].
      destruct (dec_codec_type s) eqn:Ht; cbn [is_subtitle] in He;
        try (inversion He; fail).
      apply in_map_iff in He as (j & <- & Hj). apply in_seq in Hj.
      exists i, j, s. repeat split; auto. lia.
    - intros (i & j & s & Hs & Ht & Hj & ->).
      exists (map (fun j => EvSub2VideoHeartbeat (fi, i) j pts tb)
                  (seq 0 (nb_filters s))).
      split.
      + apply in_map_iff. exists i. rewrite Hs, Ht. split; [reflexivity|].
        apply list_elem_of_In. apply (get_ist_in_seq w fi i s Hs).
      + apply in_map_iff. exists j. split; [reflexivity|].
        apply in_seq. lia. }
  split; [apply sub2video_streams_trace|]. split; [exact Hmem|].
  intros Hno. unfold sub2video_heartbeat. rewrite sub2video_streams_trace.
  destruct (heartbeat_events w fi (seq 0 (nb_streams w fi)) pts tb)
    as [|e l] eqn:E.
  - rewrite app_nil_r. apply with_trace_same.
  - exfalso. assert (He : e ∈ e :: l) by apply list_elem_of_here.
    apply Hmem in He as (i & j & s & Hs & Ht & _). exact (Hno i s Hs Ht).
Qed.

Lemma get_ist_reset w r : get_ist (reset_eagain w) r = get_ist w r.
Proof.
  unfold get_ist, reset_eagain. cbn [input_files].
  change (map ?g ?l) with (g <$> l). rewrite list_lookup_fmap.
  destruct (input_files w !! r.1); reflexivity.
Qed.

Lemma nb_streams_reset w fi : nb_streams (reset_eagain w) fi = nb_streams w fi.
Proof.
  unfold nb_streams, reset_eagain. cbn [input_files].
  change (map ?g ?l) with (g <$> l). rewrite list_lookup_fmap.
  destruct (input_files w !! fi); reflexivity.
Qed.

Lemma get_ost_reset w o :
  get_ost (reset_eagain w) o = (fun x => with_unavailable x 0) <$> get_ost w o.
Proof.
  unfold get_ost, reset_eagain. cbn [output_files].
  change (map ?g (output_files w)) with (g <$> output_files w).
  rewrite list_lookup_fmap.
  destruct (output_files w !! o.1) as [f|]; [|reflexivity].
  simpl. change (map ?g ?l) with (g <$> l). apply list_lookup_fmap.
Qed.

Lemma extends_by_streamcopy (P : Event -> Prop) outs pkt no_eof ex d :
  (forall f q, P (EvSqSendNull f q)) -> (forall o p t, P (EvStreamCopy o p t)) ->
  forall w, extends_by P w (streamcopy_outputs outs pkt no_eof ex d w).
Proof.
  intros H1 H2. induction outs as [|o outs IH]; intros w.
  - apply extends_by_refl.
  - cbn [streamcopy_outputs]. destruct (get_ost w o) as [ost|]; [|apply IH].
    destruct (enc ost || (is_null pkt && negb (no_eof =? 0))); [apply IH|].
    destruct ex.
    + eapply extends_by_trans; [apply extends_by_close; exact H1|apply IH].
    + eapply extends_by_trans; [apply extends_by_emit; apply H2|apply IH].
Qed.

Lemma extends_by_process_input_packet (P : Event -> Prop) opt w ist pkt no_eof :
  (forall r p n v, P (EvDecPacket r p n v)) ->
  (forall f q, P (EvSqSendNull f q)) -> (forall o p t, P (EvStreamCopy o p t)) ->
  extends_by P w (snd (process_input_packet opt w ist pkt no_eof)).
Proof.
  intros H0 H1 H2. unfold process_input_packet.
  destruct (get_ist w ist) as [s|] eqn:Hs; [|apply extends_by_refl].
  destruct (input_files w !! ist_file_index s) as [f|]; [|apply extends_by_refl].
  rewrite (dec_packet_valid w ist pkt no_eof s Hs).
  destruct (decoding_needed s =? 0); cbn [snd].
  - apply extends_by_streamcopy; assumption.
  - eapply extends_by_trans; [|apply extends_by_streamcopy; assumption].
    eapply extends_by_trans; [|apply extends_by_emit; apply H0].
    apply extends_by_same. reflexivity.
Qed.

(** X10.  When the demuxer delivers a packet, [process_input] returns 0, and
    afterwards no input file is marked [eagain] and no output stream is
    marked [unavailable]: reading one packet from one file lifts the
    back-pressure marks of all files and streams.  The heartbeats for the
    subtitle streams of the file, with the [pts] of the packet, are sent
    before the packet is processed; processing it sends none. *)
Theorem process_input_packet_read fuel opt w fi r pkt :
  0 <= r -> r <> 1 ->
  exists w' evs,
    process_input fuel opt w fi (r, Some pkt) = Some (Returned 0, w') /\
    (forall f, f ∈ input_files w' -> eagain f = 0) /\
    (forall o ost, get_ost w' o = Some ost -> unavailable ost = 0) /\
    trace w' = trace w
               ++ heartbeat_events w fi (seq 0 (nb_streams w fi))
                    (pkt_pts pkt) (pkt_time_base pkt)
               ++ evs /\
    Forall (fun e => is_heartbeat e = false) evs.
Proof.
  intros H0 H1. unfold process_input. cbn [fst snd].
  assert (E1 : (r =? AVERROR_EAGAIN) = false)
    by (apply Z.eqb_neq; unfold AVERROR_EAGAIN; lia).
  assert (E2 : (r =? 1) = false) by (apply Z.eqb_neq; lia).
  assert (E3 : (r <? 0) = false) by (apply Z.ltb_ge; lia).
  rewrite E1, E2, E3.
  set (w1 := reset_eagain w).
  set (w2 := sub2video_heartbeat w1 fi (pkt_pts pkt) (pkt_time_base pkt)).
  assert (T2 : w2 = with_trace w1
                      (trace w ++ heartbeat_events w fi (seq 0 (nb_streams w fi))
                                    (pkt_pts pkt) (pkt_time_base pkt))).
  { subst w2. unfold sub2video_heartbeat. rewrite sub2video_streams_trace.
    subst w1. rewrite nb_streams_reset.
    rewrite (heartbeat_events_ext w) by apply get_ist_reset. reflexivity. }
  destruct (process_input_packet_keeps opt w2 (fi, stream_index pkt) (Some pkt) 0)
    as (K1 & _ & _ & _ & K5 & _).
  destruct (extends_by_process_input_packet (fun e => is_heartbeat e = false)
              opt w2 (fi, stream_index pkt) (Some pkt) 0)
    as (evs & Ht & Hf); try reflexivity.
  exists (snd (process_input_packet opt w2 (fi, stream_index pkt) (Some pkt) 0)),
         evs.
  split; [reflexivity|]. split.
  { intros f Hf'. apply list_elem_of_lookup in Hf' as [k Hk].
    assert (Hl : file_flags <$>
                 (input_files (snd (process_input_packet opt w2
                                      (fi, stream_index pkt) (Some pkt) 0)) !! k)
                 = Some (file_flags f)) by (rewrite Hk; reflexivity).
    rewrite <- list_lookup_fmap in Hl.
    change (file_flags <$> ?l) with (map file_flags l) in Hl.
    rewrite K5, T2 in Hl. cbn [with_trace input_files] in Hl.
    subst w1. unfold reset_eagain in Hl. cbn [input_files] in Hl.
    rewrite map_map in Hl.
    change (map ?g ?l) with (g <$> l) in Hl. rewrite list_lookup_fmap in Hl.
    destruct (input_files w !! k) as [f0|]; [|discriminate Hl].
    simpl in Hl. unfold file_flags in Hl. simpl in Hl. congruence. }
  split.
  { intros o ost Ho.
    assert (G2 : get_ost w2 o = (fun x => with_unavailable x 0) <$> get_ost w o).
    { rewrite T2. subst w1. apply get_ost_reset. }
    destruct (K1 o) as [E|E]; rewrite E, G2 in Ho;
      destruct (get_ost w o) as [x|]; simpl in Ho; try discriminate Ho;
      inversion Ho; reflexivity. }
  split; [|exact Hf].
  rewrite Ht, T2. cbn [with_trace trace]. rewrite <- app_assoc. reflexivity.
Qed.

Lemma process_input_packet_read_witness :
  exists w' evs,
    process_input 0 sample_options Traversal.stalled_world 0 (0, Some early_packet)
      = Some (Returned 0, w') /\
    (forall f, f ∈ input_files w' -> eagain f = 0) /\
    (forall o ost, get_ost w' o = Some ost -> unavailable ost = 0) /\
    trace w' = trace Traversal.stalled_world
               ++ heartbeat_events Traversal.stalled_world 0
                    (seq 0 (nb_streams Traversal.stalled_world 0))
                    (pkt_pts early_packet) (pkt_time_base early_packet)
               ++ evs /\
    Forall (fun e => is_heartbeat e = false) evs.
Proof.
  apply (process_input_packet_read 0 sample_options Traversal.stalled_world 0%nat 0
           early_packet); [lia|discriminate].
Defined.

Lemma process_input_outcomes fuel opt w fi got out w' :
  process_input fuel opt w fi got = Some (out, w') ->
  (out = Returned 0 \/ out = Returned AVERROR_EAGAIN \/ out = Exited 1) /\
  (out = Exited 1 -> exit_on_error opt <> 0).
Proof.
  unfold process_input. intros H.
  destruct (got.1 =? AVERROR_EAGAIN) eqn:E1.
  { apply Z.eqb_eq in E1. inversion H; subst out w'. rewrite E1.
    split; [auto|discriminate]. }
  destruct (got.1 =? 1).
  { destruct (decode_flush fuel opt w fi); [|discriminate H].
    inversion H; subst out w'. split; [auto|discriminate]. }
  destruct (got.1 <? 0).
  2:{ assert (Ho : out = Returned 0) by (destruct got.2; inversion H; reflexivity).
      subst out. split; [auto|discriminate]. }
  destruct (negb (got.1 =? AVERROR_EOF) && negb (exit_on_error opt =? 0)) eqn:E4.
  { inversion H; subst out w'. split; [auto|]. intros _.
    apply andb_true_iff in E4 as [_ E4]. apply negb_true_iff in E4.
    apply Z.eqb_neq in E4. exact E4. }
  destruct (eof_streams opt fi _ _) as [[|] w1]; inversion H; subst out w';
    (split; [auto|discriminate]).
Qed.

Lemma process_input_results fuel opt w fi got out w' :
  process_input fuel opt w fi got = Some (out, w') ->
  (out = Returned 0 \/ out = Returned AVERROR_EAGAIN \/ out = Exited 1) /\
  out <> Returned AVERROR_EOF /\
  (out = Exited 1 <->
   got.1 < 0 /\ got.1 <> AVERROR_EAGAIN /\ got.1 <> AVERROR_EOF /\
   exit_on_error opt <> 0) /\
  (out = Exited 1 -> w' = emit (EvLogDemuxError fi got.1) w) /\
  (got.1 = AVERROR_EAGAIN ->
   out = Returned AVERROR_EAGAIN /\
   w' = set_file w fi (fun f => with_eagain f 1)).
Proof.
  unfold process_input. intros H.
  destruct (got.1 =? AVERROR_EAGAIN) eqn:E1.
  { apply Z.eqb_eq in E1. inversion H; subst out w'; clear H.
    rewrite E1.
    split; [auto|]. split; [discriminate|].
    split; [split; [discriminate|intros (_ & Hn & _); contradiction]|].
    split; [discriminate|]. auto. }
  apply Z.eqb_neq in E1.
  destruct (got.1 =? 1) eqn:E2.
  { apply Z.eqb_eq in E2.
    destruct (decode_flush fuel opt w fi) as [w1|]; [|discriminate H].
    inversion H; subst out w'; clear H.
    split; [auto|]. split; [discriminate|].
    split; [split; [discriminate|intros (Hn & _); lia]|].
    split; [discriminate|]. intros; contradiction. }
  destruct (got.1 <? 0) eqn:E3.
  2:{ apply Z.ltb_ge in E3.
      assert (Ho : out = Returned 0)
        by (destruct got.2; inversion H; reflexivity).
      subst out. split; [auto|]. split; [discriminate|].
      split; [split; [discriminate|intros (Hn & _); lia]|].
      split; [discriminate|]. intros; contradiction. }
  apply Z.ltb_lt in E3.
  destruct (got.1 =? AVERROR_EOF) eqn:E4; cbn [negb andb] in H.
  { apply Z.eqb_eq in E4.
    destruct (eof_streams opt fi (seq 0 (nb_streams w fi)) w) as [[|] w1];
      inversion H; subst out w'; clear H;
      (split; [auto|]); (split; [discriminate|]);
      (split; [split; [discriminate|intros (_ & _ & Hn & _); contradiction]|]);
      (split; [discriminate|]); intros; contradiction. }
  apply Z.eqb_neq in E4.
  destruct (exit_on_error opt =? 0) eqn:E5; cbn [negb] in H.
  { apply Z.eqb_eq in E5.
    destruct (eof_streams opt fi
                (seq 0 (nb_streams (emit (EvLogDemuxError fi got.1) w) fi))
                (emit (EvLogDemuxError fi got.1) w)) as [[|] w1];
      inversion H; subst out w'; clear H;
      (split; [auto|]); (split; [discriminate|]);
      (split; [split; [discriminate|intros (_ & _ & _ & Hn); contradiction]|]);
      (split; [discriminate|]); intros; contradiction. }
  apply Z.eqb_neq in E5.
  inversion H; subst out w'; clear H.
  split; [auto|]. split; [discriminate|].
  split; [split; auto|]. split; [reflexivity|]. intros; contradiction.
Qed.

Lemma process_input_returns fuel opt w fi got :
  (got.1 = 1 ->
   wired w /\
   forall i s, get_ist w (fi, i) = Some s -> (length (decoder s) < fuel)%nat) ->
  exists r, process_input fuel opt w fi got = Some r.
Proof.
  intros Hloop. unfold process_input.
  destruct (got.1 =? AVERROR_EAGAIN); [eexists; reflexivity|].
  destruct (got.1 =? 1) eqn:E2.
  { apply Z.eqb_eq in E2. destruct (Hloop E2) as [Hw Hfuel].
    destruct (decode_flush_streams_ok opt fi fuel (seq 0 (nb_streams w fi)) w)
      as (w' & E & _).
    { apply NoDup_seq. }
    { exact Hw. }
    { intros i s _ Hs. apply (Hfuel i s Hs). }
    unfold decode_flush. rewrite E. eexists. reflexivity. }
  destruct (got.1 <? 0).
  - destruct (negb (got.1 =? AVERROR_EOF) && negb (exit_on_error opt =? 0));
      [eexists; reflexivity|].
    destruct (eof_streams opt fi _ _) as [[|] w1]; eexists; reflexivity.
  - destruct got.2; eexists; reflexivity.
Qed.

(** X8.  Whatever the demuxer answers, [process_input] returns 0 or
    [AVERROR(EAGAIN)] or ends the program with status 1; it never returns
    [AVERROR_EOF].  It ends the program exactly when the demuxer failed
    with something else than end-of-file or [EAGAIN] and [exit_on_error]
    is set, and then nothing was done but logging the error.  When the
    demuxer answers [EAGAIN] the only change is the [eagain] mark of the
    file. *)
Theorem process_input_never_eof fuel opt w fi got :
  (got.1 = 1 ->
   wired w /\
   forall i s, get_ist w (fi, i) = Some s -> (length (decoder s) < fuel)%nat) ->
  exists out w',
    process_input fuel opt w fi got = Some (out, w') /\
    (out = Returned 0 \/ out = Returned AVERROR_EAGAIN \/ out = Exited 1) /\
    out <> Returned AVERROR_EOF /\
    (out = Exited 1 <->
     got.1 < 0 /\ got.1 <> AVERROR_EAGAIN /\ got.1 <> AVERROR_EOF /\
     exit_on_error opt <> 0) /\
    (out = Exited 1 -> w' = emit (EvLogDemuxError fi got.1) w) /\
    (got.1 = AVERROR_EAGAIN ->
     out = Returned AVERROR_EAGAIN /\
     w' = set_file w fi (fun f => with_eagain f 1)).
Proof.
  intros Hloop.
  destruct (process_input_returns fuel opt w fi got Hloop) as [[out w'] E].
  exists out, w'. split; [exact E|].
  apply (process_input_results fuel opt w fi got out w' E).
Qed.

(** A demuxer error under [exit_on_error]. *)
Lemma process_input_never_eof_witness :
  process_input 0
    {| copy_ts := 0; start_at_zero := 0; exit_on_error := 1;
       max_error_rate := 1 # 2 |}
    sample_world 0 (-5, None)
  = Some (Exited 1, emit (EvLogDemuxError 0 (-5)) sample_world).
Proof.
  destruct (process_input_never_eof 0
              {| copy_ts := 0; start_at_zero := 0; exit_on_error := 1;
                 max_error_rate := 1 # 2 |}
              sample_world 0%nat (-5, None))
    as (out & w' & E & _ & _ & Hx & Hw & _).
  - intros H. discriminate H.
  - assert (Ho : out = Exited 1).
    { apply Hx. cbn [fst exit_on_error]. unfold AVERROR_EAGAIN, AVERROR_EOF.
      repeat split; lia. }
    rewrite E, Ho, (Hw Ho). reflexivity.
Defined.

End DispatchFacts.

Module SchedulerFacts.

Import Selector Driver Dispatch Scheduler SelectorFacts DriverFacts DispatchFacts.

Lemma marked_fields o x :
  unprimed (marked o x) = unprimed x /\ finished (marked o x) = finished x /\
  opts (marked o x) = opts x /\
  ost_file_index (marked o x) = ost_file_index x /\
  ost_index (marked o x) = ost_index x.
Proof. unfold marked. case_decide; repeat split; reflexivity. Qed.

Lemma select_marked o l : forall m om,
  select (map (marked o) l) m (marked o <$> om) = marked o <$> select l m om.
Proof.
  induction l as [|x l IH]; intros m om; [reflexivity|].
  cbn [map select].
  destruct (marked_fields o x) as (E1 & E2 & E3 & _).
  rewrite E1, E2, E3.
  destruct (unprimed x); [reflexivity|].
  destruct ((finished x =? 0) && (opts x <? m)).
  - apply (IH (opts x) (Some x)).
  - apply IH.
Qed.

Lemma all_streams_marked ofs i j f x :
  indexed ofs -> ofs !! i = Some f -> of_streams f !! j = Some x ->
  all_streams (alter (fun f => {| of_streams :=
                                    <[j := with_unavailable x 1]>
                                      (of_streams f) |}) i ofs)
  = map (marked (i, j)) (all_streams ofs).
Proof.
  intros Hix Hi Hj. unfold all_streams.
  rewrite concat_map, map_map. f_equal.
  change (map ?g ?l) with (g <$> l).
  apply list_eq. intros k. rewrite !list_lookup_fmap.
  destruct (decide (k = i)) as [->|Hk].
  - rewrite list_lookup_alter_eq, Hi. simpl. f_equal.
    apply list_eq. intros k'.
    change (map ?g ?l) with (g <$> l). rewrite list_lookup_fmap.
    destruct (decide (k' = j)) as [->|Hk'].
    + rewrite list_lookup_insert_eq by (apply lookup_lt_Some in Hj; exact Hj).
      rewrite Hj. simpl. destruct (Hix i _ j _ Hi Hj) as [A B].
      unfold marked. rewrite A, B. case_decide; congruence.
    + rewrite list_lookup_insert_ne by congruence.
      destruct (of_streams f !! k') as [y|] eqn:Hy; [|reflexivity].
      simpl. destruct (Hix i _ k' _ Hi Hy) as [A B].
      unfold marked. rewrite A, B. case_decide; congruence.
  - rewrite list_lookup_alter_ne by congruence.
    destruct (ofs !! k) as [g|] eqn:Hg; [|reflexivity].
    simpl. f_equal. apply list_eq. intros k'.
    change (map ?h ?l) with (h <$> l). rewrite list_lookup_fmap.
    destruct (of_streams g !! k') as [y|] eqn:Hy; [|reflexivity].
    simpl. destruct (Hix k _ k' _ Hg Hy) as [A B].
    unfold marked. rewrite A, B. case_decide; congruence.
Qed.

Lemma indexed_marked ofs i j v :
  indexed ofs -> ost_file_index v = i -> ost_index v = j ->
  indexed (alter (fun f => {| of_streams := <[j := v]> (of_streams f) |}) i ofs).
Proof.
  intros Hix Hv1 Hv2 i' f' j' x Hi' Hj'.
  destruct (decide (i' = i)) as [->|Hk].
  - rewrite list_lookup_alter_eq in Hi'.
    destruct (ofs !! i) as [f|] eqn:Hf; [|discriminate Hi'].
    simpl in Hi'. inversion Hi'; subst f'; clear Hi'. simpl in Hj'.
    destruct (decide (j' = j)) as [->|Hk'].
    + destruct (decide (j < length (of_streams f))%nat) as [Hlt|Hge].
      * rewrite list_lookup_insert_eq in Hj' by exact Hlt.
        inversion Hj'; subst x. auto.
      * rewrite list_insert_ge in Hj' by lia. apply (Hix i f j x Hf Hj').
    + rewrite list_lookup_insert_ne in Hj' by congruence.
      apply (Hix i f j' x Hf Hj').
  - rewrite list_lookup_alter_ne in Hi' by congruence.
    apply (Hix i' f' j' x Hi' Hj').
Qed.

Lemma choose_output_select ofs :
  indexed ofs ->
  choose_output ofs =
  match select (all_streams ofs) INT64_MAX None with
  | None => Some (AVERROR_EOF, None)
  | Some ost_min =>
      Some (if unavailable ost_min =? 0 then 0 else AVERROR_EAGAIN, Some ost_min)
  end.
Proof.
  intros Hix. unfold choose_output, choose_output_fuel.
  rewrite (choose_loop_all ofs _ INT64_MAX None Hix) by lia. reflexivity.
Qed.

(** The second part of [transcode_step], from the call of
    [process_input] on the file of the stream at [i]. *)
Lemma transcode_step_tail reap demux fuel opt o i w1 s :
  get_ist w1 i = Some s ->
  ((demux w1 (ist_file_index s)).1 = 1 ->
   wired w1 /\
   forall k s', get_ist w1 (ist_file_index s, k) = Some s' ->
                (length (decoder s') < fuel)%nat) ->
  exists res w',
    match process_input fuel opt w1 (ist_file_index s)
            (demux w1 (ist_file_index s)) with
    | None => None
    | Some (Exited status, w2) => Some (ExitProgram status, w2)
    | Some (Returned ret, w2) =>
        if ret =? AVERROR_EAGAIN
        then
          match input_files w2 !! ist_file_index s with
          | Some f =>
              if eagain f =? 0 then Some (Done 0, w2)
              else Some (Done 0, mark_unavailable w2 o)
          | None => Some (Done 0, w2)
          end
        else if ret <? 0
             then Some (Done (if ret =? AVERROR_EOF then 0 else ret), w2)
             else let '(r, w3) := reap w2 in Some (Done r, w3)
    end = Some (res, w') /\
    match res with
    | Done ret =>
        ret < 0 ->
        exists w2,
          process_input fuel opt w1 (ist_file_index s)
            (demux w1 (ist_file_index s)) = Some (Returned 0, w2) /\
          reap w2 = (ret, w')
    | ExitProgram status => status = 1 /\ exit_on_error opt <> 0
    | Abort => False
    end.
Proof.
  intros Hs Hloop.
  destruct (process_input_returns fuel opt w1 (ist_file_index s)
              (demux w1 (ist_file_index s)) Hloop) as [[out w2] E].
  rewrite E.
  destruct (process_input_outcomes fuel opt w1 (ist_file_index s)
              (demux w1 (ist_file_index s)) out w2 E) as (Hout & Hex).
  destruct Hout as [-> | [-> | ->]].
  - change (0 =? AVERROR_EAGAIN) with false.
    change (0 <? 0) with false. cbv iota.
    destruct (reap w2) as [r w3] eqn:Er.
    exists (Done r), w3. split; [reflexivity|].
    intros _. exists w2. split; [reflexivity|exact Er].
  - change (AVERROR_EAGAIN =? AVERROR_EAGAIN) with true. cbv iota.
    destruct (input_files w2 !! ist_file_index s) as [f|];
      [destruct (eagain f =? 0)|];
      (eexists (Done 0), _; split; [reflexivity|lia]).
  - exists (ExitProgram 1), w2. split; [reflexivity|].
    split; [reflexivity|]. apply Hex. reflexivity.
Qed.

(** X12.  [transcode_step] returns, and a negative return value is the
    one of [fg_transcode_step], or the one of [reap_filters] called
    after [process_input] returned 0: the errors of [process_input]
    never reach the caller, and the translation of [AVERROR_EOF] to 0
    has nothing to translate.  The step ends the program only with
    status 1 under [exit_on_error], and aborts only on a stream that has
    neither a filter nor an input stream.  When the demuxer reports a
    looped file, [fuel] has to exceed the length of the decoder scripts
    of the file the step reads. *)
Theorem transcode_step_errors fg reap demux fuel opt w o :
  (forall i w1 s,
     step_input fg w o = Some (i, w1) -> get_ist w1 i = Some s ->
     (demux w1 (ist_file_index s)).1 = 1 ->
     wired w1 /\
     forall k s', get_ist w1 (ist_file_index s, k) = Some s' ->
                  (length (decoder s') < fuel)%nat) ->
  exists res w',
    transcode_step fg reap demux fuel opt w o = Some (res, w') /\
    match res with
    | Done ret =>
        ret < 0 ->
        (exists ost g, get_ost w o = Some ost /\ filter ost = Some g /\
                       (fg w o).1.1 = ret /\ (fg w o).2 = w') \/
        (exists i w1 s w2,
           step_input fg w o = Some (i, w1) /\ get_ist w1 i = Some s /\
           process_input fuel opt w1 (ist_file_index s)
             (demux w1 (ist_file_index s)) = Some (Returned 0, w2) /\
           reap w2 = (ret, w'))
    | ExitProgram status => status = 1 /\ exit_on_error opt <> 0
    | Abort =>
        exists ost, get_ost w o = Some ost /\ filter ost = None /\
                    ost_ist ost = None
    end.
Proof.
  intros Hloop. unfold transcode_step.
  destruct (get_ost w o) as [ost|] eqn:Ho.
  2:{ exists (Done 0), w. split; [reflexivity|lia]. }
  assert (Hin : forall i w1,
    step_input fg w o = Some (i, w1) ->
    exists res w',
      match get_ist w1 i with
      | None => Some (Done 0, w1)
      | Some s =>
          match process_input fuel opt w1 (ist_file_index s)
                  (demux w1 (ist_file_index s)) with
          | None => None
          | Some (Exited status, w2) => Some (ExitProgram status, w2)
          | Some (Returned ret, w2) =>
              if ret =? AVERROR_EAGAIN
              then
                match input_files w2 !! ist_file_index s with
                | Some f =>
                    if eagain f =? 0 then Some (Done 0, w2)
                    else Some (Done 0, mark_unavailable w2 o)
                | None => Some (Done 0, w2)
                end
              else if ret <? 0
                   then Some (Done (if ret =? AVERROR_EOF then 0 else ret), w2)
                   else let '(r, w3) := reap w2 in Some (Done r, w3)
          end
      end = Some (res, w') /\
      match res with
      | Done ret =>
          ret < 0 ->
          exists i w1 s w2,
            step_input fg w o = Some (i, w1) /\ get_ist w1 i = Some s /\
            process_input fuel opt w1 (ist_file_index s)
              (demux w1 (ist_file_index s)) = Some (Returned 0, w2) /\
            reap w2 = (ret, w')
      | ExitProgram status => status = 1 /\ exit_on_error opt <> 0
      | Abort => False
      end).
  { intros i w1 Hstep.
    destruct (get_ist w1 i) as [s|] eqn:Hs.
    2:{ exists (Done 0), w1. split; [reflexivity|lia]. }
    destruct (transcode_step_tail reap demux fuel opt o i w1 s Hs
                (Hloop i w1 s Hstep Hs)) as (res & w' & E & H).
    exists res, w'. split; [exact E|].
    destruct res as [ret| |]; [|exact H|exact H].
    intros Hneg. destruct (H Hneg) as (w2 & A & B).
    exists i, w1, s, w2. auto. }
  destruct (filter ost) as [g|] eqn:Hf.
  - destruct (fg w o) as [[ret ist] w1] eqn:Eg.
    destruct (ret <? 0) eqn:Hr.
    + exists (Done ret), w1. split; [reflexivity|].
      intros _. left. exists ost, g. auto.
    + destruct ist as [i|].
      * destruct (Hin i w1) as (res & w' & E & H).
        { unfold step_input. rewrite Ho, Hf, Eg, Hr. reflexivity. }
        exists res, w'. split; [exact E|].
        destruct res; [|exact H|contradiction].
        intros Hneg. right. apply H. exact Hneg.
      * exists (Done 0), w1. split; [reflexivity|lia].
  - destruct (ost_ist ost) as [i|] eqn:Hi.
    + destruct (Hin i w) as (res & w' & E & H).
      { unfold step_input. rewrite Ho, Hf, Hi. reflexivity. }
      exists res, w'. split; [exact E|].
      destruct res; [|exact H|contradiction].
      intros Hneg. right. apply H. exact Hneg.
    + exists Abort, w. split; [reflexivity|]. exists ost. auto.
Qed.

(** The demuxer reports a looped file: the decoders are flushed and the
    step returns 0.  The filter outputs fail after a packet was read:
    the error is theirs. *)
Lemma transcode_step_errors_witness :
  (exists w',
     transcode_step no_graph nothing_to_reap looped 4 sample_options
       sample_world (0, 0)%nat = Some (Done 0, w')) /\
  (exists w' w2,
     transcode_step no_graph reap_fails delivers 0 sample_options sample_world
       (0, 0)%nat = Some (Done (-22), w') /\
     process_input 0 sample_options sample_world 0
       (delivers sample_world 0%nat) = Some (Returned 0, w2) /\
     reap_fails w2 = (-22, w')).
Proof.
  split.
  - destruct (transcode_step_errors no_graph nothing_to_reap looped 4
                sample_options sample_world (0, 0)%nat)
      as (res & w' & E & _).
    + intros i w1 s Hstep Hs _. vm_compute in Hstep.
      injection Hstep as <- <-. injection Hs as <-.
      split; [exact sample_world_wired|].
      intros k s' Hk. destruct k as [|[|k]]; simpl in Hk;
        inversion Hk; subst s'; vm_compute; lia.
    + assert (Er : res = Done 0).
      { vm_compute in E. inversion E. reflexivity. }
      subst res. exists w'. exact E.
  - destruct (transcode_step_errors no_graph reap_fails delivers 0
                sample_options sample_world (0, 0)%nat)
      as (res & w' & E & H).
    + intros i w1 s Hstep Hs Hd. vm_compute in Hstep.
      injection Hstep as <- <-. injection Hs as <-. discriminate Hd.
    + assert (Er : res = Done (-22)).
      { vm_compute in E. inversion E. reflexivity. }
      subst res. destruct H as [H|H]; [lia| |].
      * destruct H as (ost & g & Ho & Hf & _). vm_compute in Ho.
        injection Ho as <-. discriminate Hf.
      * destruct H as (i & w1 & s & w2 & Hstep & Hs & Hp & Hr).
        vm_compute in Hstep. injection Hstep as <- <-. injection Hs as <-.
        exists w', w2. split; [exact E|]. split; [exact Hp|exact Hr].
Defined.

(** X13.  When the stream handed to [transcode_step] takes its input straight
    from an input stream and the demuxer of that file has no packet yet,
    the step returns 0 having marked the file [eagain] and the stream
    [unavailable], and nothing else.  The selection does not look at that
    mark: had [choose_output] chosen this stream, it chooses it again and
    now answers [AVERROR(EAGAIN)], so the scheduler waits for this stream
    and does not turn to another one. *)
Theorem transcode_step_starved fg reap demux fuel opt w o ost i s f p :
  indexed (output_files w) ->
  get_ost w o = Some ost -> filter ost = None -> ost_ist ost = Some i ->
  get_ist w i = Some s -> input_files w !! ist_file_index s = Some f ->
  demux w (ist_file_index s) = (AVERROR_EAGAIN, p) ->
  exists w',
    transcode_step fg reap demux fuel opt w o = Some (Done 0, w') /\
    input_files w' !! ist_file_index s = Some (with_eagain f 1) /\
    (forall k, k <> ist_file_index s -> input_files w' !! k = input_files w !! k) /\
    get_ost w' o = Some (with_unavailable ost 1) /\
    (forall o', o' <> o -> get_ost w' o' = get_ost w o') /\
    trace w' = trace w /\ mem w' = mem w /\
    (forall ret,
       choose_output (output_files w) = Some (ret, Some ost) ->
       choose_output (output_files w')
         = Some (AVERROR_EAGAIN, Some (with_unavailable ost 1))).
Proof.
  intros Hix Ho Hf Hi Hs Hfile Hd.
  set (w2 := set_file w (ist_file_index s) (fun f => with_eagain f 1)).
  exists (set_ost w2 o (with_unavailable ost 1)).
  assert (Hfl : input_files w2 !! ist_file_index s = Some (with_eagain f 1)).
  { subst w2. cbn [set_file input_files].
    rewrite list_lookup_alter_eq, Hfile. reflexivity. }
  split.
  { unfold transcode_step. rewrite Ho, Hf, Hi, Hs.
    unfold process_input. rewrite Hd. cbn [fst snd].
    change (AVERROR_EAGAIN =? AVERROR_EAGAIN) with true. cbv iota.
    fold w2. rewrite Hfl. cbn [with_eagain eagain].
    change (1 =? 0) with false. cbv iota.
    unfold mark_unavailable.
    change (get_ost w2 o) with (get_ost w o). rewrite Ho. reflexivity. }
  split; [exact Hfl|].
  split.
  { intros k Hk. cbn [set_ost input_files]. subst w2.
    cbn [set_file input_files]. apply list_lookup_alter_ne. congruence. }
  split.
  { rewrite get_ost_set_ost. change (get_ost w2 o) with (get_ost w o).
    rewrite Ho. simpl. case_decide; congruence. }
  split.
  { intros o' Hne. rewrite get_ost_set_ost.
    change (get_ost w2 o') with (get_ost w o').
    destruct (get_ost w o'); [|reflexivity]. simpl. case_decide; congruence. }
  split; [reflexivity|]. split; [reflexivity|].
  intros ret Hc. destruct o as [oi oj].
  unfold get_ost in Ho. cbn [fst snd] in Ho.
  destruct (output_files w !! oi) as [g|] eqn:Hg; [|discriminate Ho].
  destruct (Hix oi g oj ost Hg Ho) as [A B].
  rewrite (choose_output_select _ Hix) in Hc.
  cbn [set_ost output_files fst snd].
  change (output_files w2) with (output_files w).
  rewrite choose_output_select.
  2:{ apply indexed_marked; auto. }
  rewrite (all_streams_marked (output_files w) oi oj g ost Hix Hg Ho).
  pose proof (select_marked (oi, oj) (all_streams (output_files w))
                INT64_MAX None) as Hsm.
  change (marked (oi, oj) <$> None) with (@None OutputStream) in Hsm.
  rewrite Hsm. clear Hsm.
  destruct (select (all_streams (output_files w)) INT64_MAX None) as [x|];
    [|discriminate Hc].
  inversion Hc; subst x. simpl. unfold marked. rewrite A, B.
  case_decide; [reflexivity|congruence].
Qed.

Lemma sample_world_indexed : indexed (output_files sample_world).
Proof.
  intros i f j ost Hi Hj.
  destruct i as [|i]; [|destruct i; discriminate Hi].
  inversion Hi; subst f; clear Hi.
  do 3 (destruct j as [|j]; [inversion Hj; subst ost; auto|]).
  discriminate Hj.
Qed.

Lemma transcode_step_starved_witness :
  exists w',
    transcode_step no_graph nothing_to_reap starved 0 sample_options
      sample_world (0, 2)%nat = Some (Done 0, w') /\
    choose_output (output_files w')
      = Some (AVERROR_EAGAIN, Some (with_unavailable sample_subtitle_out 1)).
Proof.
  destruct (transcode_step_starved no_graph nothing_to_reap starved 0
              sample_options sample_world (0, 2)%nat sample_subtitle_out
              (0, 1)%nat sample_subtitles
              {| if_streams := [sample_video; sample_subtitles];
                 eagain := 0; eof_reached := 0; recording_time := 3000000;
                 start_time := AV_NOPTS_VALUE; start_time_effective := 0 |}
              None)
    as (w' & H1 & _ & _ & _ & _ & _ & _ & H2);
    try reflexivity.
  - apply sample_world_indexed.
  - exists w'. split; [exact H1|]. apply (H2 0). vm_compute. reflexivity.
Defined.

End SchedulerFacts.

Module ReportFacts.

Import CInt Report CIntFacts.

Lemma FFMAX_spec a b : FFMAX a b = Z.max a b.
Proof. unfold FFMAX. destruct (b <? a) eqn:E; lia. Qed.

Lemma fold_no_copy_ts first l :
  forall p,
    INT64_MIN + 1 <= p ->
    let r := fold_left (pts_step 0) l (p, first) in
    r.2 = first /\ p <= r.1 /\
    (forall o, o ∈ l -> known o -> last_mux_dts o <= r.1) /\
    (r.1 = p \/ exists o, o ∈ l /\ known o /\ r.1 = last_mux_dts o) /\
    ((forall o, o ∈ l -> last_mux_dts o = AV_NOPTS_VALUE) -> r.1 = p).
Proof.
  induction l as [|x l IH]; intros p Hp; cbn zeta.
  { simpl. repeat split; auto; try lia. intros o Ho. inversion Ho. }
  cbn [fold_left].
  assert (Hst : pts_step 0 (p, first) x =
                if last_mux_dts x =? AV_NOPTS_VALUE then (p, first)
                else (Z.max p (last_mux_dts x), first)).
  { unfold pts_step. rewrite FFMAX_spec. reflexivity. }
  rewrite Hst. clear Hst.
  destruct (last_mux_dts x =? AV_NOPTS_VALUE) eqn:E.
  - apply Z.eqb_eq in E. destruct (IH p Hp) as (A & B & C & D & F).
    split; [exact A|]. split; [exact B|]. split.
    { intros o Ho Hk. apply elem_of_cons in Ho as [->|Ho];
        [contradiction|apply C; assumption]. }
    split.
    { destruct D as [D|(o & Ho & Hk & D)]; [left; exact D|].
      right. exists o. split; [apply elem_of_cons; auto|auto]. }
    intros Hall. apply F. intros o Ho. apply Hall. apply elem_of_cons. auto.
  - apply Z.eqb_neq in E.
    destruct (IH (Z.max p (last_mux_dts x)) ltac:(lia)) as (A & B & C & D & F).
    split; [exact A|]. split; [lia|]. split.
    { intros o Ho Hk. apply elem_of_cons in Ho as [->|Ho];
        [lia|apply C; assumption]. }
    split.
    { destruct D as [D|(o & Ho & Hk & D)].
      - destruct (Z.max_spec p (last_mux_dts x)) as [[_ M]|[_ M]].
        + right. exists x. split; [apply elem_of_cons; auto|].
          split; [exact E|congruence].
        + left. congruence.
      - right. exists o. split; [apply elem_of_cons; auto|auto]. }
    intros Hall. exfalso. apply E. apply Hall. apply elem_of_cons. auto.
Qed.

(** X14.  Without [copy_ts] the [pts] that [print_report] shows is the largest
    known [last_mux_dts] of the output streams, [copy_ts_first_pts] is
    not touched, and [pts] is never [AV_NOPTS_VALUE], so the report never
    prints N/A for the time.  While no stream has a known timestamp
    [pts] is still [INT64_MIN + 1], and the time is printed as
    -577014:32:22.77 (the seconds do not fit the [int] they are stored
    in). *)
Theorem report_pts_no_copy_ts first l :
  let r := report_pts 0 first l in
  r.2 = first /\ r.1 <> AV_NOPTS_VALUE /\
  (forall o, o ∈ l -> known o -> last_mux_dts o <= r.1) /\
  (r.1 = INT64_MIN + 1 \/ exists o, o ∈ l /\ known o /\ r.1 = last_mux_dts o) /\
  ((forall o, o ∈ l -> last_mux_dts o = AV_NOPTS_VALUE) ->
   clock_of r.1 = {| hours := 577014; mins := 32; secs := 22; us := 775807;
                     hours_sign := "-" |} /\
   centis (clock_of r.1) = 77).
Proof.
  cbn zeta. unfold report_pts.
  destruct (fold_no_copy_ts first l (INT64_MIN + 1) ltac:(lia))
    as (A & B & C & D & F).
  cbn zeta in *.
  split; [exact A|]. split; [unfold AV_NOPTS_VALUE; lia|].
  split; [exact C|]. split; [exact D|].
  intros Hall. rewrite (F Hall). split; vm_compute; reflexivity.
Qed.

Lemma FFABS_abs pts : INT64_MIN < pts <= INT64_MAX -> FFABS pts = Z.abs pts.
Proof.
  intros H. unfold FFABS. destruct (0 <=? pts) eqn:E.
  - apply Z.leb_le in E. lia.
  - apply Z.leb_gt in E. rewrite wrap64_id by (unfold in_int64, INT64_MIN, INT64_MAX in *; lia).
    lia.
Qed.

(** X15.  For a [pts] of less than 2^31 seconds either side of zero, the fields
    of the printed time are in range (minutes and seconds below 60,
    microseconds below a million, hundredths below 100) and put together
    they give back the magnitude of [pts]; the sign is printed exactly
    for a negative [pts]. *)
Theorem clock_of_round_trip pts :
  Z.abs pts < 2 ^ 31 * AV_TIME_BASE ->
  let c := clock_of pts in
  0 <= hours c /\ 0 <= mins c < 60 /\ 0 <= secs c < 60 /\
  0 <= us c < AV_TIME_BASE /\
  ((hours c * 60 + mins c) * 60 + secs c) * AV_TIME_BASE + us c = Z.abs pts /\
  (hours_sign c = "-"%string <-> pts < 0) /\
  (hours_sign c = ""%string <-> 0 <= pts) /\
  centis c = us c / 10000 /\ 0 <= centis c < 100.
Proof.
  intros Hb. cbn zeta. unfold clock_of, centis. cbn [hours mins secs us hours_sign].
  unfold AV_TIME_BASE in *.
  rewrite FFABS_abs by (unfold INT64_MIN, INT64_MAX; lia).
  set (a := Z.abs pts) in *.
  assert (Ha : 0 <= a) by (subst a; lia).
  rewrite (Z.quot_div_nonneg a 1000000) by lia.
  rewrite (Z.rem_mod_nonneg a 1000000) by lia.
  pose proof (Z.div_mod a 1000000 ltac:(lia)) as Hdm.
  pose proof (Z.mod_pos_bound a 1000000 ltac:(lia)) as Hm.
  assert (Hq : 0 <= a / 1000000 < 2 ^ 31).
  { split; [apply Z.div_pos; lia|]. apply Z.div_lt_upper_bound; lia. }
  rewrite (wrap32_id (a / 1000000)) by (unfold in_int, INT_MIN, INT_MAX; lia).
  rewrite (wrap32_id (a mod 1000000)) by (unfold in_int, INT_MIN, INT_MAX; lia).
  rewrite (wrap32_id (100 * (a mod 1000000)))
    by (unfold in_int, INT_MIN, INT_MAX; lia).
  set (q := a / 1000000) in *. set (m := a mod 1000000) in *.
  rewrite (Z.quot_div_nonneg q 60) by lia.
  rewrite (Z.rem_mod_nonneg q 60) by lia.
  assert (Hq60 : 0 <= q / 60) by (apply Z.div_pos; lia).
  rewrite (Z.quot_div_nonneg (q / 60) 60) by lia.
  rewrite (Z.rem_mod_nonneg (q / 60) 60) by lia.
  rewrite (Z.quot_div_nonneg (100 * m) 1000000) by lia.
  pose proof (Z.div_mod q 60 ltac:(lia)) as Hq1.
  pose proof (Z.mod_pos_bound q 60 ltac:(lia)) as Hq2.
  pose proof (Z.div_mod (q / 60) 60 ltac:(lia)) as Hq3.
  pose proof (Z.mod_pos_bound (q / 60) 60 ltac:(lia)) as Hq4.
  split; [apply Z.div_pos; lia|]. split; [lia|]. split; [lia|].
  split; [lia|]. split; [lia|].
  split.
  { destruct (pts <? 0) eqn:E; [apply Z.ltb_lt in E|apply Z.ltb_ge in E];
      split; intros H; try reflexivity; try lia; discriminate H. }
  split.
  { destruct (pts <? 0) eqn:E; [apply Z.ltb_lt in E|apply Z.ltb_ge in E];
      split; intros H; try reflexivity; try lia; discriminate H. }
  assert (Hc : 100 * m / 1000000 = m / 10000).
  { replace 1000000 with (100 * 10000) by reflexivity.
    rewrite Z.div_mul_cancel_l by lia. reflexivity. }
  rewrite Hc. split; [reflexivity|].
  split; [apply Z.div_pos; lia|apply Z.div_lt_upper_bound; lia].
Qed.

Lemma clock_of_round_trip_witness :
  let c := clock_of (-3723456789) in
  0 <= hours c /\ 0 <= mins c < 60 /\ 0 <= secs c < 60 /\
  0 <= us c < AV_TIME_BASE /\
  ((hours c * 60 + mins c) * 60 + secs c) * AV_TIME_BASE + us c
    = Z.abs (-3723456789) /\
  (hours_sign c = "-"%string <-> -3723456789 < 0) /\
  (hours_sign c = ""%string <-> 0 <= -3723456789) /\
  centis c = us c / 10000 /\ 0 <= centis c < 100.
Proof.
  apply (clock_of_round_trip (-3723456789)). vm_compute. reflexivity.
Defined.

Lemma fold_first_pts_set c l : forall p first,
  first <> AV_NOPTS_VALUE -> (fold_left (pts_step c) l (p, first)).2 = first.
Proof.
  induction l as [|x l IH]; intros p first Hf; [reflexivity|].
  cbn [fold_left]. unfold pts_step at 2.
  destruct (last_mux_dts x =? AV_NOPTS_VALUE); [apply IH; exact Hf|].
  destruct (c =? 0); [apply IH; exact Hf|].
  assert (E : (first =? AV_NOPTS_VALUE) = false) by (apply Z.eqb_neq; exact Hf).
  rewrite E. cbn [andb]. rewrite E. apply IH. exact Hf.
Qed.

Lemma fold_first_pts_unset c l : c <> 0 -> forall p,
  p <= 1 ->
  let r := fold_left (pts_step c) l (p, AV_NOPTS_VALUE) in
  (r.2 = AV_NOPTS_VALUE /\
   forall o, o ∈ l -> known o -> last_mux_dts o <= 1) \/
  (exists pre o post,
     l = pre ++ o :: post /\ known o /\ 1 < last_mux_dts o /\
     (forall x, x ∈ pre -> known x -> last_mux_dts x <= 1) /\
     r.2 = last_mux_dts o /\
     fold_left (pts_step c) (pre ++ [o]) (p, AV_NOPTS_VALUE)
       = (0, last_mux_dts o)).
Proof.
  intros Hc. apply Z.eqb_neq in Hc.
  induction l as [|x l IH]; intros p Hp; cbn zeta.
  { left. split; [reflexivity|]. intros o Ho. inversion Ho. }
  cbn [fold_left].
  destruct (last_mux_dts x =? AV_NOPTS_VALUE) eqn:E.
  { assert (Hst : pts_step c (p, AV_NOPTS_VALUE) x = (p, AV_NOPTS_VALUE))
      by (unfold pts_step; rewrite E; reflexivity).
    rewrite Hst. apply Z.eqb_eq in E.
    destruct (IH p Hp) as [[A B]|(pre & o & post & A & B & C & D & F & G)].
    - left. split; [exact A|]. intros o Ho Hk.
      apply elem_of_cons in Ho as [->|Ho]; [contradiction|auto].
    - right. exists (x :: pre), o, post. subst l.
      split; [reflexivity|]. split; [exact B|]. split; [exact C|].
      split.
      { intros y Hy Hk. apply elem_of_cons in Hy as [->|Hy];
          [contradiction|auto]. }
      split; [exact F|]. cbn [app fold_left]. rewrite Hst. exact G. }
  destruct (1 <? Z.max p (last_mux_dts x)) eqn:E1.
  - assert (En : last_mux_dts x <> AV_NOPTS_VALUE) by (apply Z.eqb_neq; exact E).
    assert (Hd : 1 < last_mux_dts x) by (apply Z.ltb_lt in E1; lia).
    assert (Hm : Z.max p (last_mux_dts x) = last_mux_dts x) by lia.
    assert (Hst : pts_step c (p, AV_NOPTS_VALUE) x = (0, last_mux_dts x)).
    { unfold pts_step. rewrite FFMAX_spec, E, Hc.
      change (AV_NOPTS_VALUE =? AV_NOPTS_VALUE) with true. cbn [andb].
      rewrite E1, Hm, E, Z.sub_diag. reflexivity. }
    rewrite Hst. right. exists [], x, l.
    split; [reflexivity|]. split; [exact En|]. split; [exact Hd|].
    split; [intros y Hy; inversion Hy|].
    split; [apply fold_first_pts_set; exact En|].
    cbn [app fold_left]. exact Hst.
  - assert (Hst : pts_step c (p, AV_NOPTS_VALUE) x
                  = (Z.max p (last_mux_dts x), AV_NOPTS_VALUE)).
    { unfold pts_step. rewrite FFMAX_spec, E, Hc.
      change (AV_NOPTS_VALUE =? AV_NOPTS_VALUE) with true. cbn [andb].
      rewrite E1.
      change (AV_NOPTS_VALUE =? AV_NOPTS_VALUE) with true. reflexivity. }
    rewrite Hst. apply Z.ltb_ge in E1.
    destruct (IH (Z.max p (last_mux_dts x)) E1)
      as [[A B]|(pre & o & post & A & B & C & D & F & G)].
    + left. split; [exact A|]. intros o Ho Hk.
      apply elem_of_cons in Ho as [->|Ho]; [lia|auto].
    + right. exists (x :: pre), o, post. subst l.
      split; [reflexivity|]. split; [exact B|]. split; [exact C|].
      split.
      { intros y Hy Hk. apply elem_of_cons in Hy as [->|Hy]; [lia|auto]. }
      split; [exact F|]. cbn [app fold_left]. rewrite Hst. exact G.
Qed.

(** X16.  With [copy_ts], [copy_ts_first_pts] is set once and never changed:
    a value it has is kept by every later report.  While it is unset it
    stays unset as long as no stream has a timestamp above 1; the first
    stream, in iteration order, whose timestamp is above 1 sets it to
    that timestamp, and the [pts] of the report is 0 at that point. *)
Theorem report_pts_first_pts c first l :
  c <> 0 ->
  let r := report_pts c first l in
  (first <> AV_NOPTS_VALUE -> r.2 = first) /\
  (first = AV_NOPTS_VALUE ->
   (r.2 = AV_NOPTS_VALUE /\
    forall o, o ∈ l -> known o -> last_mux_dts o <= 1) \/
   (exists pre o post,
      l = pre ++ o :: post /\ known o /\ 1 < last_mux_dts o /\
      (forall x, x ∈ pre -> known x -> last_mux_dts x <= 1) /\
      r.2 = last_mux_dts o /\
      report_pts c first (pre ++ [o]) = (0, last_mux_dts o))).
Proof.
  intros Hc. cbn zeta. unfold report_pts. split.
  - intros Hf. apply fold_first_pts_set. exact Hf.
  - intros ->. apply (fold_first_pts_unset c l Hc (INT64_MIN + 1)).
    unfold INT64_MIN. lia.
Qed.

Lemma report_pts_first_pts_witness :
  (report_pts 1 AV_NOPTS_VALUE
     [Selector.copy_stream 0 0 0; Selector.copy_stream 0 1 400;
      Selector.copy_stream 0 2 900]).2 = 400 /\
  (report_pts 1 400 [Selector.copy_stream 0 0 1000]).2 = 400.
Proof.
  pose proof (report_pts_first_pts 1 400 [Selector.copy_stream 0 0 1000]
                ltac:(discriminate)) as H.
  cbn zeta in H. destruct H as [H _].
  split; [vm_compute; reflexivity|]. apply H. discriminate.
Defined.

Lemma report_gate_cases cfg g cur dumped :
  0 <= cur <= INT64_MAX ->
  (first_report g = 0 -> 0 <= last_time g <= INT64_MAX) ->
  let r := report_gate cfg g 0 cur dumped in
  (r.1 = true ->
   r.2 = {| last_time := cur; first_report := 0 |} /\
   (print_stats cfg <> 0 \/ progress_avio cfg = true) /\
   (first_report g = 0 -> stats_period cfg <= cur - last_time g) /\
   (first_report g <> 0 -> nb_output_files cfg <= dumped)) /\
  (r.1 = false ->
   first_report r.2 = first_report g /\
   (first_report g = 0 -> r.2 = g) /\
   ((print_stats cfg = 0 /\ progress_avio cfg = false) \/
    (first_report g = 0 /\ cur - last_time g < stats_period cfg) \/
    (first_report g <> 0 /\ dumped < nb_output_files cfg))).
Proof.
  intros Hc Hg. cbn zeta. unfold report_gate.
  change (0 =? 0) with true. cbn [andb]. rewrite andb_true_r.
  destruct ((print_stats cfg =? 0) && negb (progress_avio cfg)) eqn:Een.
  { apply andb_true_iff in Een as [Ep Ea]. apply Z.eqb_eq in Ep.
    apply negb_true_iff in Ea. cbn [fst snd].
    split; [discriminate|]. auto. }
  assert (Hen : print_stats cfg <> 0 \/ progress_avio cfg = true).
  { apply andb_false_iff in Een as [Ep|Ea].
    - left. apply Z.eqb_neq. exact Ep.
    - right. apply negb_false_iff. exact Ea. }
  destruct (first_report g =? 0) eqn:Ef;
    [apply Z.eqb_eq in Ef|apply Z.eqb_neq in Ef].
  - specialize (Hg Ef).
    assert (El : (last_time g =? -1) = false) by (apply Z.eqb_neq; lia).
    rewrite El, Ef. cbn [negb andb orb]. rewrite andb_true_r, orb_false_r.
    rewrite CIntFacts.wrap64_id
      by (unfold in_int64, INT64_MIN, INT64_MAX in *; lia).
    destruct (cur - last_time g <? stats_period cfg) eqn:Et;
      [apply Z.ltb_lt in Et|apply Z.ltb_ge in Et]; cbn [fst snd].
    + split; [discriminate|]. intros _. split; [auto|].
      split; [auto|]. right. left. auto.
    + split; [|discriminate]. intros _. split; [reflexivity|].
      split; [auto|]. split; [auto|]. intros; contradiction.
  - assert (Ef' : forall x,
              (first_report (if last_time g =? -1
                             then {| last_time := x;
                                     first_report := first_report g |}
                             else g) =? 0) = false).
    { intros x. destruct (last_time g =? -1); cbn [first_report];
        apply Z.eqb_neq; exact Ef. }
    rewrite Ef'. rewrite andb_false_r. cbn [negb andb orb].
    destruct (dumped <? nb_output_files cfg) eqn:Ed;
      [apply Z.ltb_lt in Ed|apply Z.ltb_ge in Ed]; cbn [fst snd].
    + split; [discriminate|]. intros _.
      split; [destruct (last_time g =? -1); reflexivity|].
      split; [intros; contradiction|]. right. right. auto.
    + split; [|discriminate]. intros _. split; [reflexivity|].
      split; [auto|]. split; [intros; contradiction|auto].
Qed.

Lemma run_reports_spaced cfg calls : forall g,
  Forall (fun c => 0 <= c.1 <= INT64_MAX) calls ->
  (first_report g = 0 -> 0 <= last_time g <= INT64_MAX) ->
  spaced (stats_period cfg)
         (if first_report g =? 0 then Some (last_time g) else None)
         (run_reports cfg g calls).
Proof.
  induction calls as [|[cur dumped] calls IH]; intros g Hc Hg; [exact I|].
  apply Forall_cons in Hc as [Hc1 Hc]. cbn [fst] in Hc1.
  cbn [run_reports].
  destruct (report_gate_cases cfg g cur dumped Hc1 Hg) as [Ht Hf].
  cbn zeta in Ht, Hf.
  destruct (report_gate cfg g 0 cur dumped) as [made g'].
  cbn [fst snd] in Ht, Hf. destruct made.
  - destruct (Ht eq_refl) as (-> & _ & Hs & _). cbn [spaced]. split.
    + destruct (first_report g =? 0) eqn:Ef; [|exact I].
      apply Z.eqb_eq in Ef. apply Hs. exact Ef.
    + apply (IH {| last_time := cur; first_report := 0 |} Hc).
      intros _. exact Hc1.
  - destruct (Hf eq_refl) as (Hfr & Hsame & _).
    destruct (first_report g =? 0) eqn:Ef.
    + apply Z.eqb_eq in Ef. rewrite (Hsame Ef) in *.
      pose proof (IH g Hc Hg) as H. apply Z.eqb_eq in Ef.
      rewrite Ef in H. exact H.
    + pose proof (IH g' Hc) as H. rewrite Hfr, Ef in H. apply H.
      intros H0. apply Z.eqb_neq in Ef. contradiction.
Qed.

Lemma run_reports_held_back cfg pre : forall g,
  first_report g <> 0 ->
  Forall (fun c => 0 <= c.1 <= INT64_MAX) pre ->
  Forall (fun c => c.2 < nb_output_files cfg) pre ->
  run_reports cfg g pre = [] /\
  (forall t d,
     0 <= t <= INT64_MAX -> nb_output_files cfg <= d ->
     print_stats cfg <> 0 \/ progress_avio cfg = true ->
     run_reports cfg g (pre ++ [(t, d)]) = [t]).
Proof.
  induction pre as [|[cur dumped] pre IH]; intros g Hg Hr Hd.
  - split; [reflexivity|]. intros t d Ht Hdump Hen. cbn [app run_reports].
    destruct (report_gate_cases cfg g t d Ht ltac:(intros; contradiction))
      as [_ Hf]. cbn zeta in Hf.
    destruct (report_gate cfg g 0 t d) as [made g']. cbn [fst snd] in Hf.
    destruct made; [reflexivity|].
    destruct (Hf eq_refl) as (_ & _ & [[H1 H2]|[[H1 _]|[_ H1]]]).
    + destruct Hen as [Hen|Hen]; [contradiction|congruence].
    + contradiction.
    + lia.
  - apply Forall_cons in Hr as [Hr1 Hr]. apply Forall_cons in Hd as [Hd1 Hd].
    cbn [fst snd] in Hr1, Hd1. cbn [app run_reports].
    destruct (report_gate_cases cfg g cur dumped Hr1 ltac:(intros; contradiction))
      as [Ht Hf]. cbn zeta in Ht, Hf.
    destruct (report_gate cfg g 0 cur dumped) as [made g'].
    cbn [fst snd] in Ht, Hf. destruct made.
    + destruct (Ht eq_refl) as (_ & _ & _ & H). specialize (H Hg). lia.
    + destruct (Hf eq_refl) as (Hfr & _). apply IH; [congruence|assumption..].
Qed.

(** X17.  Of the calls the scheduling loop makes to [print_report], those
    that make a report are at least [stats_period] apart, whenever the
    calls come.  The first report of all is not held back by the period:
    it is made by the first call that finds every output file dumped,
    and by none before.  Nothing is reported without [print_stats] or a
    progress sink, and the last report is made in any case. *)
Theorem print_report_spacing cfg calls :
  Forall (fun c => 0 <= c.1 <= INT64_MAX) calls ->
  spaced (stats_period cfg) None (run_reports cfg initial_gate calls) /\
  (Forall (fun c => c.2 < nb_output_files cfg) calls ->
   run_reports cfg initial_gate calls = [] /\
   forall t d,
     0 <= t <= INT64_MAX -> nb_output_files cfg <= d ->
     print_stats cfg <> 0 \/ progress_avio cfg = true ->
     run_reports cfg initial_gate (calls ++ [(t, d)]) = [t]) /\
  (print_stats cfg = 0 -> progress_avio cfg = false ->
   run_reports cfg initial_gate calls = []) /\
  (forall g cur dumped,
     (report_gate cfg g 1 cur dumped).1 = true /\
     first_report (report_gate cfg g 1 cur dumped).2 = 0 /\
     last_time (report_gate cfg g 1 cur dumped).2 = last_time g).
Proof.
  intros Hr. split.
  { apply (run_reports_spaced cfg calls initial_gate Hr). discriminate. }
  split.
  { intros Hd. apply run_reports_held_back; [discriminate|assumption..]. }
  split.
  { intros Hp Ha. generalize initial_gate.
    induction calls as [|[cur dumped] calls IH]; intros g; [reflexivity|].
    apply Forall_cons in Hr as [_ Hr]. cbn [run_reports].
    unfold report_gate. rewrite Hp, Ha. cbn. apply IH. exact Hr. }
  intros g cur dumped. unfold report_gate.
  change (1 =? 0) with false. rewrite andb_false_r. cbn [andb fst snd].
  auto.
Qed.

(** Calls every 0.2 s with a period of half a second: after the first
    report, every third call makes one. *)
Lemma print_report_spacing_witness :
  run_reports half_second initial_gate
    [(0, 0); (200000, 1); (400000, 1); (600000, 1); (800000, 1);
     (1000000, 1); (1200000, 1)]
  = [200000; 800000] /\
  spaced 500000 None [200000; 800000].
Proof.
  split; [vm_compute; reflexivity|].
  change [200000; 800000]
    with (run_reports half_second initial_gate
            [(0, 0); (200000, 1); (400000, 1); (600000, 1); (800000, 1);
             (1000000, 1); (1200000, 1)]).
  apply (print_report_spacing half_second).
  repeat constructor; vm_compute; discriminate.
Defined.

End ReportFacts.

Module ReemitFacts.

Import Driver Heartbeat Reemit DriverFacts SubtitleFacts.

Lemma copy_av_subtitle_cases dst src hp :
  Subtitle.well_formed src ->
  exists ret dst' hp',
    Subtitle.copy_av_subtitle dst src hp = (ret, dst', hp') /\
    ((ret = 0 /\ dst' = Subtitle.copied src /\
      Subtitle.live hp' = Subtitle.live hp + Subtitle.sub_blocks dst') \/
     (ret = AVERROR_ENOMEM /\ dst' = dst /\
      Subtitle.live hp' = Subtitle.live hp)) /\
    (Subtitle.reliable hp -> ret = 0).
Proof.
  intros Hwf. pose proof Hwf as [Hn Hlen].
  unfold Subtitle.copy_av_subtitle.
  destruct (Subtitle.num_rects src =? 0) eqn:E0.
  { apply Z.eqb_eq in E0.
    assert (Ec : {| Subtitle.format := Subtitle.format src;
                    Subtitle.start_display_time := Subtitle.start_display_time src;
                    Subtitle.end_display_time := Subtitle.end_display_time src;
                    Subtitle.num_rects := 0; Subtitle.rects := None;
                    Subtitle.pts := Subtitle.pts src |}
                 = Subtitle.copied src).
    { unfold Subtitle.copied. rewrite E0. reflexivity. }
    exists 0, (Subtitle.copied src), hp. split; [rewrite <- Ec; reflexivity|].
    split; [|auto].
    left. split; [reflexivity|]. split; [reflexivity|].
    unfold Subtitle.sub_blocks. rewrite (visited_copied src Hwf).
    unfold Subtitle.copied. rewrite E0. simpl.
    destruct (Subtitle.visited src); [simpl; lia|].
    rewrite E0 in Hlen. discriminate Hlen. }
  apply Z.eqb_neq in E0.
  destruct (av_malloc_cases hp) as (ok & hp1 & E & Hl & Hr). rewrite E.
  destruct ok.
  - match goal with
    | |- context [Subtitle.copy_rects _ ?t hp1] => set (tmp1 := t)
    end.
    destruct (copy_rects_ok (Subtitle.visited src) tmp1 [] hp1)
      as (ok2 & tmp2 & l2 & hp2 & E2 & Hh2 & Hl2 & F1 & F2 & F3 & F4 & Hu2 & Hr2).
    { split; reflexivity. }
    { simpl. lia. }
    rewrite E2. pose proof (holds_blocks tmp2 l2 Hh2) as Hb.
    simpl in Hl2. destruct ok2.
    + exists 0, tmp2, hp2. split; [reflexivity|]. split; [|auto].
      left. split; [reflexivity|].
      assert (Et : tmp2 = Subtitle.copied src).
      { destruct Hh2 as [Hrects Hnum]. rewrite (Hu2 eq_refl) in *. simpl in *.
        apply subtitle_ext; simpl; try assumption.
        - rewrite Hnum, length_map. lia.
        - rewrite Hrects. destruct (Subtitle.num_rects src =? 0) eqn:E3;
            [apply Z.eqb_eq in E3; lia|reflexivity]. }
      split; [exact Et|]. lia.
    + exists AVERROR_ENOMEM, dst. eexists. split; [reflexivity|].
      split.
      * right. split; [reflexivity|]. split; [reflexivity|]. simpl. lia.
      * intros R. destruct (Hr2 (proj2 (Hr R))) as [? _]. discriminate.
  - exists AVERROR_ENOMEM, dst, hp1. split; [reflexivity|].
    split.
    + right. split; [reflexivity|]. split; [reflexivity|]. lia.
    + intros R. destruct (Hr R) as [? _]. discriminate.
Qed.

Section Collaborators.

Variable av_rescale_q : Z -> AVRational -> AVRational -> Z.
Variable process_subtitle :
  InputStream -> Subtitle.AVSubtitle -> Z * InputStream.

Abbreviation fix_sub := (fix_sub_duration_heartbeat process_subtitle).
Abbreviation trigger :=
  (trigger_fix_sub_duration_heartbeat av_rescale_q process_subtitle).

(** X18.  When the guard of [fix_sub_duration_heartbeat] passes, the subtitle
    handed to the subtitle processing is a deep copy of the previous
    subtitle of the stream with [pts] replaced by the signal's; the
    stream is handed over as it was and replaced by what the processing
    leaves, and the return value is the processing's.  If an allocation
    of the copy fails the function returns [AVERROR(ENOMEM)] with nothing
    handed on, the stream untouched and every block freed again; with an
    allocator that does not fail this does not happen. *)
Theorem fix_sub_duration_heartbeat_copies w ist signal_pts s :
  get_ist w ist = Some s ->
  fix_sub_duration s <> 0 -> Subtitle.num_rects (prev_sub s) <> 0 ->
  Subtitle.pts (prev_sub s) < signal_pts ->
  Subtitle.well_formed (prev_sub s) ->
  let sub := with_pts (Subtitle.copied (prev_sub s)) signal_pts in
  let handed_on :=
    exists hp',
      fix_sub w ist signal_pts =
        ((process_subtitle s sub).1,
         emit (EvProcessSubtitle ist s sub)
              (set_ist (with_mem w hp') ist (process_subtitle s sub).2)) /\
      Subtitle.live hp'
        = Subtitle.live (mem w) + Subtitle.sub_blocks (Subtitle.copied (prev_sub s)) in
  (handed_on \/
   (exists hp',
      fix_sub w ist signal_pts = (AVERROR_ENOMEM, with_mem w hp') /\
      Subtitle.live hp' = Subtitle.live (mem w))) /\
  (Subtitle.reliable (mem w) -> handed_on).
Proof.
  intros Hs H1 H2 H3 Hwf. cbn zeta.
  unfold fix_sub_duration_heartbeat. rewrite Hs.
  apply Z.eqb_neq in H1. apply Z.eqb_neq in H2. apply Z.leb_gt in H3.
  rewrite H1, H2, H3. cbn [orb].
  destruct (copy_av_subtitle_cases Subtitle.empty_subtitle (prev_sub s) (mem w) Hwf)
    as (ret & dst' & hp' & E & Hc & Hr).
  rewrite E.
  destruct Hc as [(-> & -> & Hl)|(-> & -> & Hl)].
  - change (0 <? 0) with false. cbv iota.
    destruct (process_subtitle s (with_pts (Subtitle.copied (prev_sub s)) signal_pts))
      as [ret' s'] eqn:Ep.
    assert (A : exists hp'0,
      (ret', emit (EvProcessSubtitle ist s
                     (with_pts (Subtitle.copied (prev_sub s)) signal_pts))
                  (set_ist (with_mem w hp') ist s'))
      = ((ret', s').1,
         emit (EvProcessSubtitle ist s
                 (with_pts (Subtitle.copied (prev_sub s)) signal_pts))
              (set_ist (with_mem w hp'0) ist (ret', s').2)) /\
      Subtitle.live hp'0
        = Subtitle.live (mem w)
          + Subtitle.sub_blocks (Subtitle.copied (prev_sub s))).
    { exists hp'. split; [reflexivity|exact Hl]. }
    split; [left; exact A|intros _; exact A].
  - change (AVERROR_ENOMEM <? 0) with true. cbv iota.
    split.
    + right. exists hp'. split; [reflexivity|exact Hl].
    + intros R. specialize (Hr R). discriminate Hr.
Qed.

Lemma get_ost_outputs w w0 r :
  output_files w = output_files w0 -> get_ost w r = get_ost w0 r.
Proof. intros H. unfold get_ost. rewrite H. reflexivity. Qed.

Lemma fix_sub_emits w ist signal_pts :
  extends_by (fun e => exists before subtitle,
                e = EvProcessSubtitle ist before subtitle /\
                get_ist w ist = Some before)
             w (snd (fix_sub w ist signal_pts)) /\
  output_files (snd (fix_sub w ist signal_pts)) = output_files w.
Proof.
  unfold fix_sub_duration_heartbeat.
  destruct (get_ist w ist) as [s|] eqn:Hs;
    [|split; [apply extends_by_refl|reflexivity]].
  destruct ((fix_sub_duration s =? 0)
            || (Subtitle.num_rects (prev_sub s) =? 0)
            || (signal_pts <=? Subtitle.pts (prev_sub s)));
    [split; [apply extends_by_refl|reflexivity]|].
  destruct (Subtitle.copy_av_subtitle Subtitle.empty_subtitle (prev_sub s)
              (mem w)) as [[ret subtitle] hp].
  destruct (ret <? 0); [split; [apply extends_by_same|]; reflexivity|].
  destruct (process_subtitle s (with_pts subtitle signal_pts)) as [ret' s'].
  cbn [snd]. split; [|reflexivity].
  eapply extends_by_trans; [|apply extends_by_emit].
  - apply extends_by_same. reflexivity.
  - exists s, (with_pts subtitle signal_pts). auto.
Qed.

Lemma heartbeat_streams_targets w0 ost fi signal_pts :
  forall idxs w,
    output_files w = output_files w0 ->
    extends_by (targeted w0 ost fi) w
      (snd (heartbeat_streams process_subtitle w ost fi idxs signal_pts)) /\
    fst (heartbeat_streams process_subtitle w ost fi idxs signal_pts) <= 0 /\
    output_files
      (snd (heartbeat_streams process_subtitle w ost fi idxs signal_pts))
      = output_files w0.
Proof.
  induction idxs as [|i idxs IH]; intros w Hw.
  { simpl. split; [apply extends_by_refl|]. split; [lia|exact Hw]. }
  cbn [heartbeat_streams].
  destruct (get_ost w (fi, i)) as [io|] eqn:Eo; [|apply IH, Hw].
  destruct (ost_ist io) as [r|] eqn:Er; [|apply IH, Hw].
  destruct (get_ist w r) as [s|] eqn:Es; [|apply IH, Hw].
  destruct (bool_decide ((fi, i) = ost) || (decoding_needed s =? 0)
            || negb (is_subtitle (dec_codec_type s))) eqn:Eg; [apply IH, Hw|].
  apply orb_false_iff in Eg as [Eg E3]. apply orb_false_iff in Eg as [E1 E2].
  apply bool_decide_eq_false in E1. apply Z.eqb_neq in E2.
  apply negb_false_iff in E3.
  destruct (fix_sub_emits w r signal_pts) as [Hf Hout].
  destruct (fix_sub w r signal_pts) as [ret w1]. cbn [snd] in Hf, Hout.
  assert (Hf' : extends_by (targeted w0 ost fi) w w1).
  { destruct Hf as (evs & E & F). exists evs. split; [exact E|].
    eapply Forall_impl; [exact F|].
    intros e (before & subtitle & -> & Hb).
    assert (before = s) by congruence. subst before.
    exists i, io, r, s, subtitle.
    split; [reflexivity|]. split; [exact E1|].
    split; [rewrite <- (get_ost_outputs w w0 (fi, i) Hw); exact Eo|].
    split; [exact Er|]. split; [exact E2|].
    destruct (dec_codec_type s); try discriminate E3. reflexivity. }
  destruct (ret <? 0) eqn:Hr.
  - cbn [fst snd]. apply Z.ltb_lt in Hr.
    split; [exact Hf'|]. split; [lia|congruence].
  - destruct (IH w1 ltac:(congruence)) as (A & B & C).
    split; [eapply extends_by_trans; eassumption|]. split; assumption.
Qed.

(** X19.  Whatever [trigger_fix_sub_duration_heartbeat] hands to the subtitle
    processing goes to the input stream of another output stream of the
    same output file, never to the stream that caused the heartbeat, and
    only to an input that is decoded by a subtitle decoder; the stream is
    handed over as it is at that moment.  The function returns 0 or a
    negative error, never a positive value. *)
Theorem heartbeat_targets (w : World) (ost : ref) (pkt : AVPacket) o :
  get_ost w ost = Some o ->
  extends_by (targeted w ost (ost_file_index o)) w (snd (trigger w ost pkt)) /\
  fst (trigger w ost pkt) <= 0.
Proof.
  intros Ho. unfold trigger_fix_sub_duration_heartbeat. rewrite Ho.
  destruct ((ost_fix_sub_duration_heartbeat o =? 0)
            || (Z.land (pkt_flags pkt) AV_PKT_FLAG_KEY =? 0)).
  - cbn [fst snd]. split; [apply extends_by_refl|lia].
  - destruct (heartbeat_streams_targets w ost (ost_file_index o)
                (av_rescale_q (pkt_pts pkt) (pkt_time_base pkt) AV_TIME_BASE_Q)
                (seq 0 (nb_ostreams w (ost_file_index o)))
                w eq_refl) as (A & B & _).
    split; assumption.
Qed.

End Collaborators.

Lemma sample_subtitles_well_formed :
  Subtitle.well_formed (prev_sub sample_subtitles).
Proof. split; [vm_compute; split; [discriminate|reflexivity]|reflexivity]. Qed.

(** On the sample pipeline the heartbeat at three seconds re-emits the
    subtitle of the second stream. *)
Lemma fix_sub_duration_heartbeat_copies_witness :
  exists hp',
    fix_sub_duration_heartbeat keep_subtitle sample_world (0, 1)%nat 3000000 =
      (0,
       emit (EvProcessSubtitle (0, 1)%nat sample_subtitles
               (with_pts (Subtitle.copied (prev_sub sample_subtitles)) 3000000))
            (set_ist (with_mem sample_world hp') (0, 1)%nat
               (keep_subtitle sample_subtitles
                  (with_pts (Subtitle.copied (prev_sub sample_subtitles))
                            3000000)).2)) /\
    Subtitle.live hp' = 4.
Proof.
  destruct (fix_sub_duration_heartbeat_copies keep_subtitle sample_world
              (0, 1)%nat 3000000 sample_subtitles)
    as [_ H].
  - reflexivity.
  - discriminate.
  - discriminate.
  - reflexivity.
  - exact sample_subtitles_well_formed.
  - destruct (H ltac:(constructor)) as (hp' & E & L).
    exists hp'. split; [exact E|]. rewrite L. reflexivity.
Defined.

(** A key packet of the stream-copy output of the sample pipeline: what
    is handed on goes to the input of another stream of the file. *)
Lemma heartbeat_targets_witness :
  extends_by (targeted sample_world (0, 0)%nat 0) sample_world
    (snd (trigger_fix_sub_duration_heartbeat rescale_floor keep_subtitle
            sample_world (0, 0)%nat sample_packet)) /\
  fst (trigger_fix_sub_duration_heartbeat rescale_floor keep_subtitle
         sample_world (0, 0)%nat sample_packet) <= 0.
Proof.
  exact (heartbeat_targets rescale_floor keep_subtitle sample_world
           (0, 0)%nat sample_packet sample_copy_out eq_refl).
Defined.

End ReemitFacts.

Module TerminalFacts.

Import CInt Signal Terminal SignalFacts.

Lemma deliver_tty_kept T sigs : forall s,
  tty s = T -> (restore_tty s = true -> oldtty s = T) ->
  tty (deliver sigs s) = T.
Proof.
  induction sigs as [|sig sigs IH]; intros s Ht Ho; [exact Ht|].
  cbn [deliver]. destruct (exited s); [exact Ht|].
  apply IH; rewrite sigterm_handler_fields; cbn [tty restore_tty oldtty].
  - destruct (restore_tty s); auto.
  - exact Ho.
Qed.

Lemma term_exit_sigsafe_off s :
  restore_tty s = false -> term_exit_sigsafe s = s.
Proof. intros H. unfold term_exit_sigsafe. rewrite H. reflexivity. Qed.

Lemma term_exit_sigsafe_idem s :
  term_exit_sigsafe (term_exit_sigsafe s) = term_exit_sigsafe s.
Proof. unfold term_exit_sigsafe. destruct (restore_tty s) eqn:E; cbn [restore_tty]; [reflexivity|rewrite E; reflexivity]. Qed.

Lemma deliver_first_tty T sig sigs s :
  exited s = None -> (if restore_tty s then oldtty s else tty s) = T ->
  tty (deliver (sig :: sigs) s) = T.
Proof.
  intros He Ht. cbn [deliver]. rewrite He.
  apply deliver_tty_kept; rewrite sigterm_handler_fields;
    cbn [tty restore_tty oldtty].
  - exact Ht.
  - intros Hr. rewrite Hr in Ht. exact Ht.
Qed.

Lemma dispositions_always l :
  (forall sig, sig ∈ [SIGINT; SIGTERM; SIGXCPU] ->
     (sig, Handler) ∈ l ++ [(SIGINT, Handler); (SIGTERM, Handler);
                            (SIGXCPU, Handler); (SIGPIPE, Ignore)]) /\
  (SIGPIPE, Ignore) ∈ l ++ [(SIGINT, Handler); (SIGTERM, Handler);
                            (SIGXCPU, Handler); (SIGPIPE, Ignore)].
Proof.
  split.
  - intros sig H. apply elem_of_app. right.
    repeat (apply elem_of_cons in H as [->|H];
            [repeat first [apply list_elem_of_here
                          |apply list_elem_of_further]|]).
    inversion H.
  - apply elem_of_app. right.
    repeat first [apply list_elem_of_here|apply list_elem_of_further].
Qed.

(** X20.  After the first [term_init] of the process the attributes of the
    terminal are given back by [term_exit], and as well by the handler of
    the first signal that arrives, whatever arrives afterwards; giving
    them back twice changes nothing.  When standard input is not used
    interactively, or its attributes cannot be read, [term_init] leaves
    the terminal alone and so does [term_exit].  SIGQUIT is handled only
    when standard input is used interactively; SIGINT, SIGTERM and
    SIGXCPU always are and SIGPIPE is ignored. *)
Theorem term_init_round_trip raw stdin_interaction tcgetattr_ret s :
  restore_tty s = false -> exited s = None ->
  let s1 := (term_init raw stdin_interaction tcgetattr_ret s).1 in
  tty (term_exit s1) = tty s /\
  term_exit (term_exit s1) = term_exit s1 /\
  (forall sig sigs, tty (deliver (sig :: sigs) s1) = tty s) /\
  (stdin_interaction = 0 \/ tcgetattr_ret <> 0 -> s1 = s /\ term_exit s1 = s) /\
  (stdin_interaction <> 0 -> tcgetattr_ret = 0 -> tty s1 = raw (tty s)) /\
  ((SIGQUIT, Handler) ∈ (term_init raw stdin_interaction tcgetattr_ret s).2
   <-> stdin_interaction <> 0) /\
  (forall sig, sig ∈ [SIGINT; SIGTERM; SIGXCPU] ->
     (sig, Handler) ∈ (term_init raw stdin_interaction tcgetattr_ret s).2) /\
  (SIGPIPE, Ignore) ∈ (term_init raw stdin_interaction tcgetattr_ret s).2.
Proof.
  intros Hr He. cbn zeta. unfold term_init, term_exit. cbn [fst snd].
  split; [|split; [apply term_exit_sigsafe_idem|]].
  { destruct (stdin_interaction =? 0);
      [|destruct (tcgetattr_ret =? 0)];
      rewrite ?(term_exit_sigsafe_off s Hr); reflexivity. }
  split.
  { intros sig sigs. apply deliver_first_tty.
    - destruct (stdin_interaction =? 0);
        [|destruct (tcgetattr_ret =? 0)]; exact He.
    - destruct (stdin_interaction =? 0);
        [|destruct (tcgetattr_ret =? 0)];
        cbn [restore_tty oldtty tty]; rewrite ?Hr; reflexivity. }
  split.
  { intros [H|H].
    - apply Z.eqb_eq in H. rewrite H.
      split; [reflexivity|apply term_exit_sigsafe_off, Hr].
    - apply Z.eqb_neq in H. rewrite H.
      destruct (stdin_interaction =? 0);
        (split; [reflexivity|apply term_exit_sigsafe_off, Hr]). }
  split.
  { intros H1 H2. apply Z.eqb_neq in H1. apply Z.eqb_eq in H2.
    rewrite H1, H2. reflexivity. }
  split.
  { destruct (stdin_interaction =? 0) eqn:E1;
      [apply Z.eqb_eq in E1|apply Z.eqb_neq in E1].
    - split; [|intros; contradiction].
      intros H. cbn [app] in H.
      repeat (apply elem_of_cons in H as [H|H]; [discriminate H|]).
      inversion H.
    - split; [auto|]. intros _. cbn [app]. apply list_elem_of_here. }
  apply dispositions_always.
Qed.

Lemma term_init_round_trip_witness :
  tty (term_init sample_raw 1 0 (initial 255)).1 = 240 /\
  tty (term_exit (term_init sample_raw 1 0 (initial 255)).1) = 255 /\
  tty (deliver [SIGINT; SIGINT] (term_init sample_raw 1 0 (initial 255)).1) = 255.
Proof.
  destruct (term_init_round_trip sample_raw 1 0 (initial 255) eq_refl eq_refl)
    as (H1 & _ & H3 & _ & H5 & _).
  split; [apply H5; [discriminate|reflexivity]|].
  split; [exact H1|apply H3].
Defined.

Lemma last_cons_default (l : list Z) : forall a d d',
  List.last (a :: l) d = List.last (a :: l) d'.
Proof.
  induction l as [|b l IH]; intros a d d'; [reflexivity|].
  change (List.last (b :: l) d = List.last (b :: l) d'). apply IH.
Qed.

Lemma deliver_counts sigs : forall s,
  exited s = None -> 0 <= received_nb_signals s ->
  received_nb_signals s + Z.of_nat (length sigs) <= 3 ->
  received_nb_signals (deliver sigs s)
    = received_nb_signals s + Z.of_nat (length sigs) /\
  transcode_init_done (deliver sigs s) = transcode_init_done s /\
  exited (deliver sigs s) = None /\
  stderr_out (deliver sigs s) = stderr_out s /\
  received_sigterm (deliver sigs s) = List.last sigs (received_sigterm s).
Proof.
  induction sigs as [|sig sigs IH]; intros s He H0 Hn.
  { simpl. repeat split; auto. lia. }
  cbn [deliver]. rewrite He.
  cbn [length] in Hn.
  assert (Hw : wrap32 (received_nb_signals s + 1) = received_nb_signals s + 1).
  { apply CIntFacts.wrap32_id. unfold in_int, INT_MIN, INT_MAX. lia. }
  assert (Hlt : (3 <? received_nb_signals s + 1) = false)
    by (apply Z.ltb_ge; lia).
  destruct (IH (sigterm_handler sig s)) as (A & B & C & D & F).
  - rewrite sigterm_handler_fields. cbn [exited]. rewrite Hw, Hlt. exact He.
  - rewrite sigterm_handler_fields. cbn [received_nb_signals]. lia.
  - rewrite sigterm_handler_fields. cbn [received_nb_signals]. lia.
  - rewrite A, B, C, D, F. rewrite sigterm_handler_fields.
    cbn [received_nb_signals transcode_init_done stderr_out received_sigterm].
    rewrite Hw, Hlt.
    split; [cbn [length]; lia|]. split; [reflexivity|].
    split; [reflexivity|]. split; [reflexivity|].
    destruct sigs as [|z sigs]; [reflexivity|].
    change (List.last (sig :: z :: sigs) (received_sigterm s))
      with (List.last (z :: sigs) (received_sigterm s)).
    apply last_cons_default.
Qed.

(** X21.  While at most three signals have arrived in all, the process keeps
    running and writes nothing, [received_sigterm] holds the last signal,
    and blocking input and output are interrupted exactly when more
    signals have arrived than [transcode_init_done] holds.  So before
    [transcode] has started a single signal interrupts them; afterwards
    the first signal only stops the main loop and it takes a second one
    to interrupt them. *)
Theorem interrupt_after_signals s sigs :
  exited s = None -> 0 <= received_nb_signals s ->
  received_nb_signals s + Z.of_nat (length sigs) <= 3 ->
  exited (deliver sigs s) = None /\
  stderr_out (deliver sigs s) = stderr_out s /\
  received_sigterm (deliver sigs s) = List.last sigs (received_sigterm s) /\
  decode_interrupt_cb (deliver sigs s)
    = of_bool (transcode_init_done s
               <? received_nb_signals s + Z.of_nat (length sigs)) /\
  (received_nb_signals s = 0 -> transcode_init_done s = 0 ->
   (decode_interrupt_cb (deliver sigs s) = 1 <-> (1 <= length sigs)%nat)) /\
  (received_nb_signals s = 0 ->
   (decode_interrupt_cb (deliver sigs (init_done s)) = 1
    <-> (2 <= length sigs)%nat)).
Proof.
  intros He H0 Hn.
  destruct (deliver_counts sigs s He H0 Hn) as (A & B & C & D & F).
  split; [exact C|]. split; [exact D|]. split; [exact F|].
  assert (Hcb : decode_interrupt_cb (deliver sigs s)
                = of_bool (transcode_init_done s
                           <? received_nb_signals s + Z.of_nat (length sigs))).
  { unfold decode_interrupt_cb. rewrite A, B. reflexivity. }
  split; [exact Hcb|]. split.
  - intros Hz Hi. rewrite Hcb, Hz, Hi. unfold of_bool.
    destruct (0 <? 0 + Z.of_nat (length sigs)) eqn:E;
      [apply Z.ltb_lt in E|apply Z.ltb_ge in E]; split; intros H;
      try reflexivity; try lia; discriminate H.
  - intros Hz.
    destruct (deliver_counts sigs (init_done s)) as (A' & B' & _);
      [exact He|exact H0|exact Hn|].
    unfold decode_interrupt_cb. rewrite A', B'.
    cbn [init_done received_nb_signals transcode_init_done]. rewrite Hz.
    unfold of_bool.
    destruct (1 <? 0 + Z.of_nat (length sigs)) eqn:E;
      [apply Z.ltb_lt in E|apply Z.ltb_ge in E]; split; intros H;
      try reflexivity; try lia; discriminate H.
Qed.

Lemma interrupt_after_signals_witness :
  decode_interrupt_cb (deliver [SIGINT] (init_done (initial 0))) = 0 /\
  decode_interrupt_cb (deliver [SIGINT; SIGTERM] (init_done (initial 0))) = 1 /\
  received_sigterm (deliver [SIGINT; SIGTERM] (init_done (initial 0))) = SIGTERM.
Proof.
  destruct (interrupt_after_signals (init_done (initial 0)) [SIGINT])
    as (_ & _ & _ & H1 & _); [reflexivity|vm_compute; discriminate
                             |vm_compute; discriminate|].
  destruct (interrupt_after_signals (init_done (initial 0)) [SIGINT; SIGTERM])
    as (_ & _ & H2 & H3 & _); [reflexivity|vm_compute; discriminate
                              |vm_compute; discriminate|].
  split; [rewrite H1; reflexivity|]. split; [rewrite H3; reflexivity|].
  rewrite H2. reflexivity.
Defined.

End TerminalFacts.

Module FinishFacts.

Import Selector Driver Traversal Report Main Dispatch Finish.
Import DriverFacts DispatchFacts MainFacts.

Lemma refs_from_scan sh : forall fi k fi' k',
  scan_shape sh fi k = Some (fi', k') ->
  exists j n,
    fi' = (fi + j)%nat /\ sh !! j = Some n /\ (k' < n)%nat /\
    refs_from sh fi k = (fi', k') :: refs_from (drop j sh) fi' (S k').
Proof.
  induction sh as [|n sh IH]; intros fi k fi' k' H; [discriminate H|].
  cbn [scan_shape] in H. destruct (decide (k < n)%nat) as [Hlt|Hge].
  - inversion H; subst fi' k'. exists 0%nat, n.
    split; [lia|]. split; [reflexivity|]. split; [exact Hlt|].
    cbn [drop refs_from].
    replace (n - k)%nat with (S (n - S k)) by lia. reflexivity.
  - destruct (IH (S fi) 0%nat fi' k' H) as (j & m & -> & Hj & Hk & E).
    exists (S j), m. split; [lia|]. split; [exact Hj|]. split; [exact Hk|].
    cbn [refs_from drop].
    replace (n - k)%nat with 0%nat by lia. cbn [seq map app].
    rewrite E. replace (S fi + j)%nat with (fi + S j)%nat by lia. reflexivity.
Qed.

Lemma refs_from_none sh : forall fi k,
  scan_shape sh fi k = None -> refs_from sh fi k = [].
Proof.
  induction sh as [|n sh IH]; intros fi k H; [reflexivity|].
  cbn [scan_shape] in H. destruct (decide (k < n)%nat) as [Hlt|Hge];
    [discriminate H|].
  cbn [refs_from]. replace (n - k)%nat with 0%nat by lia.
  cbn [seq map app]. apply IH. exact H.
Qed.

Lemma shape_lookup w (fi n k : nat) :
  shape w !! fi = Some n -> (k < n)%nat -> is_Some (get_ist w (fi, k)).
Proof.
  unfold shape, get_ist. cbn [fst snd].
  change (map ?g ?l) with (g <$> l). rewrite list_lookup_fmap.
  destruct (input_files w !! fi) as [f|]; [|discriminate].
  simpl. intros H Hk. inversion H; subst n.
  apply lookup_lt_is_Some_2. exact Hk.
Qed.

Lemma ist_iter_scan w fi k s :
  in_indexed w -> get_ist w (fi, k) = Some s ->
  ist_iter w (Some (fi, k)) = scan_shape (drop fi (shape w)) fi (S k).
Proof.
  intros Hw Hs. unfold ist_iter. rewrite Hs.
  destruct (Hw _ _ _ Hs) as [-> ->].
  rewrite ist_scan_shape, <- skipn_map. reflexivity.
Qed.

Lemma ist_walk_from w :
  in_indexed w ->
  forall fuel fi k,
    (length (refs_from (drop fi (shape w)) fi k) < fuel)%nat ->
    ist_walk fuel w (scan_shape (drop fi (shape w)) fi k)
    = Some (refs_from (drop fi (shape w)) fi k).
Proof.
  intros Hw. induction fuel as [|fuel IH]; intros fi k Hlen; [lia|].
  destruct (scan_shape (drop fi (shape w)) fi k) as [[fi' k']|] eqn:Hscan.
  2:{ rewrite (refs_from_none _ _ _ Hscan). reflexivity. }
  destruct (refs_from_scan _ _ _ _ _ Hscan) as (j & n & -> & Hj & Hk & E).
  rewrite drop_drop in E. rewrite lookup_drop in Hj.
  destruct (shape_lookup w (fi + j) n k' Hj Hk) as [s Hs].
  cbn [ist_walk].
  match goal with
  | |- context [ist_walk fuel w ?c] =>
      replace c with (scan_shape (drop (fi + j) (shape w)) (fi + j) (S k'))
        by (symmetry; exact (ist_iter_scan w (fi + j) k' s Hw Hs))
  end.
  rewrite E in Hlen |- *. cbn [length] in Hlen.
  rewrite IH by lia. reflexivity.
Qed.

Lemma refs_from_elem sh : forall fi k (a b : nat),
  (a, b) ∈ refs_from sh fi k <->
  exists n, sh !! (a - fi)%nat = Some n /\ (fi <= a)%nat /\ (b < n)%nat /\
            (a = fi -> (k <= b)%nat).
Proof.
  induction sh as [|n sh IH]; intros fi k a b.
  { cbn [refs_from]. split; [intros H; inversion H|].
    intros (n & H & _). discriminate H. }
  cbn [refs_from]. rewrite elem_of_app, IH. split.
  - intros [H|(m & H1 & H2 & H3 & H4)].
    + apply list_elem_of_In, in_map_iff in H as (x & Hx & Hin).
      inversion Hx; subst a b. apply in_seq in Hin.
      exists n. rewrite Nat.sub_diag. split; [reflexivity|].
      split; [lia|]. split; [lia|]. intros _. lia.
    + exists m. replace (a - fi)%nat with (S (a - S fi)) by lia.
      split; [exact H1|]. split; [lia|]. split; [exact H3|]. intros ->. lia.
  - intros (m & H1 & H2 & H3 & H4).
    destruct (decide (a = fi)) as [->|Hne].
    + left. rewrite Nat.sub_diag in H1. inversion H1; subst m.
      apply list_elem_of_In, in_map_iff. exists b. split; [reflexivity|].
      apply in_seq. specialize (H4 eq_refl). lia.
    + right. exists m. replace (a - fi)%nat with (S (a - S fi)) in H1 by lia.
      split; [exact H1|]. split; [lia|]. split; [exact H3|]. intros ->. lia.
Qed.

(** X22.  Started at NULL and fed its own result, [ist_iter] returns the input
    streams file by file and stream by stream, skipping files without
    streams, and then NULL; the streams it returns are exactly the input
    streams there are. *)
Theorem ist_iter_visits_all w fuel :
  in_indexed w -> (length (all_inputs w) < fuel)%nat ->
  ist_walk fuel w (ist_iter w None) = Some (all_inputs w) /\
  (forall r, r ∈ all_inputs w <-> is_Some (get_ist w r)).
Proof.
  intros Hw Hfuel. split.
  - unfold ist_iter. rewrite ist_scan_shape.
    change (map _ (input_files w)) with (shape w).
    pose proof (ist_walk_from w Hw fuel 0 0) as H. rewrite drop_0 in H.
    apply H. exact Hfuel.
  - intros [a b]. unfold all_inputs. rewrite refs_from_elem.
    rewrite Nat.sub_0_r. split.
    + intros (n & H1 & _ & H3 & _). apply (shape_lookup w a n b H1 H3).
    + intros [s Hs]. unfold get_ist in Hs. cbn [fst snd] in Hs.
      destruct (input_files w !! a) as [f|] eqn:Hf; [|discriminate Hs].
      exists (length (if_streams f)). split.
      { unfold shape. change (map ?g ?l) with (g <$> l).
        rewrite list_lookup_fmap, Hf. reflexivity. }
      split; [lia|]. split; [apply lookup_lt_Some in Hs; exact Hs|]. lia.
Qed.

Lemma ist_iter_visits_all_witness :
  ist_walk 3 finished_world (ist_iter finished_world None)
  = Some [(0, 0); (0, 1)]%nat.
Proof.
  apply (ist_iter_visits_all finished_world 3 finished_world_indexed).
  vm_compute. lia.
Defined.

Lemma length_refs_from sh : forall fi k,
  length (refs_from sh fi k) = left_to_visit sh k.
Proof.
  induction sh as [|n sh IH]; intros fi k; [reflexivity|].
  cbn [refs_from left_to_visit].
  rewrite length_app, length_map, length_seq, IH. reflexivity.
Qed.

Lemma length_outputs_close w r :
  length (output_files (close_output_stream w r)) = length (output_files w).
Proof.
  unfold close_output_stream. destruct (get_ost w r) as [x|]; [|reflexivity].
  destruct (0 <=? sq_idx_encode x); cbn [emit set_ost output_files];
    apply length_alter.
Qed.

Lemma length_outputs_streamcopy outs pkt no_eof ex d :
  forall w,
    length (output_files (streamcopy_outputs outs pkt no_eof ex d w))
    = length (output_files w).
Proof.
  induction outs as [|o outs IH]; intros w; [reflexivity|].
  cbn [streamcopy_outputs]. destruct (get_ost w o) as [ost|]; [|apply IH].
  destruct (enc ost || (is_null pkt && negb (no_eof =? 0))); [apply IH|].
  destruct ex; rewrite IH; [apply length_outputs_close|reflexivity].
Qed.

Lemma length_outputs_process_input_packet opt w r pkt no_eof :
  length (output_files (snd (process_input_packet opt w r pkt no_eof)))
  = length (output_files w).
Proof.
  unfold process_input_packet.
  destruct (get_ist w r) as [s|] eqn:Hs; [|reflexivity].
  destruct (input_files w !! ist_file_index s) as [f|]; [|reflexivity].
  rewrite (dec_packet_valid w r pkt no_eof s Hs).
  destruct (decoding_needed s =? 0); cbn [snd];
    rewrite length_outputs_streamcopy; reflexivity.
Qed.

Lemma out_shape_alter ofs i j v :
  out_shape (alter (fun f => {| of_streams := <[j := v]> (of_streams f) |}) i ofs)
  = out_shape ofs.
Proof.
  unfold out_shape. revert i. induction ofs as [|f l IH]; intros i;
    [reflexivity|].
  destruct i as [|i]; simpl.
  - rewrite length_insert. reflexivity.
  - f_equal. apply IH.
Qed.

Lemma out_shape_close w r :
  out_shape (output_files (close_output_stream w r)) = out_shape (output_files w).
Proof.
  unfold close_output_stream. destruct (get_ost w r) as [x|]; [|reflexivity].
  destruct (0 <=? sq_idx_encode x); cbn [emit set_ost output_files];
    apply out_shape_alter.
Qed.

Lemma indexed_close w r :
  indexed (output_files w) -> indexed (output_files (close_output_stream w r)).
Proof.
  intros Hix. unfold close_output_stream.
  destruct (get_ost w r) as [x|] eqn:Hx; [|exact Hix].
  assert (Hp : ost_file_index x = r.1 /\ ost_index x = r.2).
  { unfold get_ost in Hx.
    destruct (output_files w !! r.1) as [f|] eqn:Hf; [|discriminate Hx].
    apply (Hix _ _ _ _ Hf Hx). }
  destruct Hp as [Hp1 Hp2].
  destruct (0 <=? sq_idx_encode x); cbn [emit set_ost output_files];
    apply SchedulerFacts.indexed_marked; assumption.
Qed.

Lemma outputs_streamcopy outs pkt no_eof ex d :
  forall w,
    out_shape (output_files (streamcopy_outputs outs pkt no_eof ex d w))
      = out_shape (output_files w) /\
    (indexed (output_files w) ->
     indexed (output_files (streamcopy_outputs outs pkt no_eof ex d w))).
Proof.
  induction outs as [|o outs IH]; intros w; [split; auto|].
  cbn [streamcopy_outputs]. destruct (get_ost w o) as [ost|]; [|apply IH].
  destruct (enc ost || (is_null pkt && negb (no_eof =? 0))); [apply IH|].
  destruct ex.
  - destruct (IH (close_output_stream w o)) as [A B]. split.
    + rewrite A. apply out_shape_close.
    + intros H. apply B, indexed_close, H.
  - apply (IH (emit (EvStreamCopy o pkt d) w)).
Qed.

Lemma outputs_process_input_packet opt w r pkt no_eof :
  out_shape (output_files (snd (process_input_packet opt w r pkt no_eof)))
    = out_shape (output_files w) /\
  (indexed (output_files w) ->
   indexed (output_files (snd (process_input_packet opt w r pkt no_eof)))).
Proof.
  unfold process_input_packet.
  destruct (get_ist w r) as [s|] eqn:Hs; [|split; auto].
  destruct (input_files w !! ist_file_index s) as [f|]; [|split; auto].
  rewrite (dec_packet_valid w r pkt no_eof s Hs).
  destruct (decoding_needed s =? 0); cbn [snd].
  - apply outputs_streamcopy.
  - apply (outputs_streamcopy (outputs s) pkt no_eof _ _
             (emit (EvDecPacket r pkt no_eof (dec_ret (next_answer s)))
                   (set_ist w r (after_answer s)))).
Qed.

Lemma length_all_streams_shape ofs : forall ofs',
  out_shape ofs' = out_shape ofs ->
  length (all_streams ofs') = length (all_streams ofs).
Proof.
  induction ofs as [|f l IH]; intros [|f' l'] H; try discriminate H;
    [reflexivity|].
  unfold out_shape in H. cbn [map] in H. inversion H as [[H1 H2]].
  rewrite !SelectorFacts.all_streams_cons, !length_app, H1.
  f_equal. apply IH. exact H2.
Qed.

Lemma length_out_shape ofs ofs' :
  out_shape ofs' = out_shape ofs -> length ofs' = length ofs.
Proof.
  intros H. apply (f_equal (@length nat)) in H. unfold out_shape in H.
  rewrite !length_map in H. exact H.
Qed.

Lemma rate_exceeded_ext opt w w' l :
  (forall r, r ∈ l -> get_ist w' r = get_ist w r) ->
  existsb (rate_exceeded opt w') l = existsb (rate_exceeded opt w) l.
Proof.
  induction l as [|r l IH]; intros H; [reflexivity|].
  cbn [existsb]. rewrite IH.
  - unfold rate_exceeded. rewrite (H r) by apply list_elem_of_here.
    reflexivity.
  - intros r' Hr'. apply H, list_elem_of_further, Hr'.
Qed.

Lemma fits_now s :
  fits s ->
  0 <= frames_decoded s /\ 0 <= decode_errors s /\
  frames_decoded s + decode_errors s < 2 ^ 64.
Proof. unfold fits. lia. Qed.

Lemma fits_after s :
  fits s ->
  0 <= frames_decoded (after_answer s) /\
  0 <= decode_errors (after_answer s) /\
  frames_decoded (after_answer s) + decode_errors (after_answer s) < 2 ^ 64.
Proof.
  unfold fits. intros (A & B & C & D & E). cbn [after_answer frames_decoded
    decode_errors].
  rewrite !CIntFacts.wrapu64_id by lia. lia.
Qed.

Lemma refs_from_fresh sh fi k :
  (fi, k) ∉ refs_from sh fi (S k).
Proof.
  intros H. apply refs_from_elem in H as (n & _ & _ & _ & H).
  specialize (H eq_refl). lia.
Qed.

(** The loop over the input streams ends within one iteration per
    stream; while no sum of counters wraps it ends by returning, with
    [*err_rate_exceeded] set exactly when the test held for one of the
    streams it went over, as the loop leaves them. *)
Lemma error_rate_loop_verdict opt :
  forall fuel w fi k ex,
    in_indexed w ->
    (forall r s, r ∈ refs_from (drop fi (shape w)) fi k ->
                 get_ist w r = Some s -> fits s) ->
    (left_to_visit (drop fi (shape w)) k < fuel)%nat ->
    exists w',
      error_rate_loop fuel opt (scan_shape (drop fi (shape w)) fi k) w ex
      = Some (Ended (if existsb (rate_exceeded opt w')
                                (refs_from (drop fi (shape w)) fi k)
                     then 1 else ex, w')) /\
      shape w' = shape w /\ in_indexed w' /\
      (forall r, r ∉ refs_from (drop fi (shape w)) fi k ->
                 get_ist w' r = get_ist w r) /\
      extends_by (fun e => is_finish e = false) w w' /\
      out_shape (output_files w') = out_shape (output_files w) /\
      (indexed (output_files w) -> indexed (output_files w')).
Proof.
  induction fuel as [|fuel IH]; intros w fi k ex Hw Hfit Hfuel; [lia|].
  destruct (scan_shape (drop fi (shape w)) fi k) as [[fi' k']|] eqn:Hscan.
  2:{ rewrite (refs_from_none _ _ _ Hscan). exists w. cbn [existsb].
      split; [reflexivity|]. split; [reflexivity|]. split; [exact Hw|].
      split; [reflexivity|]. split; [apply extends_by_refl|]. auto. }
  destruct (refs_from_scan _ _ _ _ _ Hscan) as (j & n & -> & Hj & Hk & E).
  rewrite drop_drop in E. rewrite lookup_drop in Hj.
  destruct (shape_lookup w (fi + j) n k' Hj Hk) as [s Hs].
  assert (Hm : (left_to_visit (drop (fi + j) (shape w)) (S k') < fuel)%nat).
  { rewrite <- !(length_refs_from _ fi) in Hfuel.
    rewrite <- (length_refs_from _ (fi + j)).
    rewrite E in Hfuel. cbn [length] in Hfuel. lia. }
  set (r := (fi + j, k')%nat) in *.
  set (rest := refs_from (drop (fi + j) (shape w)) (fi + j) (S k')) in *.
  assert (Hfresh : r ∉ rest) by apply refs_from_fresh.
  assert (Hfs : fits s).
  { apply (Hfit r s); [rewrite E; apply list_elem_of_here|exact Hs]. }
  cbn [error_rate_loop]. rewrite Hs.
  match goal with |- context [get_ist ?w0 r] =>
    match w0 with
    | w => fail 1
    | _ => set (w1 := w0)
    end
  end.
  assert (H1 : shape w1 = shape w /\ in_indexed w1 /\
               (forall r', r' <> r -> get_ist w1 r' = get_ist w r') /\
               (get_ist w1 r = Some s \/ get_ist w1 r = Some (after_answer s)) /\
               extends_by (fun e => is_finish e = false) w w1 /\
               out_shape (output_files w1) = out_shape (output_files w) /\
               (indexed (output_files w) -> indexed (output_files w1))).
  { assert (Hsame : shape w = shape w /\ in_indexed w /\
               (forall r', r' <> r -> get_ist w r' = get_ist w r') /\
               (get_ist w r = Some s \/ get_ist w r = Some (after_answer s)) /\
               extends_by (fun e => is_finish e = false) w w /\
               out_shape (output_files w) = out_shape (output_files w) /\
               (indexed (output_files w) -> indexed (output_files w))).
    { split; [reflexivity|]. split; [exact Hw|]. split; [reflexivity|].
      split; [auto|]. split; [apply extends_by_refl|]. auto. }
    subst w1. destruct (input_files w !! ist_file_index s) as [f|];
      [|exact Hsame].
    destruct (eof_reached f =? 0); [|exact Hsame].
    destruct (process_input_packet_steady opt w r None 0 Hw) as [A B].
    destruct (process_input_packet_keeps opt w r None 0)
      as (_ & K2 & K3 & _).
    destruct (outputs_process_input_packet opt w r None 0) as [C D].
    split; [exact A|]. split; [exact B|]. split; [exact K2|].
    split; [apply K3, Hs|].
    split; [apply extends_by_process_input_packet; reflexivity|]. auto. }
  destruct H1 as (Hsh1 & Hw1 & Ho1 & Hr1 & Hx1 & Hos1 & Hix1).
  assert (Hrate : exists s1 z,
            get_ist w1 r = Some s1 /\ err_rate s1 = Some (inject_Z z)).
  { destruct Hr1 as [H|H].
    - exists s. eexists. split; [exact H|].
      destruct (fits_now s Hfs) as (A & B & C).
      apply err_rate_integer; assumption.
    - exists (after_answer s). eexists. split; [exact H|].
      destruct (fits_after s Hfs) as (A & B & C).
      apply err_rate_integer; assumption. }
  destruct Hrate as (s1 & z & Hs1 & Hz).
  rewrite Hs1, Hz.
  set (rate := inject_Z z) in *.
  match goal with
  | |- context [let '(_, _) := ?c in _] => destruct c as [ex2 w2] eqn:Ec
  end.
  assert (H2 : input_files w2 = input_files w1 /\
               output_files w2 = output_files w1 /\
               extends_by (fun e => is_finish e = false) w1 w2 /\
               ex2 = if Qlt_bool (max_error_rate opt) rate then 1 else ex).
  { destruct (Qlt_bool (max_error_rate opt) rate);
      [|destruct (negb (Qeq_bool rate 0))];
      inversion Ec; subst ex2 w2;
      (split; [reflexivity|]); (split; [reflexivity|]);
      (split; [first [apply extends_by_emit; reflexivity
                     |apply extends_by_refl]|reflexivity]). }
  destruct H2 as (Hi2 & Ho2 & Hx2 & He2).
  assert (Hg2 : forall r', get_ist w2 r' = get_ist w1 r')
    by (intros r'; apply get_ist_inputs; exact Hi2).
  assert (Hw2 : in_indexed w2) by (apply (in_indexed_inputs w1); assumption).
  assert (Hsh2 : shape w2 = shape w)
    by (unfold shape in *; rewrite Hi2; exact Hsh1).
  assert (Hs2 : get_ist w2 r = Some s1) by (rewrite Hg2; exact Hs1).
  match goal with
  | |- context [error_rate_loop fuel opt ?c w2 ex2] =>
      replace c with (scan_shape (drop (fi + j) (shape w2)) (fi + j) (S k'))
        by (symmetry; exact (ist_iter_scan w2 (fi + j) k' s1 Hw2 Hs2))
  end.
  destruct (IH w2 (fi + j)%nat (S k') ex2 Hw2) as (w' & A & B & C & D & F & G & H).
  { rewrite Hsh2. fold rest. intros r' s' Hin Hs'.
    apply (Hfit r' s').
    - rewrite E. apply list_elem_of_further, Hin.
    - rewrite <- Ho1, <- Hg2; [exact Hs'|]. intros ->. contradiction. }
  { rewrite Hsh2. exact Hm. }
  rewrite Hsh2 in A, D. fold rest in A, D.
  exists w'. rewrite Hsh2, A, E. cbn [existsb].
  assert (Hr' : rate_exceeded opt w' r = Qlt_bool (max_error_rate opt) rate).
  { unfold rate_exceeded. rewrite (D r Hfresh), Hs2, Hz. reflexivity. }
  rewrite Hr', He2.
  split.
  { destruct (Qlt_bool (max_error_rate opt) rate); cbn [orb]; [|reflexivity].
    destruct (existsb (rate_exceeded opt w') rest); reflexivity. }
  split; [congruence|]. split; [exact C|].
  split.
  { intros r' Hr. rewrite D by (intros Hin; apply Hr, list_elem_of_further, Hin).
    rewrite Hg2. apply Ho1. intros ->. apply Hr, list_elem_of_here. }
  split.
  { eapply extends_by_trans; [exact Hx1|].
    eapply extends_by_trans; [exact Hx2|exact F]. }
  split; [rewrite G, Ho2; exact Hos1|].
  intros Hix. apply H. rewrite Ho2. apply Hix1, Hix.
Qed.

Lemma ost_walk_all ofs fuel :
  indexed ofs -> (length (all_streams ofs) < fuel)%nat ->
  ost_walk fuel ofs (ost_iter ofs None) = Some (all_streams ofs).
Proof.
  intros Hix Hlen. unfold ost_iter. destruct ofs as [|f post].
  - destruct fuel; reflexivity.
  - pose proof (TraversalFacts.ost_walk_from (f :: post) Hix fuel [] f post
                  0%nat) as H.
    rewrite drop_0 in H. apply H; [reflexivity|exact Hlen].
Qed.

(** The last report is always made, and its loop ends within one
    iteration per output stream. *)
Lemma print_report_last fuel copy_ts rep ofs :
  indexed ofs -> (length (all_streams ofs) < fuel)%nat ->
  exists sh, print_report fuel copy_ts rep 1 ofs = Some sh /\ made sh = true.
Proof.
  intros Hix Hlen. unfold print_report, report_gate.
  rewrite andb_false_r. cbn [andb Z.eqb].
  rewrite (ost_walk_all ofs fuel Hix Hlen).
  destruct (report_pts copy_ts (rep_first_pts rep) (all_streams ofs)).
  eexists. split; reflexivity.
Qed.

Section Collaborators.

Variable enc_flush : OutputStream -> OutputStream.
Variable of_write_trailer : nat -> Z.
Variable err_merge : Z -> Z -> Z.

Lemma out_shape_flush ofs :
  out_shape (flush_encoders enc_flush ofs) = out_shape ofs.
Proof.
  unfold out_shape, flush_encoders. rewrite map_map. apply map_ext.
  intros f. cbn [of_streams]. apply length_map.
Qed.

Lemma indexed_flush ofs :
  indexed ofs -> indexed (flush_encoders enc_flush ofs).
Proof.
  intros Hix i f j x Hi Hj. unfold flush_encoders in Hi.
  change (map ?g ?l) with (g <$> l) in Hi. rewrite list_lookup_fmap in Hi.
  destruct (ofs !! i) as [f0|] eqn:Hf0; [|discriminate Hi].
  simpl in Hi. inversion Hi; subst f; clear Hi. cbn [of_streams] in Hj.
  change (map ?g ?l) with (g <$> l) in Hj. rewrite list_lookup_fmap in Hj.
  destruct (of_streams f0 !! j) as [x0|] eqn:Hx0; [|discriminate Hj].
  simpl in Hj. inversion Hj; subst x. cbn [keep_position ost_file_index
    ost_index]. apply (Hix i f0 j x0 Hf0 Hx0).
Qed.

Lemma write_trailers_all idxs : forall ret w,
  write_trailers of_write_trailer err_merge idxs ret w =
  (fold_left (fun r i => err_merge r (of_write_trailer i)) idxs ret,
   with_trace w (trace w ++ map (fun i => EvWriteTrailer i (of_write_trailer i))
                                idxs)).
Proof.
  induction idxs as [|i idxs IH]; intros ret w.
  - simpl. rewrite app_nil_r, with_trace_same. reflexivity.
  - cbn [write_trailers fold_left map]. rewrite IH.
    unfold with_trace, emit. simpl. rewrite <- app_assoc. reflexivity.
Qed.

(** From the exit of the scheduling loop [transcode] returns: the loop
    over the input streams leaves [w1], and the rest is the flush of the
    encoders, the terminal, the trailers and the last report. *)
Lemma transcode_end_runs fuel opt rep loop_ret w :
  in_indexed w -> indexed (output_files w) -> counters_fit w ->
  (length (all_inputs w) < fuel)%nat ->
  (length (all_streams (output_files w)) < fuel)%nat ->
  exists w1 pre,
    error_rate_loop fuel opt (ist_iter w None) w 0
      = Some (Ended (of_bool (existsb (rate_exceeded opt w1) (all_inputs w)),
                     w1)) /\
    shape w1 = shape w /\
    trace w1 = trace w ++ pre /\
    Forall (fun e => is_finish e = false) pre /\
    length (output_files w1) = length (output_files w) /\
    transcode_end enc_flush of_write_trailer err_merge fuel opt rep loop_ret w
      = Some (Ended
          (fold_left (fun r i => err_merge r (of_write_trailer i))
                     (seq 0 (length (output_files w))) loop_ret,
           of_bool (existsb (rate_exceeded opt w1) (all_inputs w)),
           {| input_files := input_files w1;
              output_files := flush_encoders enc_flush (output_files w1);
              mem := mem w1;
              trace := trace w ++ pre
                       ++ [EvEncFlush; EvTermExit]
                       ++ map (fun i => EvWriteTrailer i (of_write_trailer i))
                              (seq 0 (length (output_files w)))
                       ++ [EvPrintReport 1] |})).
Proof.
  intros Hw Hix Hfit Hf1 Hf2.
  pose proof (error_rate_loop_verdict opt fuel w 0%nat 0%nat 0 Hw) as H.
  rewrite drop_0 in H.
  destruct H as (w1 & E & Hsh & Hw1 & _ & (pre & Ht & Hp) & Hos & Hix1).
  { intros r s _ Hs. apply (Hfit r s Hs). }
  { rewrite <- (length_refs_from _ 0%nat). exact Hf1. }
  assert (E' : error_rate_loop fuel opt (ist_iter w None) w 0
               = Some (Ended (of_bool (existsb (rate_exceeded opt w1)
                                               (all_inputs w)), w1))).
  { unfold ist_iter. rewrite ist_scan_shape.
    change (map _ (input_files w)) with (shape w). rewrite E.
    unfold all_inputs, of_bool.
    destruct (existsb (rate_exceeded opt w1) (refs_from (shape w) 0 0));
      reflexivity. }
  assert (Hl : length (output_files w1) = length (output_files w))
    by (apply length_out_shape, Hos).
  exists w1, pre. split; [exact E'|]. split; [exact Hsh|].
  split; [exact Ht|]. split; [exact Hp|]. split; [exact Hl|].
  unfold transcode_end. rewrite E'. rewrite write_trailers_all.
  cbn [emit with_outputs with_trace output_files trace input_files mem].
  destruct (print_report_last fuel (copy_ts opt) rep
              (flush_encoders enc_flush (output_files w1)))
    as (sh & Hsh' & Hmade).
  { apply indexed_flush, Hix1, Hix. }
  { rewrite (length_all_streams_shape (output_files w)); [exact Hf2|].
    rewrite out_shape_flush. exact Hos. }
  rewrite Hsh', Hmade.
  unfold with_trace, emit, with_outputs.
  cbn [output_files trace input_files mem].
  assert (Hlf : length (flush_encoders enc_flush (output_files w1))
                = length (output_files w))
    by (unfold flush_encoders; rewrite length_map; exact Hl).
  rewrite Hlf, Ht, <- !app_assoc. reflexivity.
Qed.

(** X23.  Once the scheduling loop has ended, on a pipeline whose streams
    record their positions and whose counters do not wrap, [transcode]
    returns: it flushes the encoders, gives the terminal back, writes the
    trailer of every output file in order, and prints the last report,
    in this order and after everything else.  A trailer that fails does
    not stop the others from being written: the return value is the
    status the loop left, merged in turn with the status of each
    trailer.  [*err_rate_exceeded] ends as 0 or 1. *)
Theorem transcode_finishes fuel opt rep loop_ret w :
  in_indexed w -> indexed (output_files w) -> counters_fit w ->
  (length (all_inputs w) < fuel)%nat ->
  (length (all_streams (output_files w)) < fuel)%nat ->
  exists exceeded w' pre,
    transcode_end enc_flush of_write_trailer err_merge fuel opt rep loop_ret w =
      Some (Ended (fold_left (fun r i => err_merge r (of_write_trailer i))
                             (seq 0 (length (output_files w))) loop_ret,
                   exceeded, w')) /\
    (exceeded = 0 \/ exceeded = 1) /\
    trace w' = trace w ++ pre
               ++ [EvEncFlush; EvTermExit]
               ++ map (fun i => EvWriteTrailer i (of_write_trailer i))
                      (seq 0 (length (output_files w)))
               ++ [EvPrintReport 1] /\
    Forall (fun e => is_finish e = false) pre.
Proof.
  intros Hw Hix Hfit Hf1 Hf2.
  destruct (transcode_end_runs fuel opt rep loop_ret w Hw Hix Hfit Hf1 Hf2)
    as (w1 & pre & _ & _ & _ & Hp & _ & E).
  do 2 eexists. exists pre. split; [exact E|].
  split; [destruct (existsb _ _); auto|].
  split; [reflexivity|exact Hp].
Qed.

Lemma error_rate_loop_at_eof opt :
  forall fuel w fi k ex,
    in_indexed w -> at_eof w -> counters_fit w ->
    (left_to_visit (drop fi (shape w)) k < fuel)%nat ->
    exists w',
      error_rate_loop fuel opt (scan_shape (drop fi (shape w)) fi k) w ex
      = Some (Ended (if existsb (rate_exceeded opt w)
                                (refs_from (drop fi (shape w)) fi k)
                     then 1 else ex, w')) /\
      input_files w' = input_files w /\
      extends_by (fun e => match e with
                           | EvLogErrorRateFatal _ _ _ | EvLogErrorRate _ _ => True
                           | _ => False
                           end) w w'.
Proof.
  induction fuel as [|fuel IH]; intros w fi k ex Hw Heof Hfit Hfuel; [lia|].
  destruct (scan_shape (drop fi (shape w)) fi k) as [[fi' k']|] eqn:Hscan.
  2:{ rewrite (refs_from_none _ _ _ Hscan). exists w. cbn [existsb].
      split; [reflexivity|]. split; [reflexivity|]. apply extends_by_refl. }
  destruct (refs_from_scan _ _ _ _ _ Hscan) as (j & n & -> & Hj & Hk & E).
  rewrite drop_drop in E. rewrite lookup_drop in Hj.
  destruct (shape_lookup w (fi + j) n k' Hj Hk) as [s Hs].
  assert (Hm : (left_to_visit (drop (fi + j) (shape w)) (S k') < fuel)%nat).
  { rewrite <- !(length_refs_from _ fi) in Hfuel.
    rewrite <- (length_refs_from _ (fi + j)).
    rewrite E in Hfuel. cbn [length] in Hfuel. lia. }
  cbn [error_rate_loop]. rewrite Hs.
  assert (Hw1 : match input_files w !! ist_file_index s with
                | Some f =>
                    if eof_reached f =? 0
                    then snd (process_input_packet opt w (fi + j, k')%nat None 0)
                    else w
                | None => w
                end = w).
  { destruct (input_files w !! ist_file_index s) as [f|] eqn:Hf; [|reflexivity].
    pose proof (Heof _ _ Hf) as Hne. apply Z.eqb_neq in Hne. rewrite Hne.
    reflexivity. }
  rewrite Hw1, Hs. rewrite E. cbn [existsb].
  unfold rate_exceeded at 1. rewrite Hs.
  destruct (fits_now s (Hfit _ _ Hs)) as (F1 & F2 & F3).
  rewrite (err_rate_integer s F1 F2 F3).
  set (rate := inject_Z _).
  destruct (Qlt_bool (max_error_rate opt) rate) eqn:Eq.
  - set (w2 := emit (EvLogErrorRateFatal (fi + j, k')%nat rate
                       (max_error_rate opt)) w).
    assert (Hs2 : get_ist w2 (fi + j, k')%nat = Some s) by exact Hs.
    match goal with
    | |- context [error_rate_loop fuel opt ?c w2 1] =>
        replace c with (scan_shape (drop (fi + j) (shape w2)) (fi + j) (S k'))
          by (symmetry; exact (ist_iter_scan w2 (fi + j) k' s Hw Hs2))
    end.
    destruct (IH w2 (fi + j)%nat (S k') 1 Hw Heof Hfit Hm) as (w' & A & B & D).
    exists w'. cbn [orb]. rewrite A.
    split.
    { do 3 f_equal.
      destruct (existsb (rate_exceeded opt w2)
                  (refs_from (drop (fi + j) (shape w2)) (fi + j) (S k')));
        reflexivity. }
    split; [exact B|].
    eapply extends_by_trans; [|exact D]. apply extends_by_emit. exact I.
  - cbn [orb].
    destruct (negb (Qeq_bool rate 0)).
    + set (w2 := emit (EvLogErrorRate (fi + j, k')%nat rate) w).
      assert (Hs2 : get_ist w2 (fi + j, k')%nat = Some s) by exact Hs.
      match goal with
      | |- context [error_rate_loop fuel opt ?c w2 ex] =>
          replace c with (scan_shape (drop (fi + j) (shape w2)) (fi + j) (S k'))
            by (symmetry; exact (ist_iter_scan w2 (fi + j) k' s Hw Hs2))
      end.
      destruct (IH w2 (fi + j)%nat (S k') ex Hw Heof Hfit Hm) as (w' & A & B & D).
      exists w'. rewrite A.
      split; [reflexivity|]. split; [exact B|].
      eapply extends_by_trans; [|exact D]. apply extends_by_emit. exact I.
    + match goal with
      | |- context [error_rate_loop fuel opt ?c w ex] =>
          replace c with (scan_shape (drop (fi + j) (shape w)) (fi + j) (S k'))
            by (symmetry; exact (ist_iter_scan w (fi + j) k' s Hw Hs))
      end.
      apply (IH w (fi + j)%nat (S k') ex Hw Heof Hfit Hm).
Qed.

Lemma rate_exceeded_integer opt s :
  (0 <= max_error_rate opt)%Q ->
  0 <= frames_decoded s -> 0 <= decode_errors s ->
  frames_decoded s + decode_errors s < 2 ^ 64 ->
  (match err_rate s with
   | Some rate => Qlt_bool (max_error_rate opt) rate
   | None => false
   end = true <->
   frames_decoded s = 0 /\ 0 < decode_errors s /\ (max_error_rate opt < 1)%Q).
Proof.
  intros Hm Hf Hd Hsum. rewrite (err_rate_integer s Hf Hd Hsum).
  unfold Qlt_bool. rewrite negb_true_iff.
  destruct ((frames_decoded s =? 0) && (0 <? decode_errors s)) eqn:E.
  - apply andb_true_iff in E as [E1 E2].
    apply Z.eqb_eq in E1. apply Z.ltb_lt in E2.
    split.
    + intros H. split; [exact E1|]. split; [exact E2|].
      apply Qnot_le_lt. intros Hle. apply Qle_bool_iff in Hle.
      change (inject_Z 1) with 1%Q in H. congruence.
    + intros (_ & _ & H). apply not_true_is_false. intros Hle.
      apply Qle_bool_iff in Hle. change (inject_Z 1) with 1%Q in Hle.
      apply (Qlt_not_le _ _ H Hle).
  - split.
    + intros H. exfalso.
      assert (Hle : Qle_bool (inject_Z 0) (max_error_rate opt) = true)
        by (apply Qle_bool_iff; exact Hm).
      congruence.
    + intros (E1 & E2 & _). apply Z.eqb_eq in E1. apply Z.ltb_lt in E2.
      rewrite E1, E2 in E. discriminate E.
Qed.

(** X24.  When every input file has reached its end and no sum of
    counters wraps, the last loop of [transcode] sends no packet to any
    decoder or muxer, and [*err_rate_exceeded] ends as 1 exactly when the
    test [err_rate > max_error_rate] holds for some input stream.  With
    the integer division of the counters that test holds, for a
    [max_error_rate] that is not negative, exactly for a stream that
    decoded no frame and failed on at least one packet, and only if
    [max_error_rate] is below 1. *)
Theorem transcode_error_verdict fuel opt rep loop_ret w :
  in_indexed w -> indexed (output_files w) -> counters_fit w -> at_eof w ->
  (length (all_inputs w) < fuel)%nat ->
  (length (all_streams (output_files w)) < fuel)%nat ->
  (0 <= max_error_rate opt)%Q ->
  exists ret w',
    transcode_end enc_flush of_write_trailer err_merge fuel opt rep loop_ret w =
      Some (Ended (ret, of_bool (existsb (rate_exceeded opt w) (all_inputs w)),
                   w')) /\
    Forall (fun e => carries_packet e = false
                     /\ (forall r p n v, e <> EvDecPacket r p n v))
           (drop (length (trace w)) (trace w')) /\
    (forall r s,
       get_ist w r = Some s ->
       (rate_exceeded opt w r = true <->
        frames_decoded s = 0 /\ 0 < decode_errors s /\
        (max_error_rate opt < 1)%Q)).
Proof.
  intros Hw Hix Hfit Heof Hf1 Hf2 Hmax.
  destruct (transcode_end_runs fuel opt rep loop_ret w Hw Hix Hfit Hf1 Hf2)
    as (w1 & pre & E1 & _ & Ht & _ & _ & E).
  pose proof (error_rate_loop_at_eof opt fuel w 0%nat 0%nat 0 Hw Heof Hfit) as H.
  rewrite drop_0 in H. destruct H as (w1' & E2 & Hi & (evs & Ht' & Hlog)).
  { rewrite <- (length_refs_from _ 0%nat). exact Hf1. }
  unfold ist_iter in E1. rewrite ist_scan_shape in E1.
  change (map _ (input_files w)) with (shape w) in E1.
  rewrite E2 in E1. injection E1 as _ Hw1. subst w1'.
  rewrite Ht in Ht'. apply app_inv_head in Ht'. subst evs.
  assert (Hex : existsb (rate_exceeded opt w1) (all_inputs w)
                = existsb (rate_exceeded opt w) (all_inputs w)).
  { apply rate_exceeded_ext. intros r _. apply get_ist_inputs. exact Hi. }
  rewrite Hex in E.
  do 2 eexists. split; [exact E|]. split.
  { cbn [trace]. rewrite drop_app_length.
    apply Forall_app. split.
    - eapply Forall_impl; [exact Hlog|]. intros e He.
      destruct e; try contradiction; split; try reflexivity; discriminate.
    - repeat (apply Forall_cons; split;
              [split; [reflexivity|discriminate]|]).
      apply Forall_app. split.
      + apply Forall_forall. intros e He.
        apply list_elem_of_In, in_map_iff in He as (i & <- & _).
        split; [reflexivity|discriminate].
      + repeat constructor; discriminate. }
  intros r s Hs. unfold rate_exceeded. rewrite Hs.
  destruct (fits_now s (Hfit r s Hs)) as (F1 & F2 & F3).
  apply rate_exceeded_integer; assumption.
Qed.


End Collaborators.

Lemma three_outputs_indexed : in_indexed three_outputs.
Proof. exact finished_world_indexed. Qed.

Lemma three_outputs_positions : indexed (output_files three_outputs).
Proof.
  intros i f j o Hi Hj.
  destruct i as [|[|[|i]]]; simpl in Hi; inversion Hi; subst f;
    destruct j as [|[|[|j]]]; simpl in Hj; inversion Hj; subst o; auto.
Qed.

Lemma sample_streams_fit w :
  input_files w = input_files sample_world \/
  input_files w = input_files finished_world \/
  input_files w = input_files failed_world ->
  counters_fit w.
Proof.
  intros H [fi i] s Hs. unfold get_ist in Hs. cbn [fst snd] in Hs.
  destruct H as [H|[H|H]]; rewrite H in Hs;
    (destruct fi as [|fi]; [|discriminate Hs]);
    (destruct i as [|[|i]]; simpl in Hs; inversion Hs; subst s);
    unfold fits; vm_compute; repeat split; discriminate.
Qed.

Lemma failed_world_indexed : in_indexed failed_world.
Proof.
  intros fi i s H. unfold get_ist, failed_world in H. simpl in H.
  destruct fi as [|fi]; simpl in H; [|discriminate H].
  destruct i as [|[|i]]; simpl in H; inversion H; auto.
Qed.


(** With three output files of which the second fails to write its
    trailer, all three trailers are written and the failure is
    returned. *)
Lemma transcode_finishes_witness :
  exists exceeded w' pre,
    transcode_end flush_ends second_fails first_error 6 sample_options
      first_call 0 three_outputs =
      Some (Ended (-5, exceeded, w')) /\
    trace w' = trace three_outputs ++ pre
               ++ [EvEncFlush; EvTermExit]
               ++ [EvWriteTrailer 0 0; EvWriteTrailer 1 (-5); EvWriteTrailer 2 0]
               ++ [EvPrintReport 1].
Proof.
  destruct (transcode_finishes flush_ends second_fails first_error 6
              sample_options first_call 0 three_outputs three_outputs_indexed
              three_outputs_positions)
    as (exceeded & w' & pre & H1 & _ & H2 & _).
  - apply sample_streams_fit. right. left. reflexivity.
  - vm_compute. lia.
  - vm_compute. lia.
  - exists exceeded, w', pre. split; [exact H1|exact H2].
Defined.

Lemma finished_world_at_eof : at_eof finished_world.
Proof.
  intros k f H. destruct k as [|k]; [|destruct k; discriminate H].
  inversion H; subst f. discriminate.
Qed.

Lemma failed_world_at_eof : at_eof failed_world.
Proof.
  intros k f H. destruct k as [|k]; [|destruct k; discriminate H].
  inversion H; subst f. discriminate.
Qed.

(** The sample video stream decoded 4 frames and failed on 6 packets:
    the rate counts as 0 and nothing is exceeded; the stream that
    decoded no frame exceeds the maximum of one half. *)
Lemma transcode_error_verdict_witness :
  (exists ret w',
     transcode_end flush_ends trailer_ok first_error 4 sample_options
       first_call 0 finished_world = Some (Ended (ret, 0, w')) /\
     (rate_exceeded sample_options finished_world (0, 0)%nat = true <->
      frames_decoded sample_video = 0 /\ 0 < decode_errors sample_video /\
      (max_error_rate sample_options < 1)%Q)) /\
  (exists ret w',
     transcode_end flush_ends trailer_ok first_error 4 sample_options
       first_call 0 failed_world = Some (Ended (ret, 1, w'))).
Proof.
  split.
  - destruct (transcode_error_verdict flush_ends trailer_ok first_error 4
                sample_options first_call 0 finished_world
                finished_world_indexed SchedulerFacts.sample_world_indexed)
      as (ret & w' & H1 & _ & H2).
    + apply sample_streams_fit. right. left. reflexivity.
    + exact finished_world_at_eof.
    + vm_compute. lia.
    + vm_compute. lia.
    + vm_compute. discriminate.
    + exists ret, w'. split; [exact H1|].
      apply (H2 (0, 0)%nat sample_video). reflexivity.
  - destruct (transcode_error_verdict flush_ends trailer_ok first_error 4
                sample_options first_call 0 failed_world
                failed_world_indexed SchedulerFacts.sample_world_indexed)
      as (ret & w' & H1 & _).
    + apply sample_streams_fit. right. right. reflexivity.
    + exact failed_world_at_eof.
    + vm_compute. lia.
    + vm_compute. lia.
    + vm_compute. discriminate.
    + exists ret, w'. exact H1.
Defined.



End FinishFacts.
